(** * Clause containers of the saturation core

    A shallow embedding of

    - [Saturation/ClauseContainer.cpp]: the Unprocessed container and the
      Active container with its limit-driven discard pass, and
    - [Saturation/PredicateSplitPassiveClauseContainer.cpp]: the multi-queue
      passive container with weighted round-robin selection,

    followed by the properties of these containers.

    Conventions.  A [Clause*] is a [ClausePtr]; the clause objects live in a
    read-only heap [ClausePtr -> Clause].  An event object is the log of the
    values it was fired with, oldest first.  An operation whose C++ behaviour
    is undefined on some input (reading a vector out of range, popping an
    empty deque, leaving a non-void function without [return]) yields [None]
    there.  Debug assertions ([ASS], [ASS_EQ], ...) and tracing macros
    ([CALL], [RSTAT_CTR_INC]) compile to nothing in a release build and are
    not part of the model. *)

From Stdlib Require Import ZArith Lia Bool Ascii String Sorted.
From Stdlib Require Import Floats.SpecFloat.
From stdpp Require Import base option list gmap strings.
From Equations Require Import Equations.

Local Open Scope Z_scope.

#[local] Set Warnings "-clear-no-such-hyp".

(** ** Machine integers *)

Module MachInt.

Definition INT_MAX : Z := 2 ^ 31 - 1.
Definition INT_MIN : Z := - 2 ^ 31.

(** Conversion to [int]: the value modulo [2^32] read as two's complement.
    It also stands for the result of an [int] operation. *)
Definition wrap_int (z : Z) : Z := (z + 2 ^ 31) mod 2 ^ 32 - 2 ^ 31.

(** Conversion to [unsigned]. *)
Definition wrap_unsigned (z : Z) : Z := z mod 2 ^ 32.

Definition in_int (z : Z) : Prop := INT_MIN <= z <= INT_MAX.

Definition unsigned_range (z : Z) : Prop := 0 <= z < 2 ^ 32.

End MachInt.

(** ** Single-precision floats

    [float] values are IEEE 754 binary32 numbers, given by the Standard
    Library's executable specification with a 24-bit significand. *)

Module Float32.

Definition prec : Z := 24.
Definition emax : Z := 128.

Definition float : Type := spec_float.

(** Conversion of an integer, and of the dyadic number [m * 2^e]. *)
Definition of_Z (z : Z) : float := binary_normalize prec emax z 0 false.
Definition of_dyadic (m e : Z) : float := binary_normalize prec emax m e false.

Definition leb (x y : float) : bool := SFleb x y.
Definition ltb (x y : float) : bool := SFltb x y.
Definition eqb (x y : float) : bool := SFeqb x y.
Definition div (x y : float) : float := SFdiv prec emax x y.

Definition zero : float := S754_zero false.
Definition one : float := Eval vm_compute in of_Z 1.
Definition two : float := Eval vm_compute in of_Z 2.
Definition three : float := Eval vm_compute in of_Z 3.
Definition four : float := Eval vm_compute in of_Z 4.
Definition five : float := Eval vm_compute in of_Z 5.
Definition six : float := Eval vm_compute in of_Z 6.
Definition half : float := Eval vm_compute in of_dyadic 1 (-1).

(** The literal [0.8] is a [double], [7205759403792794 * 2^-53]; stored
    into a [float] variable it is rounded to binary32. *)
Definition lit_0_8 : float := Eval vm_compute in of_dyadic 7205759403792794 (-53).

Definition is_nan (x : float) : bool :=
  match x with S754_nan => true | _ => false end.

End Float32.

(** ** Clauses, literals, inferences

    [Kernel/Clause.hpp] and [Kernel/Inference.hpp] are not among the sources
    studied here.  The records hold what the containers read through the
    accessors, with the types the call sites give them: [age()] and
    [weight()] are compared with and subtracted from [int] values, a
    literal's [weight()] is accumulated in an [unsigned], and the two
    ancestor counters are read into [float] locals. *)

Module Literal.
Record t := { weight : Z }.
End Literal.

Module Inference.
Record t := { th_ancestors : Float32.float; all_ancestors : Float32.float }.
End Inference.

Module Clause.
(** Modelled from the spec: [getEffectiveWeight] is declared in the absent
    [Kernel/Clause.hpp]; the spec compares "effectiveWeight" with
    "weightLimit" as numbers, so the record holds it as an integer. *)
Record t := {
  age : Z;
  weight : Z;
  getEffectiveWeight : Z;
  selected : nat;              (* number of selected literals, at the front *)
  literals : list Literal.t;   (* literal i of the clause is [literals !! i] *)
  inference : Inference.t
}.
End Clause.

Abbreviation ClausePtr := positive.

(** The heap the clause pointers point into. *)
Definition Heap : Type := ClausePtr -> Clause.t.

(** What a container's three event objects were fired with. *)
Inductive ClauseEvent : Type :=
| addedEvent (c : ClausePtr)
| removedEvent (c : ClausePtr)
| selectedEvent (c : ClausePtr).

#[global] Instance ClauseEvent_eq_dec : EqDecision ClauseEvent.
Proof. solve_decision. Defined.

Definition is_selectedEvent (e : ClauseEvent) : Prop :=
  match e with
  | selectedEvent _ => True
  | _ => False
  end.

(** The [store] field of the clause objects, the one part of a clause the
    containers write; it is kept apart from the read-only heap.  The values
    are those the sources name. *)
Inductive Store : Type := NONE | UNPROCESSED | PASSIVE | ACTIVE.

Definition Stores : Type := ClausePtr -> Store.

Definition setStore (cl : ClausePtr) (v : Store) (st : Stores) : Stores :=
  fun c => if decide (c = cl) then v else st c.

(** ** [UnprocessedClauseContainer] *)

Module UnprocessedClauseContainer.

(** [_data] is a deque; its back is the end of the list. *)
Record t := { _data : list ClausePtr; events : list ClauseEvent }.

Definition empty : t := {| _data := []; events := [] |}.

Definition push_back (c : ClausePtr) (d : list ClausePtr) : list ClausePtr := d ++ [c].

Fixpoint pop_back (d : list ClausePtr) : option (ClausePtr * list ClausePtr) :=
  match d with
  | [] => None
  | [x] => Some (x, [])
  | x :: d' => match pop_back d' with
               | Some (y, r) => Some (y, x :: r)
               | None => None
               end
  end.

Definition add (c : ClausePtr) (s : t) : t :=
  {| _data := push_back c (_data s); events := events s ++ [addedEvent c] |}.

Definition pop (s : t) : option (ClausePtr * t) :=
  match pop_back (_data s) with
  | Some (res, d) => Some (res, {| _data := d; events := events s ++ [selectedEvent res] |})
  | None => None
  end.

(** Sequences of calls. *)
Inductive Op : Type := OpAdd (c : ClausePtr) | OpPop.

(** Runs the calls in order and collects what the [pop]s returned. *)
Fixpoint run (ops : list Op) (s : t) : option (list ClausePtr * t) :=
  match ops with
  | [] => Some ([], s)
  | OpAdd c :: ops' => run ops' (add c s)
  | OpPop :: ops' =>
      match pop s with
      | Some (c, s') =>
          match run ops' s' with
          | Some (out, s'') => Some (c :: out, s'')
          | None => None
          end
      | None => None
      end
  end.

(** [ClauseContainer::addClauses], with the iterator as the list of the
    clauses it yields. *)
Fixpoint addClauses (cit : list ClausePtr) (s : t) : t :=
  match cit with
  | [] => s
  | c :: rest => addClauses rest (add c s)
  end.

(** The destructor's loop [while (!_data.isEmpty())]; [n] bounds the
    number of clauses left. *)
Fixpoint destructorLoop (n : nat) (d : list ClausePtr) (st : Stores)
  : list ClausePtr * Stores :=
  match n with
  | O => (d, st)
  | S n' =>
      match pop_back d with
      | Some (cl, d') => destructorLoop n' d' (setStore cl NONE st)
      | None => (d, st)
      end
  end.

Definition destructor (s : t) (st : Stores) : t * Stores :=
  let '(d, st') := destructorLoop (length (_data s)) (_data s) st in
  ({| _data := d; events := events s |}, st').

(** [n] calls of [pop]. *)
Definition pops (n : nat) : list Op := replicate n OpPop.

(** *** The pop order in the spec's words

    "the most recently added clause that has not yet been popped": every
    [add] is stamped with the time of the call; the pending clauses are kept
    as a bag of stamped entries and a pop takes the entry with the greatest
    stamp. *)

Definition Stamped : Type := nat * ClausePtr.

Fixpoint most_recent (pending : list Stamped) : option Stamped :=
  match pending with
  | [] => None
  | e :: rest =>
      match most_recent rest with
      | Some e' => if (e'.1 <? e.1)%nat then Some e else Some e'
      | None => Some e
      end
  end.

Definition drop_stamp (t : nat) (pending : list Stamped) : list Stamped :=
  filter (fun e => e.1 <> t) pending.

Fixpoint spec_run (ops : list Op) (now : nat) (pending : list Stamped)
  : option (list ClausePtr * list Stamped) :=
  match ops with
  | [] => Some ([], pending)
  | OpAdd c :: ops' => spec_run ops' (S now) (pending ++ [(now, c)])
  | OpPop :: ops' =>
      match most_recent pending with
      | Some (t, c) =>
          match spec_run ops' (S now) (drop_stamp t pending) with
          | Some (out, p) => Some (c :: out, p)
          | None => None
          end
      | None => None
      end
  end.

(** A bag whose stamps increase along the list and lie in the past. *)
Definition stamped_before (now : nat) (pending : list Stamped) : Prop :=
  StronglySorted (fun a b => (a.1 < b.1)%nat) pending /\
  Forall (fun e => (e.1 < now)%nat) pending.

End UnprocessedClauseContainer.

(** ** Limits

    [Limits] is declared in a header outside the sources; the discard pass
    reads these four values from it. *)

Module Limits.
Record t := {
  ageLimited : bool;
  weightLimited : bool;
  ageLimit : Z;
  weightLimit : Z
}.
End Limits.

Inductive LimitsChangeType : Type := LIMITS_LOOSENED | LIMITS_TIGHTENED.

(** ** [ActiveClauseContainer] *)

Module ActiveClauseContainer.

Import MachInt.

(** The container, together with the two function-local [static] objects of
    [onLimitsUpdated] and the statistics counter the pass increments.
    [toRemove] is a stack whose top is the head of the list. *)
Record t := {
  _size : Z;
  events : list ClauseEvent;
  checked : gset ClausePtr;
  toRemove : list ClausePtr;
  discardedNonRedundantClauses : Z
}.

Definition set_size (f : Z -> Z) (s : t) : t :=
  {| _size := f (_size s); events := events s; checked := checked s;
     toRemove := toRemove s;
     discardedNonRedundantClauses := discardedNonRedundantClauses s |}.

Definition fire (e : ClauseEvent) (s : t) : t :=
  {| _size := _size s; events := events s ++ [e]; checked := checked s;
     toRemove := toRemove s;
     discardedNonRedundantClauses := discardedNonRedundantClauses s |}.

Definition set_checked (f : gset ClausePtr -> gset ClausePtr) (s : t) : t :=
  {| _size := _size s; events := events s; checked := f (checked s);
     toRemove := toRemove s;
     discardedNonRedundantClauses := discardedNonRedundantClauses s |}.

Definition set_toRemove (f : list ClausePtr -> list ClausePtr) (s : t) : t :=
  {| _size := _size s; events := events s; checked := checked s;
     toRemove := f (toRemove s);
     discardedNonRedundantClauses := discardedNonRedundantClauses s |}.

Definition count_discarded (s : t) : t :=
  {| _size := _size s; events := events s; checked := checked s;
     toRemove := toRemove s;
     discardedNonRedundantClauses := discardedNonRedundantClauses s + 1 |}.

(** The width of [_size] is declared in the absent header; it is kept as an
    integer. *)
Definition add (c : ClausePtr) (s : t) : t :=
  fire (addedEvent c) (set_size (fun n => n + 1) s).

Definition remove (c : ClausePtr) (s : t) : t :=
  fire (removedEvent c) (set_size (fun n => n - 1) s).

(** The loop [for (i = 0; i < selCnt; i++) maxSelWeight = max(...)], entered
    at index [i] with [n] iterations to go. *)
Fixpoint maxSelWeightLoop (lits : list Literal.t) (n i : nat) (maxSelWeight : Z)
  : option Z :=
  match n with
  | O => Some maxSelWeight
  | S n' =>
      match lits !! i with
      | Some l => maxSelWeightLoop lits n' (S i) (Z.max (Literal.weight l) maxSelWeight)
      | None => None
      end
  end.

(** The value given to [shouldRemove] for a clause that is examined. *)
Definition shouldRemove (c : Clause.t) (ageLimit weightLimit : Z) : option bool :=
  if ageLimit <? Clause.age c then
    Some (weightLimit <? Clause.getEffectiveWeight c)
  else
    match maxSelWeightLoop (Clause.literals c) (Clause.selected c) 0 0 with
    | Some maxSelWeight =>
        Some (weightLimit <=? wrap_int (Clause.weight c - wrap_int maxSelWeight))
    | None => None
    end.

(** One iteration of the [while (rit.hasNext())] loop. *)
Definition visit (mem : Heap) (ageLimit weightLimit : Z) (cl : ClausePtr) (s : t)
  : option t :=
  if (Clause.age (mem cl) <? ageLimit) || bool_decide (cl ∈ checked s) then Some s
  else
    let s1 := set_checked (fun ch => {[cl]} ∪ ch) s in
    match shouldRemove (mem cl) ageLimit weightLimit with
    | Some true => Some (set_toRemove (cons cl) s1)
    | Some false => Some s1
    | None => None
    end.

Fixpoint walk (mem : Heap) (ageLimit weightLimit : Z) (rit : list ClausePtr) (s : t)
  : option t :=
  match rit with
  | [] => Some s
  | cl :: rit' =>
      match visit mem ageLimit weightLimit cl s with
      | Some s' => walk mem ageLimit weightLimit rit' s'
      | None => None
      end
  end.

(** The loop [while (toRemove.isNonEmpty())]; [stack] is [toRemove] at the
    loop head. *)
Fixpoint removeLoop (stack : list ClausePtr) (s : t) : t :=
  match stack with
  | [] => s
  | removed :: rest =>
      removeLoop rest (remove removed (count_discarded (set_toRemove (fun _ => rest) s)))
  end.

(** The static objects as the pass resets them. *)
Definition reset (s : t) : t :=
  set_toRemove (fun _ => []) (set_checked (fun _ => ∅) s).

(** [gis] is the generating literal index, [None] for a null pointer,
    otherwise the clauses of the results [getAll()] enumerates, in order. *)
Definition onLimitsUpdated (mem : Heap) (gis : option (list ClausePtr))
    (limits : Limits.t) (change : LimitsChangeType) (s : t) : option t :=
  match change with
  | LIMITS_LOOSENED => Some s
  | LIMITS_TIGHTENED =>
      match gis with
      | None => Some s
      | Some rit =>
          if negb (Limits.ageLimited limits) || negb (Limits.weightLimited limits)
          then Some s
          else
            let ageLimit := Limits.ageLimit limits in
            let weightLimit := Limits.weightLimit limits in
            match walk mem ageLimit weightLimit rit (reset s) with
            | Some s1 => Some (removeLoop (toRemove s1) s1)
            | None => None
            end
      end
  end.

(** *** The discard predicate in the spec's words *)

Definition maxSelectedLiteralWeight (c : Clause.t) : Z :=
  foldr Z.max 0 (Literal.weight <$> take (Clause.selected c) (Clause.literals c)).

Definition discardPredicate (c : Clause.t) (ageLimit weightLimit : Z) : Prop :=
  (Clause.age c > ageLimit /\ Clause.getEffectiveWeight c > weightLimit) \/
  (Clause.age c = ageLimit /\ Clause.weight c - maxSelectedLiteralWeight c >= weightLimit).

Definition discardb (c : Clause.t) (ageLimit weightLimit : Z) : bool :=
  (ageLimit <? Clause.age c) && (weightLimit <? Clause.getEffectiveWeight c)
  || (Clause.age c =? ageLimit)
     && (weightLimit <=? Clause.weight c - maxSelectedLiteralWeight c).

(** The clauses of an enumeration in the order in which they are first met,
    those in [seen] left out. *)
Fixpoint first_occurrences (seen : gset ClausePtr) (l : list ClausePtr)
  : list ClausePtr :=
  match l with
  | [] => []
  | x :: l' =>
      if decide (x ∈ seen) then first_occurrences seen l'
      else x :: first_occurrences ({[x]} ∪ seen) l'
  end.

(** The clauses a pass is to discard, in the order in which the walk over
    the index meets them. *)
Definition collected (mem : Heap) (ageLimit weightLimit : Z) (rit : list ClausePtr)
  : list ClausePtr :=
  filter (fun cl => discardb (mem cl) ageLimit weightLimit = true)
         (first_occurrences ∅ rit).

(** Ranges of the values a clause object holds: the selected literals are
    literals of the clause, a literal weight is an [unsigned] that the cast
    to [int] keeps, the clause weight is a non-negative [int]. *)
Definition clause_ok (c : Clause.t) : Prop :=
  (Clause.selected c <= length (Clause.literals c))%nat /\
  Forall (fun l => 0 <= Literal.weight l <= INT_MAX) (Clause.literals c) /\
  0 <= Clause.weight c <= INT_MAX.

End ActiveClauseContainer.

(** ** Options and the inner queues *)

Module Options.
Record t := {
  splitQueueRatios : string;
  splitQueueCutoffs : string;
  splitQueueFadeIn : bool
}.
End Options.

(** The queues of the predicate-split container are
    [AWPassiveClauseContainer] objects, whose code is outside the sources
    studied here.  The class lists the methods the outer container calls.
    [q_new opt cutoff] is the queue made for the cutoff (which only names
    it).  [simulationHasNext] is not [const]: it returns the queue it
    leaves behind; so do the methods that set limits. *)
Class InnerQueue (Q : Type) : Type := {
  q_new : Options.t -> Float32.float -> Q;
  q_add : ClausePtr -> Q -> Q;
  q_remove : ClausePtr -> Q -> Q;
  q_isEmpty : Q -> bool;
  q_popSelected : Q -> option (ClausePtr * Q);
  q_simulationInit : Q -> Q;
  q_simulationHasNext : Q -> bool * Q;
  q_simulationPopSelected : Q -> Q;
  q_setLimitsToMax : Q -> bool * Q;
  q_setLimitsFromSimulation : Q -> bool * Q;
  q_onLimitsUpdated : Q -> Q;
  q_fulfilsAgeLimit : Heap -> ClausePtr -> Q -> bool;
  q_fulfilsWeightLimit : Heap -> ClausePtr -> Q -> bool;
  (* not a method: the set of clauses the queue holds *)
  q_elements : Q -> gset ClausePtr
}.

(** What the outer container relies on: a queue holds a set of clauses,
    [add], [remove] and [popSelected] act on it as their names say, and the
    simulation leaves it alone. *)
Class InnerQueueLaws (Q : Type) `{InnerQueue Q} : Prop := {
  q_elements_new : forall opt c, q_elements (q_new opt c) = ∅;
  q_elements_add : forall cl q, q_elements (q_add cl q) = {[cl]} ∪ q_elements q;
  q_elements_remove : forall cl q, q_elements (q_remove cl q) = q_elements q ∖ {[cl]};
  q_isEmpty_elements : forall q, q_isEmpty q = true <-> q_elements q = ∅;
  q_popSelected_nonempty : forall q, q_isEmpty q = false -> is_Some (q_popSelected q);
  q_elements_pop : forall q cl q', q_popSelected q = Some (cl, q') ->
    cl ∈ q_elements q /\ q_elements q' = q_elements q ∖ {[cl]};
  q_elements_simulationInit : forall q, q_elements (q_simulationInit q) = q_elements q;
  q_elements_simulationHasNext : forall q,
    q_elements (q_simulationHasNext q).2 = q_elements q;
  q_elements_simulationPopSelected : forall q,
    q_elements (q_simulationPopSelected q) = q_elements q
}.

(** The further methods of the inner queues that the outer container
    calls: the size estimate, the limit flags, the admission test for the
    children of a clause, and the overloads of the admission tests that take
    the properties of a clause that does not exist yet. *)
Class InnerQueueQueries (Q : Type) : Type := {
  q_sizeEstimate : Q -> Z;
  q_ageLimited : Q -> bool;
  q_weightLimited : Q -> bool;
  q_childrenPotentiallyFulfilLimits : Heap -> ClausePtr -> Z -> Q -> bool;
  (* age, w, numeralWeight, derivedFromGoal, inference *)
  q_fulfilsAgeLimitOf : Z -> Z -> Z -> bool -> Inference.t -> Q -> bool;
  (* w, numeralWeight, derivedFromGoal, age, inference *)
  q_fulfilsWeightLimitOf : Z -> Z -> bool -> Z -> Inference.t -> Q -> bool
}.

(** ** [PredicateSplitPassiveClauseContainer] *)

Module PredicateSplitPassiveClauseContainer.

Import MachInt.

(** *** [computeGCD], [computeLCM]

    [%] and [/] on [int] are [Z.rem] and [Z.quot], and an [int] result is
    wrapped.  C++ leaves [INT_MIN % -1] and [INT_MIN / -1] undefined; these
    definitions give them the value of [Z.rem] and the wrapped quotient, so
    what is proved of the two functions themselves is stated on arguments
    where neither comes up. *)

Equations? computeGCD (a b : Z) : Z by wf (Z.abs_nat a) lt :=
computeGCD a b with Z.eq_dec a 0 := {
  | left _ => b
  | right _ => computeGCD (Z.rem b a) a }.
Proof.
  pose proof (Z.rem_bound_abs b a). lia.
Qed.

(** [None]: division by zero. *)
Definition computeLCM (a b : Z) : option Z :=
  let g := computeGCD a b in
  if g =? 0 then None else Some (wrap_int (Z.quot (wrap_int (a * b)) g)).

(** The loop [for (...) lcm = computeLCM(lcm, inputRatios[i])]. *)
Fixpoint lcmLoop (inputRatios : list Z) (lcm : Z) : option Z :=
  match inputRatios with
  | [] => Some lcm
  | r :: rest =>
      match computeLCM lcm r with
      | Some lcm' => lcmLoop rest lcm'
      | None => None
      end
  end.

(** *** Reading the option strings *)

(** The tokens the loop [while (std::getline(stream, token, ','))] sees:
    a token ends at a comma or at the end of the string, and nothing
    follows a final comma. *)
Fixpoint getlineLoop (current : string) (s : string) : list string :=
  match s with
  | EmptyString => [current]
  | String c s' =>
      if Ascii.eqb c ","%char then
        current :: match s' with
                   | EmptyString => []
                   | _ => getlineLoop EmptyString s'
                   end
      else getlineLoop (current +:+ String c EmptyString) s'
  end.

Definition getlines (s : string) : list string :=
  match s with
  | EmptyString => []
  | _ => getlineLoop EmptyString s
  end.

(** How construction can end other than with a container: [USER_ERROR], or
    an exception of [std::stoi] or [std::stof]. *)
Inductive Failure : Type :=
| UserError (msg : string)
| StdException.

Section Container.

Context {Q : Type} `{InnerQueue Q}.

(** The element type of [_ratios], [_balances] and [_simulationBalances]
    is declared in the absent header; they are taken as vectors of
    [unsigned].  A vector is a list, [v[i]] is [v !! i]. *)
Record t : Type := {
  _isOutermost : bool;
  _opt : Options.t;
  _queues : list Q;
  _ratios : list Z;
  _cutoffs : list Float32.float;
  _balances : list Z;
  _simulationBalances : list Z;
  events : list ClauseEvent
}.

Definition set_queues (qs : list Q) (s : t) : t :=
  {| _isOutermost := _isOutermost s; _opt := _opt s; _queues := qs;
     _ratios := _ratios s; _cutoffs := _cutoffs s; _balances := _balances s;
     _simulationBalances := _simulationBalances s; events := events s |}.

Definition set_balances (bs : list Z) (s : t) : t :=
  {| _isOutermost := _isOutermost s; _opt := _opt s; _queues := _queues s;
     _ratios := _ratios s; _cutoffs := _cutoffs s; _balances := bs;
     _simulationBalances := _simulationBalances s; events := events s |}.

Definition set_simulationBalances (bs : list Z) (s : t) : t :=
  {| _isOutermost := _isOutermost s; _opt := _opt s; _queues := _queues s;
     _ratios := _ratios s; _cutoffs := _cutoffs s; _balances := _balances s;
     _simulationBalances := bs; events := events s |}.

Definition fire (e : ClauseEvent) (s : t) : t :=
  {| _isOutermost := _isOutermost s; _opt := _opt s; _queues := _queues s;
     _ratios := _ratios s; _cutoffs := _cutoffs s; _balances := _balances s;
     _simulationBalances := _simulationBalances s; events := events s ++ [e] |}.

(** *** The constructor *)

(** The sanity loop over the entries, [prev] being [_cutoffs[i-1]] once
    [i > 0]; the result is the message of the first [USER_ERROR]. *)
Fixpoint checkEntries (inputRatios : list Z) (cutoffs : list Float32.float)
    (prev : option Float32.float) : option string :=
  match inputRatios, cutoffs with
  | v :: rs, cutoff :: cs =>
      if v <=? 0 then
        Some "Each ratio (supplied by option '-sqr') needs to be a positive integer"
      else if negb (Float32.leb Float32.zero cutoff && Float32.leb cutoff Float32.one) then
        Some "Each cutoff value (supplied by option '-sqc') needs to be a float in the interval [0.0,1.0]"
      else if match prev with
              | Some p => Float32.leb cutoff p
              | None => false
              end then
        Some "The cutoff values (supplied by option '-sqc') must be strictly increasing"
      else checkEntries rs cs (Some cutoff)
  | _, _ => None
  end.

(** The initialising loop: one queue, one internal ratio and one balance
    per entry. *)
Definition initQueues (opt : Options.t) (cutoffs : list Float32.float)
    (inputRatios : list Z) : list Q :=
  (fun i => q_new opt (default Float32.zero (cutoffs !! i))) <$> seq 0 (length inputRatios).

Definition initRatios (lcm : Z) (inputRatios : list Z) : list Z :=
  (fun r => wrap_unsigned (Z.quot lcm r)) <$> inputRatios.

(** The constructor from the point where both option strings are parsed. *)
Definition construct (isOutermost : bool) (opt : Options.t)
    (inputRatios : list Z) (cutoffs : list Float32.float) : option (Failure + t) :=
  if (length inputRatios <? 2)%nat then
    Some (inl (UserError "Wrong usage of option '-sqr'. Needs to have at least two values (e.g. '10,1')"))
  else if negb (length inputRatios =? length cutoffs)%nat then
    Some (inl (UserError "The number of input ratios (supplied by option '-sqr') needs to match the number of cutoffs (supplied by option '-sqc')"))
  else
    match checkEntries inputRatios cutoffs None with
    | Some msg => Some (inl (UserError msg))
    | None =>
        match last cutoffs with
        | None => None
        | Some back =>
            if negb (Float32.eqb back Float32.one) then
              Some (inl (UserError "The last cutoff value (supplied by option '-sqc') must be 1.0"))
            else
              match lcmLoop inputRatios 1 with
              | None => None
              | Some lcm =>
                  Some (inr {| _isOutermost := isOutermost; _opt := opt;
                               _queues := initQueues opt cutoffs inputRatios;
                               _ratios := initRatios lcm inputRatios;
                               _cutoffs := cutoffs;
                               _balances := (fun _ => 0) <$> inputRatios;
                               _simulationBalances := [];
                               events := [] |})
              end
        end
    end.

(** The constructor proper.  [stoi] and [stof] stand for the library
    functions; [None] when they throw. *)
Definition constructor (stoi : string -> option Z) (stof : string -> option Float32.float)
    (isOutermost : bool) (opt : Options.t) : option (Failure + t) :=
  match mapM stoi (getlines (Options.splitQueueRatios opt)) with
  | None => Some (inl StdException)
  | Some inputRatios =>
      match mapM stof (getlines (Options.splitQueueCutoffs opt)) with
      | None => Some (inl StdException)
      | Some cutoffs => construct isOutermost opt inputRatios cutoffs
      end
  end.

(** *** [bestQueueHeuristics] *)

(** The first half of the function: the niceness of an inference. *)
Definition niceness (opt : Options.t) (inf : Inference.t) : Float32.float :=
  let th_ancestors := Inference.th_ancestors inf in
  let all_ancestors := Inference.all_ancestors inf in
  let theoryRatio := Float32.div th_ancestors all_ancestors in
  if Options.splitQueueFadeIn opt then
    if Float32.leb th_ancestors Float32.two then Float32.zero
    else if Float32.eqb th_ancestors Float32.three && Float32.leb all_ancestors Float32.six
    then Float32.half
    else if Float32.eqb th_ancestors Float32.four && Float32.leb all_ancestors Float32.five
    then Float32.lit_0_8
    else theoryRatio
  else theoryRatio.

(** The second half: the loop over the cutoffs from index [i] on.  [None]
    when the loop ends, where the function has no [return]. *)
Fixpoint cutoffLoop (niceness : Float32.float) (cutoffs : list Float32.float) (i : nat)
  : option nat :=
  match cutoffs with
  | [] => None
  | c :: cs => if Float32.leb niceness c then Some i else cutoffLoop niceness cs (S i)
  end.

Definition bestQueueHeuristics (s : t) (inf : Inference.t) : option nat :=
  cutoffLoop (niceness (_opt s) inf) (_cutoffs s) 0.

(** *** [add], [remove], [isEmpty] *)

(** The loops [for (i = bestQueueIndex; i < _queues.size(); i++)] that call
    one method on each queue from [i] on. *)
Fixpoint applyFrom (f : Q -> Q) (i : nat) (qs : list Q) : list Q :=
  match qs with
  | [] => []
  | q :: qs' =>
      match i with
      | O => f q :: applyFrom f O qs'
      | S i' => q :: applyFrom f i' qs'
      end
  end.

Definition add (mem : Heap) (cl : ClausePtr) (s : t) : option t :=
  match bestQueueHeuristics s (Clause.inference (mem cl)) with
  | Some bestQueueIndex =>
      let s1 := set_queues (applyFrom (q_add cl) bestQueueIndex (_queues s)) s in
      Some (if _isOutermost s then fire (addedEvent cl) s1 else s1)
  | None => None
  end.

Definition remove (mem : Heap) (cl : ClausePtr) (s : t) : option t :=
  match bestQueueHeuristics s (Clause.inference (mem cl)) with
  | Some bestQueueIndex =>
      let s1 := set_queues (applyFrom (q_remove cl) bestQueueIndex (_queues s)) s in
      Some (if _isOutermost s then fire (removedEvent cl) s1 else s1)
  | None => None
  end.

Definition isEmpty (s : t) : bool := forallb q_isEmpty (_queues s).

(** *** [popSelected] *)

(** [std::distance(begin, std::min_element(begin, end))]: the position of
    the first smallest element, 0 on an empty range. *)
Fixpoint min_element_from (l : list Z) (i smallest : nat) (smallestVal : Z) : nat :=
  match l with
  | [] => smallest
  | x :: l' =>
      if x <? smallestVal then min_element_from l' (S i) i x
      else min_element_from l' (S i) smallest smallestVal
  end.

Definition min_element (l : list Z) : nat :=
  match l with
  | [] => O
  | x :: l' => min_element_from l' 1 0 x
  end.

(** The rightward loop, [qs] being the queues from [currIndex] on. *)
Fixpoint scanRight (qs : list Q) (currIndex : nat) : nat :=
  match qs with
  | [] => currIndex
  | q :: qs' => if q_isEmpty q then scanRight qs' (S currIndex) else currIndex
  end.

(** The leftward loop; it reads [_queues[-1]] when it passes index 0. *)
Fixpoint scanLeft (qs : list Q) (currIndex : nat) : option nat :=
  match qs !! currIndex with
  | None => None
  | Some q =>
      if q_isEmpty q then
        match currIndex with
        | O => None
        | S i => scanLeft qs i
        end
      else Some currIndex
  end.

Definition popSelected (s : t) : option (ClausePtr * t) :=
  let queueIndex := min_element (_balances s) in
  match _balances s !! queueIndex, _ratios s !! queueIndex with
  | Some b, Some w =>
      let s1 := set_balances (<[queueIndex := wrap_unsigned (b + w)]> (_balances s)) s in
      let rightIndex := scanRight (drop queueIndex (_queues s1)) queueIndex in
      let found :=
        if (rightIndex =? length (_queues s1))%nat then
          match queueIndex with
          | O => None
          | S i => scanLeft (_queues s1) i
          end
        else Some rightIndex in
      match found with
      | None => None
      | Some currIndex =>
          match _queues s1 !! currIndex with
          | None => None
          | Some q =>
              match q_popSelected q with
              | None => None
              | Some (cl, q') =>
                  let s2 := set_queues (q_remove cl <$> <[currIndex := q']> (_queues s1)) s1 in
                  Some (cl, fire (selectedEvent cl) s2)
              end
          end
      end
  | _, _ => None
  end.

(** *** The simulation *)

Definition simulationInit (s : t) : t :=
  set_queues (q_simulationInit <$> _queues s) (set_simulationBalances (_balances s) s).

(** A loop that calls [f] on every queue and accumulates the disjunction of
    the results. *)
Fixpoint forEachOr (f : Q -> bool * Q) (qs : list Q) (acc : bool) : bool * list Q :=
  match qs with
  | [] => (acc, [])
  | q :: qs' =>
      let '(curr, q') := f q in
      let '(res, qs'') := forEachOr f qs' (acc || curr) in
      (res, q' :: qs'')
  end.

Definition simulationHasNext (s : t) : bool * t :=
  let '(hasNext, qs) := forEachOr q_simulationHasNext (_queues s) false in
  (hasNext, set_queues qs s).

(** The rightward loop of the simulation over the queues from [currIndex]
    on; every queue asked is replaced by what [simulationHasNext] leaves. *)
Fixpoint simulationScanRight (qs : list Q) (currIndex : nat) : nat * list Q :=
  match qs with
  | [] => (currIndex, [])
  | q :: qs' =>
      let '(hasNext, q') := q_simulationHasNext q in
      if hasNext then (currIndex, q' :: qs')
      else
        let '(i, qs'') := simulationScanRight qs' (S currIndex) in
        (i, q' :: qs'')
  end.

Fixpoint simulationScanLeft (qs : list Q) (currIndex : nat) : option (nat * list Q) :=
  match qs !! currIndex with
  | None => None
  | Some q =>
      let '(hasNext, q') := q_simulationHasNext q in
      let qs' := <[currIndex := q']> qs in
      if hasNext then Some (currIndex, qs')
      else
        match currIndex with
        | O => None
        | S i => simulationScanLeft qs' i
        end
  end.

Definition simulationPopSelected (s : t) : option t :=
  let queueIndex := min_element (_simulationBalances s) in
  match _simulationBalances s !! queueIndex, _ratios s !! queueIndex with
  | Some b, Some w =>
      let s1 := set_simulationBalances
                  (<[queueIndex := wrap_unsigned (b + w)]> (_simulationBalances s)) s in
      let '(rightIndex, asked) := simulationScanRight (drop queueIndex (_queues s1)) queueIndex in
      let qs1 := take queueIndex (_queues s1) ++ asked in
      let found :=
        if (rightIndex =? length (_queues s1))%nat then
          match queueIndex with
          | O => None
          | S i => simulationScanLeft qs1 i
          end
        else Some (rightIndex, qs1) in
      match found with
      | None => None
      | Some (currIndex, qs2) =>
          match qs2 !! currIndex with
          | None => None
          | Some q => Some (set_queues (<[currIndex := q_simulationPopSelected q]> qs2) s1)
          end
      end
  | _, _ => None
  end.

(** *** Limits *)

Definition setLimitsToMax (s : t) : bool * t :=
  let '(tightened, qs) := forEachOr q_setLimitsToMax (_queues s) false in
  (tightened, set_queues qs s).

Definition setLimitsFromSimulation (s : t) : bool * t :=
  let '(tightened, qs) := forEachOr q_setLimitsFromSimulation (_queues s) false in
  (tightened, set_queues qs s).

Definition onLimitsUpdated (s : t) : t :=
  set_queues (q_onLimitsUpdated <$> _queues s) s.

(** The loops of [fulfilsAgeLimit] and [fulfilsWeightLimit]: [true] at the
    first queue from [i] on that accepts. *)
Fixpoint anyFrom (p : Q -> bool) (i : nat) (qs : list Q) : bool :=
  match qs with
  | [] => false
  | q :: qs' =>
      match i with
      | O => if p q then true else anyFrom p O qs'
      | S i' => anyFrom p i' qs'
      end
  end.

Definition fulfilsAgeLimit (mem : Heap) (s : t) (cl : ClausePtr) : option bool :=
  match bestQueueHeuristics s (Clause.inference (mem cl)) with
  | Some i => Some (anyFrom (q_fulfilsAgeLimit mem cl) i (_queues s))
  | None => None
  end.

Definition fulfilsWeightLimit (mem : Heap) (s : t) (cl : ClausePtr) : option bool :=
  match bestQueueHeuristics s (Clause.inference (mem cl)) with
  | Some i => Some (anyFrom (q_fulfilsWeightLimit mem cl) i (_queues s))
  | None => None
  end.

(** *** Sequences of calls

    One call of a method that changes the container.  The flag tells whether
    the methods through which LRS discards clauses from the queues
    ([setLimitsToMax], [setLimitsFromSimulation], [onLimitsUpdated]) may be
    among them. *)
Inductive step (mem : Heap) (lrs : bool) : t -> t -> Prop :=
| step_add cl s s' : add mem cl s = Some s' -> step mem lrs s s'
| step_remove cl s s' : remove mem cl s = Some s' -> step mem lrs s s'
| step_popSelected cl s s' : popSelected s = Some (cl, s') -> step mem lrs s s'
| step_simulationInit s : step mem lrs s (simulationInit s)
| step_simulationHasNext s : step mem lrs s (simulationHasNext s).2
| step_simulationPopSelected s s' : simulationPopSelected s = Some s' -> step mem lrs s s'
| step_setLimitsToMax s : lrs = true -> step mem lrs s (setLimitsToMax s).2
| step_setLimitsFromSimulation s : lrs = true -> step mem lrs s (setLimitsFromSimulation s).2
| step_onLimitsUpdated s : lrs = true -> step mem lrs s (onLimitsUpdated s).

Definition reachable (mem : Heap) (lrs : bool) : t -> t -> Prop := rtc (step mem lrs).

(** [n] calls of [simulationPopSelected]. *)
Fixpoint simulationPops (n : nat) (s : t) : option t :=
  match n with
  | O => Some s
  | S n' =>
      match simulationPopSelected s with
      | Some s' => simulationPops n' s'
      | None => None
      end
  end.

(** *** Relations between states used by the properties

    What no call changes. *)

Definition static (s s' : t) : Prop :=
  _ratios s' = _ratios s /\ _cutoffs s' = _cutoffs s /\ _opt s' = _opt s /\
  _isOutermost s' = _isOutermost s /\
  length (_queues s') = length (_queues s) /\
  length (_balances s') = length (_balances s).

(** The part of the state that is not the simulation's. *)
Definition real_state_kept (s s' : t) : Prop :=
  _balances s' = _balances s /\
  q_elements <$> _queues s' = q_elements <$> _queues s /\
  events s' = events s /\
  _ratios s' = _ratios s /\
  _cutoffs s' = _cutoffs s.

(** A clause held by queue [j] has a best queue at or below [j], and every
    queue from its best queue on holds it. *)
Definition covered (mem : Heap) (s : t) : Prop :=
  forall cl j q,
    _queues s !! j = Some q -> cl ∈ q_elements q ->
    exists b,
      bestQueueHeuristics s (Clause.inference (mem cl)) = Some b /\ (b <= j)%nat /\
      forall j' q', (b <= j')%nat -> _queues s !! j' = Some q' -> cl ∈ q_elements q'.


End Container.

(** *** The configuration rules and the weights in the spec's words *)

Definition configViolation (inputRatios : list Z) (cutoffs : list Float32.float) : Prop :=
  (length inputRatios < 2)%nat \/
  length inputRatios <> length cutoffs \/
  (exists r, r ∈ inputRatios /\ r <= 0) \/
  (exists c, c ∈ cutoffs /\
             ~ (Float32.leb Float32.zero c = true /\ Float32.leb c Float32.one = true)) \/
  (exists i c c', cutoffs !! i = Some c /\ cutoffs !! S i = Some c' /\
                  Float32.ltb c c' = false) \/
  (exists c, last cutoffs = Some c /\ Float32.eqb c Float32.one = false).

Definition in_unit_interval (c : Float32.float) : Prop :=
  Float32.leb Float32.zero c = true /\ Float32.leb c Float32.one = true.

(** The list the increasing check runs over: the cutoffs, after the
    previous one if there is one. *)
Definition after (prev : option Float32.float) (cs : list Float32.float) : list Float32.float :=
  match prev with
  | Some p => p :: cs
  | None => cs
  end.

Definition entryViolation (rs : list Z) (cs : list Float32.float) (prev : option Float32.float) : Prop :=
  (exists r, r ∈ rs /\ r <= 0) \/
  (exists c, c ∈ cs /\ ~ in_unit_interval c) \/
  (exists i c c', after prev cs !! i = Some c /\ after prev cs !! S i = Some c' /\
                  Float32.ltb c c' = false).

(** [lcm(r_1, ..., r_N)] and the internal weights [w_i = L / r_i]. *)
Definition lcmAll (ratios : list Z) : Z := foldl Z.lcm 1 ratios.

Definition internalWeights (ratios : list Z) : list Z :=
  (fun r => lcmAll ratios / r) <$> ratios.

Definition product (ratios : list Z) : Z := foldr Z.mul 1 ratios.


(** The string a list of tokens comes from: the tokens with commas in
    between. *)
Fixpoint joinTokens (tokens : list string) : string :=
  match tokens with
  | [] => EmptyString
  | [t] => t
  | t :: rest => t +:+ String ","%char (joinTokens rest)
  end.

Fixpoint has_comma (s : string) : bool :=
  match s with
  | EmptyString => false
  | String c s' => Ascii.eqb c ","%char || has_comma s'
  end.

Section Queries.

Context {Q : Type} `{InnerQueue Q} `{InnerQueueQueries Q}.

(** [None]: [back()] on an empty vector. *)
Definition sizeEstimate (s : t (Q := Q)) : option Z :=
  match last (_queues s) with
  | Some back => Some (q_sizeEstimate back)
  | None => None
  end.

(** The loops [for (const auto& queue : _queues)] that return [true] at
    the first queue that answers [true]. *)
Fixpoint anyQueue (p : Q -> bool) (qs : list Q) : bool :=
  match qs with
  | [] => false
  | q :: qs' => if p q then true else anyQueue p qs'
  end.

Definition ageLimited (s : t (Q := Q)) : bool := anyQueue q_ageLimited (_queues s).

Definition weightLimited (s : t (Q := Q)) : bool := anyQueue q_weightLimited (_queues s).

Definition childrenPotentiallyFulfilLimits (mem : Heap) (s : t (Q := Q))
    (cl : ClausePtr) (upperBoundNumSelLits : Z) : bool :=
  anyQueue (q_childrenPotentiallyFulfilLimits mem cl upperBoundNumSelLits) (_queues s).

Definition fulfilsAgeLimitOf (s : t (Q := Q)) (age w numeralWeight : Z)
    (derivedFromGoal : bool) (inference : Inference.t) : option bool :=
  match bestQueueHeuristics s inference with
  | Some i =>
      Some (anyFrom (q_fulfilsAgeLimitOf age w numeralWeight derivedFromGoal inference)
              i (_queues s))
  | None => None
  end.

Definition fulfilsWeightLimitOf (s : t (Q := Q)) (w numeralWeight : Z)
    (derivedFromGoal : bool) (age : Z) (inference : Inference.t) : option bool :=
  match bestQueueHeuristics s inference with
  | Some i =>
      Some (anyFrom (q_fulfilsWeightLimitOf w numeralWeight derivedFromGoal age inference)
              i (_queues s))
  | None => None
  end.

(** [n] calls of [popSelected], with the clauses they return. *)
Fixpoint popSelecteds (n : nat) (s : t (Q := Q)) : option (list ClausePtr * t) :=
  match n with
  | O => Some ([], s)
  | S n' =>
      match popSelected s with
      | Some (cl, s') =>
          match popSelecteds n' s' with
          | Some (out, s'') => Some (cl :: out, s'')
          | None => None
          end
      | None => None
      end
  end.

End Queries.

(** No queue is ahead of another by more than its own weight. *)
Definition spread_bounded (balances ratios : list Z) : Prop :=
  forall i j bi bj wi,
    balances !! i = Some bi -> balances !! j = Some bj -> ratios !! i = Some wi ->
    bi <= bj + wi.

(** No increment of a balance wraps around. *)
Definition no_wrap (balances ratios : list Z) : Prop :=
  forall i b w, balances !! i = Some b -> ratios !! i = Some w -> b + w < 2 ^ 32.

End PredicateSplitPassiveClauseContainer.

(** ** A reference queue

    An insertion-ordered queue with the interface of the inner queues; the
    examples run the predicate-split container over it. *)

Module FifoQueue.

Record t : Type := {
  items : list ClausePtr;
  simulated : nat;           (* clauses the simulation has taken *)
  ageLimit : option Z;
  weightLimit : option Z
}.

Definition new : t :=
  {| items := []; simulated := O; ageLimit := None; weightLimit := None |}.

Definition set_items (l : list ClausePtr) (q : t) : t :=
  {| items := l; simulated := simulated q; ageLimit := ageLimit q;
     weightLimit := weightLimit q |}.

Definition set_simulated (n : nat) (q : t) : t :=
  {| items := items q; simulated := n; ageLimit := ageLimit q;
     weightLimit := weightLimit q |}.

Definition without (cl : ClausePtr) (l : list ClausePtr) : list ClausePtr :=
  filter (fun c => c <> cl) l.

Definition popSelected (q : t) : option (ClausePtr * t) :=
  match items q with
  | [] => None
  | cl :: rest => Some (cl, set_items (without cl rest) q)
  end.

Definition within (limit : option Z) (v : Z) : bool :=
  match limit with
  | None => true
  | Some l => v <=? l
  end.

#[global] Instance fifo_queue : InnerQueue t := {|
  q_new := fun _ _ => new;
  q_add := fun cl q => set_items (items q ++ [cl]) q;
  q_remove := fun cl q => set_items (without cl (items q)) q;
  q_isEmpty := fun q => match items q with [] => true | _ => false end;
  q_popSelected := popSelected;
  q_simulationInit := set_simulated O;
  q_simulationHasNext := fun q => ((simulated q <? length (items q))%nat, q);
  q_simulationPopSelected := fun q => set_simulated (S (simulated q)) q;
  q_setLimitsToMax := fun q => (false, q);
  q_setLimitsFromSimulation := fun q => (false, q);
  q_onLimitsUpdated := fun q => q;
  q_fulfilsAgeLimit := fun mem cl q => within (ageLimit q) (Clause.age (mem cl));
  q_fulfilsWeightLimit := fun mem cl q => within (weightLimit q) (Clause.weight (mem cl));
  q_elements := fun q => list_to_set (items q)
|}.

#[global] Instance fifo_queue_queries : InnerQueueQueries t := {|
  q_sizeEstimate := fun q => Z.of_nat (length (items q));
  q_ageLimited := fun q => bool_decide (is_Some (ageLimit q));
  q_weightLimited := fun q => bool_decide (is_Some (weightLimit q));
  q_childrenPotentiallyFulfilLimits := fun mem cl _ q =>
    within (ageLimit q) (Clause.age (mem cl) + 1);
  q_fulfilsAgeLimitOf := fun age _ _ _ _ q => within (ageLimit q) age;
  q_fulfilsWeightLimitOf := fun w _ _ _ _ q => within (weightLimit q) w
|}.

End FifoQueue.

(** ** Example data *)

Module Examples.

Definition lit (w : Z) : Literal.t := {| Literal.weight := w |}.

Definition inf (th all : Z) : Inference.t :=
  {| Inference.th_ancestors := Float32.of_Z th;
     Inference.all_ancestors := Float32.of_Z all |}.

Definition clause (age weight : Z) (selected : nat) (lits : list Z)
    (th all : Z) : Clause.t :=
  {| Clause.age := age; Clause.weight := weight;
     Clause.getEffectiveWeight := weight;
     Clause.selected := selected; Clause.literals := lit <$> lits;
     Clause.inference := inf th all |}.

(** Clause 1: old and heavy.  Clause 2: at the age limit, weight 60 with a
    selected literal of weight 7.  Clause 3: at the age limit, weight 52
    with a selected literal of weight 7.  Clause 4: young.  Every other
    pointer: an input clause. *)
Definition heap : Heap := fun cl =>
  match cl with
  | 1%positive => clause 12 80 1 [30; 50] 5 10
  | 2%positive => clause 10 60 1 [7; 53] 1 10
  | 3%positive => clause 10 52 2 [7; 5; 40] 9 10
  | 4%positive => clause 3 90 1 [90] 3 4
  | _ => clause 0 1 1 [1] 0 1
  end.

Definition limits : Limits.t :=
  {| Limits.ageLimited := true; Limits.weightLimited := true;
     Limits.ageLimit := 10; Limits.weightLimit := 50 |}.

Definition active : ActiveClauseContainer.t :=
  {| ActiveClauseContainer._size := 4;
     ActiveClauseContainer.events :=
       [addedEvent 1; addedEvent 2; addedEvent 3; addedEvent 4]%positive;
     ActiveClauseContainer.checked := ∅;
     ActiveClauseContainer.toRemove := [];
     ActiveClauseContainer.discardedNonRedundantClauses := 0 |}.

(** The enumeration of the generating literal index: one result per
    selected literal. *)
Definition index : list ClausePtr := [3; 1; 2; 3; 4]%positive.

(** The options of the predicate-split example: ratios 4 : 1, cutoffs 0.5
    and 1.0. *)
Definition opt : Options.t :=
  {| Options.splitQueueRatios := "4,1"; Options.splitQueueCutoffs := "0.5,1.0";
     Options.splitQueueFadeIn := false |}.

(** [std::stoi] and [std::stof] on the strings of the examples. *)
Definition stoi (s : string) : option Z :=
  if String.eqb s "4" then Some 4
  else if String.eqb s "1" then Some 1
  else if String.eqb s "0" then Some 0
  else None.

Definition stof (s : string) : option Float32.float :=
  if String.eqb s "0.5" then Some Float32.half
  else if String.eqb s "1.0" then Some Float32.one
  else None.

(** The container the constructor makes from [opt], over reference queues. *)
Definition split0 : PredicateSplitPassiveClauseContainer.t (Q := FifoQueue.t) :=
  {| PredicateSplitPassiveClauseContainer._isOutermost := true;
     PredicateSplitPassiveClauseContainer._opt := opt;
     PredicateSplitPassiveClauseContainer._queues := [FifoQueue.new; FifoQueue.new];
     PredicateSplitPassiveClauseContainer._ratios := [1; 4];
     PredicateSplitPassiveClauseContainer._cutoffs := [Float32.half; Float32.one];
     PredicateSplitPassiveClauseContainer._balances := [0; 0];
     PredicateSplitPassiveClauseContainer._simulationBalances := [];
     PredicateSplitPassiveClauseContainer.events := [] |}.

(** The container after clause 3 (niceness 0.9) was added. *)
Definition split1 : PredicateSplitPassiveClauseContainer.t (Q := FifoQueue.t) :=
  {| PredicateSplitPassiveClauseContainer._isOutermost := true;
     PredicateSplitPassiveClauseContainer._opt := opt;
     PredicateSplitPassiveClauseContainer._queues :=
       [FifoQueue.new; FifoQueue.set_items [3%positive] FifoQueue.new];
     PredicateSplitPassiveClauseContainer._ratios := [1; 4];
     PredicateSplitPassiveClauseContainer._cutoffs := [Float32.half; Float32.one];
     PredicateSplitPassiveClauseContainer._balances := [0; 0];
     PredicateSplitPassiveClauseContainer._simulationBalances := [];
     PredicateSplitPassiveClauseContainer.events := [addedEvent 3%positive] |}.

(** The same options with fade-in, and the container made from them. *)
Definition optFadeIn : Options.t :=
  {| Options.splitQueueRatios := "4,1"; Options.splitQueueCutoffs := "0.5,1.0";
     Options.splitQueueFadeIn := true |}.

Definition splitFadeIn : PredicateSplitPassiveClauseContainer.t (Q := FifoQueue.t) :=
  {| PredicateSplitPassiveClauseContainer._isOutermost := false;
     PredicateSplitPassiveClauseContainer._opt := optFadeIn;
     PredicateSplitPassiveClauseContainer._queues := [FifoQueue.new; FifoQueue.new];
     PredicateSplitPassiveClauseContainer._ratios := [1; 4];
     PredicateSplitPassiveClauseContainer._cutoffs := [Float32.half; Float32.one];
     PredicateSplitPassiveClauseContainer._balances := [0; 0];
     PredicateSplitPassiveClauseContainer._simulationBalances := [];
     PredicateSplitPassiveClauseContainer.events := [] |}.

(** The container [split1] after [popSelected] took clause 3: queue 0 was
    picked by balance and charged its weight, the clause came from queue 1. *)
Definition split2 : PredicateSplitPassiveClauseContainer.t (Q := FifoQueue.t) :=
  {| PredicateSplitPassiveClauseContainer._isOutermost := true;
     PredicateSplitPassiveClauseContainer._opt := opt;
     PredicateSplitPassiveClauseContainer._queues :=
       [FifoQueue.new; FifoQueue.new];
     PredicateSplitPassiveClauseContainer._ratios := [1; 4];
     PredicateSplitPassiveClauseContainer._cutoffs := [Float32.half; Float32.one];
     PredicateSplitPassiveClauseContainer._balances := [1; 0];
     PredicateSplitPassiveClauseContainer._simulationBalances := [];
     PredicateSplitPassiveClauseContainer.events := [addedEvent 3%positive; selectedEvent 3%positive] |}.

(** The container [splitFadeIn], which is not an outermost one, after clause
    3 (niceness 0.9) was added, and after [popSelected] took it again. *)
Definition splitFadeIn1 : PredicateSplitPassiveClauseContainer.t (Q := FifoQueue.t) :=
  {| PredicateSplitPassiveClauseContainer._isOutermost := false;
     PredicateSplitPassiveClauseContainer._opt := optFadeIn;
     PredicateSplitPassiveClauseContainer._queues :=
       [FifoQueue.new; FifoQueue.set_items [3%positive] FifoQueue.new];
     PredicateSplitPassiveClauseContainer._ratios := [1; 4];
     PredicateSplitPassiveClauseContainer._cutoffs := [Float32.half; Float32.one];
     PredicateSplitPassiveClauseContainer._balances := [0; 0];
     PredicateSplitPassiveClauseContainer._simulationBalances := [];
     PredicateSplitPassiveClauseContainer.events := [] |}.

Definition splitFadeIn2 : PredicateSplitPassiveClauseContainer.t (Q := FifoQueue.t) :=
  {| PredicateSplitPassiveClauseContainer._isOutermost := false;
     PredicateSplitPassiveClauseContainer._opt := optFadeIn;
     PredicateSplitPassiveClauseContainer._queues :=
       [FifoQueue.new; FifoQueue.new];
     PredicateSplitPassiveClauseContainer._ratios := [1; 4];
     PredicateSplitPassiveClauseContainer._cutoffs := [Float32.half; Float32.one];
     PredicateSplitPassiveClauseContainer._balances := [1; 0];
     PredicateSplitPassiveClauseContainer._simulationBalances := [];
     PredicateSplitPassiveClauseContainer.events := [selectedEvent 3%positive] |}.





End Examples.

(** * Properties *)

(** ** Unprocessed: pop order *)

Section UnprocessedFacts.

Import UnprocessedClauseContainer.

Lemma pop_back_snoc (d : list ClausePtr) (x : ClausePtr) :
  pop_back (d ++ [x]) = Some (x, d).
Proof.
  induction d as [|y d IH]; [done|].
  simpl. rewrite IH. by destruct d.
Qed.

Lemma pop_back_Some (d r : list ClausePtr) (x : ClausePtr) :
  pop_back d = Some (x, r) -> d = r ++ [x].
Proof.
  revert r. induction d as [|y d IH]; intros r; [done|].
  simpl. destruct d as [|z d'].
  - intros [= <- <-]. done.
  - destruct (pop_back (z :: d')) as [[y' r']|] eqn:E; [|done].
    intros [= <- <-]. by rewrite (IH r' eq_refl).
Qed.

Lemma pop_back_nonempty (d : list ClausePtr) :
  d <> [] -> exists x r, pop_back d = Some (x, r).
Proof.
  intros Hd. destruct (exists_last Hd) as (r & x & ->).
  exists x, r. apply pop_back_snoc.
Qed.

Lemma most_recent_snoc (p : list Stamped) (t : nat) (c : ClausePtr) :
  Forall (fun e => (e.1 < t)%nat) p -> most_recent (p ++ [(t, c)]) = Some (t, c).
Proof.
  induction 1 as [|e p He _ IH]; [done|].
  simpl. rewrite IH. simpl.
  destruct (Nat.ltb_spec t e.1); [lia|done].
Qed.

Lemma drop_stamp_snoc (p : list Stamped) (t : nat) (c : ClausePtr) :
  Forall (fun e => (e.1 < t)%nat) p -> drop_stamp t (p ++ [(t, c)]) = p.
Proof.
  intros Hp. unfold drop_stamp. rewrite filter_app.
  rewrite (filter_cons_False _ (t, c)) by (simpl; intros Hn; by apply Hn).
  rewrite filter_nil, app_nil_r.
  induction Hp as [|e p He _ IH]; [done|].
  rewrite filter_cons_True by (simpl; lia). by rewrite IH.
Qed.

Lemma stamped_before_snoc (now : nat) (p : list Stamped) (c : ClausePtr) :
  stamped_before now p -> stamped_before (S now) (p ++ [(now, c)]).
Proof.
  intros [Hs Hb]. split.
  - induction Hs as [|e p Hs IH He]; simpl.
    + repeat constructor.
    + apply Forall_cons in Hb as [Hb1 Hb2]. constructor; [by apply IH|].
      apply Forall_app. split; [done|]. by repeat constructor.
  - apply Forall_app. split.
    + eapply Forall_impl; [exact Hb|]. intros; simpl in *; lia.
    + repeat constructor; simpl; lia.
Qed.

Lemma stamped_before_snoc_inv (now : nat) (p : list Stamped) (e : Stamped) :
  stamped_before now (p ++ [e]) ->
  stamped_before (S now) p /\ Forall (fun e' => (e'.1 < e.1)%nat) p.
Proof.
  intros [Hs Hb]. apply Forall_app in Hb as [Hb _].
  split; [split|].
  - clear Hb. induction p as [|a p IH]; [constructor|].
    simpl in Hs. apply StronglySorted_inv in Hs as [Hs Ha].
    constructor; [by apply IH|]. by apply Forall_app in Ha as [Ha _].
  - eapply Forall_impl; [exact Hb|]. intros; simpl in *; lia.
  - clear Hb. induction p as [|a p IH]; [constructor|].
    simpl in Hs. apply StronglySorted_inv in Hs as [Hs Ha].
    constructor; [|by apply IH].
    apply Forall_app in Ha as [_ Ha]. by apply (Forall_singleton (fun b : Stamped => (a.1 < b.1)%nat)) in Ha.
Qed.

(** The deque holds the pending clauses in the order of their stamps, so the
    runs of the container and of the stamped bag return the same clauses. *)
Lemma run_spec_run (ops : list Op) :
  forall (s s' : t) (now : nat) (pending : list Stamped) (out : list ClausePtr),
    _data s = pending.*2 ->
    stamped_before now pending ->
    run ops s = Some (out, s') ->
    exists pending',
      spec_run ops now pending = Some (out, pending') /\
      _data s' = pending'.*2 /\
      stamped_before (now + length ops) pending'.
Proof.
  induction ops as [|[c|] ops IH]; intros s s' now pending out Hd Hst Hrun; simpl in *.
  - injection Hrun as <- <-. exists pending. rewrite Nat.add_0_r. done.
  - destruct (IH (add c s) s' (S now) (pending ++ [(now, c)]) out) as (p' & H1 & H2 & H3).
    + simpl. unfold push_back. by rewrite fmap_app, Hd.
    + by apply stamped_before_snoc.
    + done.
    + exists p'. rewrite <- Nat.add_succ_comm. done.
  - unfold pop in Hrun.
    destruct (pop_back (_data s)) as [[c d]|] eqn:Hpop; [|done].
    apply pop_back_Some in Hpop. simpl in Hrun.
    destruct (run ops _) as [[out' s'']|] eqn:Hrun'; [|done].
    injection Hrun as <- <-.
    destruct (exists_last (l := pending)) as (p & [t c'] & ->).
    { intros ->. simpl in Hd. rewrite Hpop in Hd. by destruct d. }
    rewrite Hd, fmap_app in Hpop. simpl in Hpop.
    apply app_inj_tail in Hpop as [Hp <-].
    apply stamped_before_snoc_inv in Hst as [Hst Hlt]. simpl in Hlt.
    rewrite most_recent_snoc by done. rewrite drop_stamp_snoc by done.
    subst d.
    destruct (IH _ s'' (S now) p out' (eq_refl : _data {| _data := p.*2; events := _ |} = p.*2) Hst Hrun') as (p' & H1 & H2 & H3).
    exists p'. rewrite H1. rewrite <- Nat.add_succ_comm. done.
Qed.

(** C8. For every non-empty Unprocessed container, reached from the empty
    one by any calls of [add] and [pop], [pop] returns the most recently
    added clause that has not yet been popped -- the pending clause with the
    greatest time stamp in the run of the stamped bag -- takes it from the
    back of the deque and fires [selectedEvent] for it. *)
Theorem unprocessed_pop_returns_most_recent
    (ops : list Op) (out : list ClausePtr) (s : t) :
  run ops empty = Some (out, s) ->
  _data s <> [] ->
  exists (c : ClausePtr) (stamp : nat) (s' : t) (pending : list Stamped),
    spec_run ops 0 [] = Some (out, pending) /\
    most_recent pending = Some (stamp, c) /\
    pop s = Some (c, s') /\
    _data s = _data s' ++ [c] /\
    events s' = events s ++ [selectedEvent c].
Proof.
  intros Hrun Hne.
  destruct (run_spec_run ops empty s 0 [] out) as (pending & Hspec & Hd & Hst); try done.
  { split; constructor. }
  destruct (exists_last (l := pending)) as (p & [t c] & ->).
  { intros ->. by apply Hne. }
  apply stamped_before_snoc_inv in Hst as [_ Hlt]. simpl in Hlt.
  rewrite fmap_app in Hd. simpl in Hd.
  exists c, t, {| _data := p.*2; events := events s ++ [selectedEvent c] |}, (p ++ [(t, c)]).
  split; [done|]. split; [by apply most_recent_snoc|].
  unfold pop. rewrite Hd, pop_back_snoc. done.
Qed.

(** An instance: after [add 1; add 2; pop; add 3], [pop] returns clause 3. *)
Lemma unprocessed_pop_returns_most_recent_witness :
  exists (c : ClausePtr) (stamp : nat) (s' : t) (pending : list Stamped),
    spec_run [OpAdd 1; OpAdd 2; OpPop; OpAdd 3]%positive 0 [] = Some ([2%positive], pending) /\
    most_recent pending = Some (stamp, c) /\
    pop {| _data := [1; 3]%positive;
           events := [addedEvent 1; addedEvent 2; selectedEvent 2; addedEvent 3]%positive |}
      = Some (c, s') /\
    [1; 3]%positive = _data s' ++ [c] /\
    events s' = [addedEvent 1; addedEvent 2; selectedEvent 2; addedEvent 3]%positive
                  ++ [selectedEvent c].
Proof.
  apply (unprocessed_pop_returns_most_recent
           [OpAdd 1; OpAdd 2; OpPop; OpAdd 3]%positive [2%positive]
           {| _data := [1; 3]%positive;
              events := [addedEvent 1; addedEvent 2; selectedEvent 2; addedEvent 3]%positive |}).
  - reflexivity.
  - discriminate.
Defined.

End UnprocessedFacts.

(** ** Active: the discard pass *)

Section ActiveFacts.

Import MachInt ActiveClauseContainer.

Lemma wrap_int_id (z : Z) : in_int z -> wrap_int z = z.
Proof.
  unfold in_int, wrap_int, INT_MIN, INT_MAX. intros Hz.
  rewrite Z.mod_small; lia.
Qed.

Lemma maxSelWeightLoop_fold (lits : list Literal.t) (n : nat) :
  forall (i : nat) (acc : Z),
    (i + n <= length lits)%nat ->
    maxSelWeightLoop lits n i acc
    = Some (foldl (fun m l => Z.max (Literal.weight l) m) acc (take n (drop i lits))).
Proof.
  induction n as [|n IH]; intros i acc Hlen; simpl.
  - done.
  - destruct (lits !! i) as [l|] eqn:Hl.
    + rewrite IH by lia. f_equal.
      rewrite (drop_S lits l i Hl). done.
    + apply lookup_ge_None in Hl. lia.
Qed.

Lemma foldl_max_foldr (ws : list Literal.t) (acc : Z) :
  0 <= acc ->
  foldl (fun m l => Z.max (Literal.weight l) m) acc ws
  = Z.max acc (foldr Z.max 0 (Literal.weight <$> ws)).
Proof.
  revert acc. induction ws as [|w ws IH]; intros acc Hacc; simpl.
  - lia.
  - rewrite IH by lia. change (list_fmap _ _ Literal.weight ws) with (Literal.weight <$> ws).
    generalize (foldr Z.max 0 (Literal.weight <$> ws)). intros; lia.
Qed.

Lemma maxSelectedLiteralWeight_range (c : Clause.t) :
  clause_ok c -> 0 <= maxSelectedLiteralWeight c <= INT_MAX.
Proof.
  intros (_ & Hl & _). unfold maxSelectedLiteralWeight.
  assert (Forall (fun l => 0 <= Literal.weight l <= INT_MAX)
            (take (Clause.selected c) (Clause.literals c))) as H
    by (by apply Forall_take).
  induction H as [|l ls Hw _ IH]; simpl.
  - unfold INT_MAX. lia.
  - change (list_fmap _ _ Literal.weight ls) with (Literal.weight <$> ls).
    revert IH. generalize (foldr Z.max 0 (Literal.weight <$> ls)). intros; lia.
Qed.

Lemma maxSelWeightLoop_spec (c : Clause.t) :
  clause_ok c ->
  maxSelWeightLoop (Clause.literals c) (Clause.selected c) 0 0
  = Some (maxSelectedLiteralWeight c).
Proof.
  intros Hok. pose proof (maxSelectedLiteralWeight_range c Hok) as Hr.
  destruct Hok as (Hsel & _ & _).
  rewrite maxSelWeightLoop_fold by (simpl; lia).
  rewrite drop_0, foldl_max_foldr by lia.
  f_equal. unfold maxSelectedLiteralWeight in *. lia.
Qed.

Lemma discardb_spec (c : Clause.t) (ageLimit weightLimit : Z) :
  discardb c ageLimit weightLimit = true <-> discardPredicate c ageLimit weightLimit.
Proof.
  unfold discardb, discardPredicate.
  rewrite orb_true_iff, !andb_true_iff, !Z.ltb_lt, Z.eqb_eq, Z.leb_le. lia.
Qed.

Lemma discardb_young (c : Clause.t) (ageLimit weightLimit : Z) :
  Clause.age c < ageLimit -> discardb c ageLimit weightLimit = false.
Proof.
  intros Hy. apply not_true_is_false. rewrite discardb_spec.
  unfold discardPredicate. lia.
Qed.

(** For a clause that is examined, [shouldRemove] is the discard predicate. *)
Lemma shouldRemove_spec (c : Clause.t) (ageLimit weightLimit : Z) :
  clause_ok c -> ageLimit <= Clause.age c ->
  shouldRemove c ageLimit weightLimit = Some (discardb c ageLimit weightLimit).
Proof.
  intros Hok Hage. unfold shouldRemove, discardb.
  destruct (Z.ltb_spec ageLimit (Clause.age c)) as [Hlt|Hle]; simpl.
  - f_equal. destruct (Z.eqb_spec (Clause.age c) ageLimit); [lia|].
    simpl. by rewrite orb_false_r.
  - rewrite (maxSelWeightLoop_spec c Hok).
    pose proof (maxSelectedLiteralWeight_range c Hok) as Hr.
    destruct Hok as (_ & _ & Hw).
    rewrite (wrap_int_id (maxSelectedLiteralWeight c)) by (unfold in_int, INT_MIN, INT_MAX in *; lia).
    rewrite wrap_int_id by (unfold in_int, INT_MIN, INT_MAX in *; lia).
    destruct (Z.eqb_spec (Clause.age c) ageLimit); [|lia]. done.
Qed.

Lemma elem_of_first_occurrences (l : list ClausePtr) :
  forall (seen : gset ClausePtr) (x : ClausePtr),
    x ∈ first_occurrences seen l <-> x ∈ l /\ x ∉ seen.
Proof.
  induction l as [|y l IH]; intros seen x; simpl.
  - set_solver.
  - destruct (decide (y ∈ seen)).
    + rewrite IH. set_solver.
    + rewrite elem_of_cons, IH. destruct (decide (x = y)); set_solver.
Qed.

Lemma NoDup_first_occurrences (l : list ClausePtr) :
  forall seen : gset ClausePtr, NoDup (first_occurrences seen l).
Proof.
  induction l as [|y l IH]; intros seen; simpl.
  - constructor.
  - destruct (decide (y ∈ seen)); [apply IH|].
    constructor; [|apply IH].
    rewrite elem_of_first_occurrences. set_solver.
Qed.

(** A clause that is not to be discarded may be counted as seen or not. *)
Lemma filter_first_occurrences_seen (D : ClausePtr -> bool) (x : ClausePtr)
    (l : list ClausePtr) :
  D x = false ->
  forall seen : gset ClausePtr,
    filter (fun cl => D cl = true) (first_occurrences ({[x]} ∪ seen) l)
    = filter (fun cl => D cl = true) (first_occurrences seen l).
Proof.
  intros HD. induction l as [|y l IH]; intros seen; simpl; [done|].
  destruct (decide (y ∈ seen)) as [Hy|Hy].
  - rewrite decide_True by set_solver. apply IH.
  - destruct (decide (y = x)) as [->|Hne].
    + rewrite decide_True by set_solver.
      rewrite filter_cons_False; [done|]. by rewrite HD.
    + rewrite decide_False by set_solver.
      replace ({[y]} ∪ ({[x]} ∪ seen)) with ({[x]} ∪ ({[y]} ∪ seen)) by set_solver.
      rewrite !filter_cons, IH. done.
Qed.

(** What the walk does to a state: it touches only the two static objects,
    and pushes the clauses to discard in the order in which it meets them. *)
Lemma walk_spec (mem : Heap) (ageLimit weightLimit : Z) (rit : list ClausePtr) :
  (forall cl, cl ∈ rit -> clause_ok (mem cl)) ->
  forall s : t,
  exists s' : t,
    walk mem ageLimit weightLimit rit s = Some s' /\
    _size s' = _size s /\
    events s' = events s /\
    discardedNonRedundantClauses s' = discardedNonRedundantClauses s /\
    toRemove s'
    = reverse (filter (fun cl => discardb (mem cl) ageLimit weightLimit = true)
                 (first_occurrences (checked s) rit))
      ++ toRemove s.
Proof.
  induction rit as [|cl rit IH]; intros Hok s; simpl.
  - exists s. done.
  - assert (forall cl', cl' ∈ rit -> clause_ok (mem cl')) as Hok' by set_solver.
    unfold visit.
    destruct (Z.ltb_spec (Clause.age (mem cl)) ageLimit) as [Hy|Ho]; simpl.
    { destruct (IH Hok' s) as (s' & Hw & H1 & H2 & H3 & H4).
      exists s'. repeat split; try done. rewrite H4.
      destruct (decide (cl ∈ checked s)); [done|].
      pose proof (discardb_young (mem cl) ageLimit weightLimit Hy) as Hd.
      rewrite filter_cons_False by (by rewrite Hd).
      by rewrite (filter_first_occurrences_seen
                    (fun cl => discardb (mem cl) ageLimit weightLimit) cl rit Hd). }
    destruct (decide (cl ∈ checked s)) as [Hin|Hnin].
    { rewrite bool_decide_eq_true_2 by done. apply IH, Hok'. }
    rewrite bool_decide_eq_false_2 by done.
    rewrite shouldRemove_spec by (try lia; apply Hok; set_solver).
    destruct (discardb (mem cl) ageLimit weightLimit) eqn:Hd.
    + destruct (IH Hok' (set_toRemove (cons cl) (set_checked (fun ch => {[cl]} ∪ ch) s)))
        as (s' & Hw & H1 & H2 & H3 & H4).
      exists s'. repeat split; try done. rewrite H4. simpl.
      rewrite filter_cons_True by done.
      rewrite reverse_cons, <- app_assoc. done.
    + destruct (IH Hok' (set_checked (fun ch => {[cl]} ∪ ch) s))
        as (s' & Hw & H1 & H2 & H3 & H4).
      exists s'. repeat split; try done. rewrite H4. simpl.
      rewrite filter_cons_False; [done|]. by rewrite Hd.
Qed.

Lemma removeLoop_spec (stack : list ClausePtr) :
  forall s : t,
    let s' := removeLoop stack s in
    events s' = events s ++ (removedEvent <$> stack) /\
    _size s' = _size s - Z.of_nat (length stack) /\
    discardedNonRedundantClauses s'
    = discardedNonRedundantClauses s + Z.of_nat (length stack) /\
    (toRemove s = stack -> toRemove s' = []).
Proof.
  induction stack as [|cl stack IH]; intros s; simpl.
  - rewrite app_nil_r. repeat split; try lia; done.
  - destruct (IH (remove cl (count_discarded (set_toRemove (fun _ => stack) s))))
      as (H1 & H2 & H3 & H4).
    simpl in *. rewrite H1, H2, H3, <- app_assoc.
    repeat split; try lia; try done. intros _. by apply H4.
Qed.

Lemma onLimitsUpdated_tightened (mem : Heap) (rit : list ClausePtr)
    (limits : Limits.t) (s : t) :
  Limits.ageLimited limits = true ->
  Limits.weightLimited limits = true ->
  (forall cl, cl ∈ rit -> clause_ok (mem cl)) ->
  let batch := collected mem (Limits.ageLimit limits) (Limits.weightLimit limits) rit in
  exists s1 : t,
    walk mem (Limits.ageLimit limits) (Limits.weightLimit limits) rit (reset s) = Some s1 /\
    toRemove s1 = reverse batch /\
    onLimitsUpdated mem (Some rit) limits LIMITS_TIGHTENED s
    = Some (removeLoop (reverse batch) s1).
Proof.
  intros Ha Hw Hok batch.
  destruct (walk_spec mem (Limits.ageLimit limits) (Limits.weightLimit limits) rit Hok (reset s))
    as (s1 & Hwalk & _ & _ & _ & Hstack).
  simpl in Hstack. rewrite app_nil_r in Hstack.
  exists s1. split; [done|]. split; [done|].
  unfold onLimitsUpdated. rewrite Ha, Hw. simpl.
  rewrite Hwalk. by rewrite Hstack.
Qed.

(** Without a pass -- the limits were loosened, there is no generating
    literal index, or one of the two limits is not in force -- nothing is
    examined and the container is left as it is. *)
Lemma onLimitsUpdated_no_pass (mem : Heap) (gis : option (list ClausePtr))
    (limits : Limits.t) (change : LimitsChangeType) (s : t) :
  change = LIMITS_LOOSENED \/ gis = None \/
  Limits.ageLimited limits = false \/ Limits.weightLimited limits = false ->
  onLimitsUpdated mem gis limits change s = Some s.
Proof.
  unfold onLimitsUpdated. intros [->|[->|[Hl|Hl]]]; [done|by destruct change| |];
    destruct change, gis; try done; rewrite Hl; simpl; [done|].
  by rewrite orb_true_r.
Qed.

(** C1. On a TIGHTENED update with both limits in force, the pass removes
    exactly the clauses of the index that satisfy the discard predicate: the
    [removedEvent]s it fires are for clauses of the index, and a clause [c]
    of the index with [age > ageLimit] is removed iff its effective weight
    exceeds [weightLimit], one with [age = ageLimit] iff its weight minus
    the greatest weight among its selected literals is at least
    [weightLimit], and one with [age < ageLimit] is kept. *)
Theorem active_discard_removes_by_predicate (mem : Heap) (rit : list ClausePtr)
    (limits : Limits.t) (s : t) :
  Limits.ageLimited limits = true ->
  Limits.weightLimited limits = true ->
  (forall cl, cl ∈ rit -> clause_ok (mem cl)) ->
  exists (s' : t) (removedNow : list ClausePtr),
    onLimitsUpdated mem (Some rit) limits LIMITS_TIGHTENED s = Some s' /\
    events s' = events s ++ (removedEvent <$> removedNow) /\
    (forall cl, cl ∈ removedNow -> cl ∈ rit) /\
    forall cl, cl ∈ rit ->
      let c := mem cl in
      (Clause.age c > Limits.ageLimit limits ->
         (cl ∈ removedNow <-> Clause.getEffectiveWeight c > Limits.weightLimit limits)) /\
      (Clause.age c = Limits.ageLimit limits ->
         (cl ∈ removedNow <->
          Clause.weight c - maxSelectedLiteralWeight c >= Limits.weightLimit limits)) /\
      (Clause.age c < Limits.ageLimit limits -> cl ∉ removedNow).
Proof.
  intros Ha Hw Hok.
  destruct (onLimitsUpdated_tightened mem rit limits s Ha Hw Hok) as (s1 & Hwalk & _ & Hrun).
  destruct (walk_spec mem (Limits.ageLimit limits) (Limits.weightLimit limits) rit Hok (reset s))
    as (s1' & Hwalk' & _ & Hev & _).
  rewrite Hwalk in Hwalk'. injection Hwalk' as <-.
  set (batch := collected mem (Limits.ageLimit limits) (Limits.weightLimit limits) rit) in *.
  exists (removeLoop (reverse batch) s1), (reverse batch).
  split; [done|].
  destruct (removeLoop_spec (reverse batch) s1) as (Hevents & _).
  split; [by rewrite Hevents, Hev|].
  assert (forall cl, cl ∈ reverse batch <->
            cl ∈ rit /\ discardPredicate (mem cl) (Limits.ageLimit limits) (Limits.weightLimit limits))
    as Hin.
  { intros cl. rewrite elem_of_reverse. unfold batch, collected.
    rewrite list_elem_of_filter, elem_of_first_occurrences, discardb_spec. set_solver. }
  split; [intros cl Hcl; by apply Hin in Hcl as [? _]|].
  intros cl Hcl c. rewrite !Hin. unfold discardPredicate. fold c.
  repeat split; try tauto; try lia.
Qed.

Lemma examples_heap_ok (cl : ClausePtr) : clause_ok (Examples.heap cl).
Proof.
  unfold Examples.heap, clause_ok, INT_MAX.
  repeat (destruct cl as [cl|cl|]; simpl;
          try (split; [lia|split; [repeat constructor; simpl; lia|lia]])).
Qed.

(** An instance: the example index under the limits (10, 50). *)
Lemma active_discard_removes_by_predicate_witness :
  exists (s' : t) (removedNow : list ClausePtr),
    onLimitsUpdated Examples.heap (Some Examples.index) Examples.limits
      LIMITS_TIGHTENED Examples.active = Some s' /\
    events s' = events Examples.active ++ (removedEvent <$> removedNow) /\
    (forall cl, cl ∈ removedNow -> cl ∈ Examples.index) /\
    forall cl, cl ∈ Examples.index ->
      let c := Examples.heap cl in
      (Clause.age c > Limits.ageLimit Examples.limits ->
         (cl ∈ removedNow <->
          Clause.getEffectiveWeight c > Limits.weightLimit Examples.limits)) /\
      (Clause.age c = Limits.ageLimit Examples.limits ->
         (cl ∈ removedNow <->
          Clause.weight c - maxSelectedLiteralWeight c
          >= Limits.weightLimit Examples.limits)) /\
      (Clause.age c < Limits.ageLimit Examples.limits -> cl ∉ removedNow).
Proof.
  apply (active_discard_removes_by_predicate Examples.heap Examples.index
           Examples.limits Examples.active).
  - reflexivity.
  - reflexivity.
  - intros cl _. apply examples_heap_ok.
Defined.

(** On the example the pass removes clause 2 and then clause 1. *)
Example active_discard_example :
  events <$> onLimitsUpdated Examples.heap (Some Examples.index) Examples.limits
               LIMITS_TIGHTENED Examples.active
  = Some (events Examples.active ++ [removedEvent 2; removedEvent 1]%positive).
Proof. vm_compute. reflexivity. Qed.

(** C7. During one TIGHTENED pass the removals are batched.  The walk over
    the index only collects: after any part of the walk the container's
    size, its events and the discard counter are what they were, and the
    stack holds the clauses to discard met so far, each once.  Only after
    the whole walk are the [removedEvent]s fired, in the reverse of the order
    in which the walk collected the clauses. *)
Theorem active_discard_batched (mem : Heap) (rit : list ClausePtr)
    (limits : Limits.t) (s : t) :
  Limits.ageLimited limits = true ->
  Limits.weightLimited limits = true ->
  (forall cl, cl ∈ rit -> clause_ok (mem cl)) ->
  let ageLimit := Limits.ageLimit limits in
  let weightLimit := Limits.weightLimit limits in
  let batch := collected mem ageLimit weightLimit rit in
  (forall before after : list ClausePtr, rit = before ++ after ->
     exists sp : t,
       walk mem ageLimit weightLimit before (reset s) = Some sp /\
       _size sp = _size s /\
       events sp = events s /\
       discardedNonRedundantClauses sp = discardedNonRedundantClauses s /\
       NoDup (toRemove sp) /\
       toRemove sp = reverse (collected mem ageLimit weightLimit before)) /\
  exists s' : t,
    onLimitsUpdated mem (Some rit) limits LIMITS_TIGHTENED s = Some s' /\
    events s' = events s ++ (removedEvent <$> reverse batch) /\
    _size s' = _size s - Z.of_nat (length batch) /\
    discardedNonRedundantClauses s'
    = discardedNonRedundantClauses s + Z.of_nat (length batch) /\
    toRemove s' = [].
Proof.
  intros Ha Hw Hok ageLimit weightLimit batch. split.
  - intros before after ->.
    destruct (walk_spec mem ageLimit weightLimit before) with (s := reset s)
      as (sp & Hwalk & H1 & H2 & H3 & H4).
    { intros cl Hcl. apply Hok. set_solver. }
    simpl in *. rewrite app_nil_r in H4.
    exists sp. repeat split; try done.
    rewrite H4, reverse_Permutation. apply NoDup_filter, NoDup_first_occurrences.
  - destruct (onLimitsUpdated_tightened mem rit limits s Ha Hw Hok) as (s1 & Hwalk & Hstack & Hrun).
    destruct (walk_spec mem ageLimit weightLimit rit Hok (reset s))
      as (s1' & Hwalk' & H1 & H2 & H3 & _).
    unfold ageLimit, weightLimit in Hwalk'. rewrite Hwalk in Hwalk'. injection Hwalk' as <-.
    simpl in *.
    destruct (removeLoop_spec (reverse batch) s1) as (E1 & E2 & E3 & E4).
    exists (removeLoop (reverse batch) s1).
    rewrite length_reverse in *.
    repeat split; try done; try congruence.
    by apply E4.
Qed.

(** An instance: the example index under the limits (10, 50). *)
Lemma active_discard_batched_witness :
  let ageLimit := Limits.ageLimit Examples.limits in
  let weightLimit := Limits.weightLimit Examples.limits in
  let batch := collected Examples.heap ageLimit weightLimit Examples.index in
  (forall before after : list ClausePtr, Examples.index = before ++ after ->
     exists sp : t,
       walk Examples.heap ageLimit weightLimit before (reset Examples.active) = Some sp /\
       _size sp = _size Examples.active /\
       events sp = events Examples.active /\
       discardedNonRedundantClauses sp = discardedNonRedundantClauses Examples.active /\
       NoDup (toRemove sp) /\
       toRemove sp = reverse (collected Examples.heap ageLimit weightLimit before)) /\
  exists s' : t,
    onLimitsUpdated Examples.heap (Some Examples.index) Examples.limits
      LIMITS_TIGHTENED Examples.active = Some s' /\
    events s' = events Examples.active ++ (removedEvent <$> reverse batch) /\
    _size s' = _size Examples.active - Z.of_nat (length batch) /\
    discardedNonRedundantClauses s'
    = discardedNonRedundantClauses Examples.active + Z.of_nat (length batch) /\
    toRemove s' = [].
Proof.
  apply (active_discard_batched Examples.heap Examples.index Examples.limits
           Examples.active).
  - reflexivity.
  - reflexivity.
  - intros cl _. apply examples_heap_ok.
Defined.

End ActiveFacts.

(** ** Order facts on binary32 *)

Section Float32Facts.

Import Float32.

Ltac compare_cases :=
  repeat match goal with
  | H : context [Pos.compare_cont Eq ?a ?b] |- _ =>
      change (Pos.compare_cont Eq a b) with (Pos.compare a b) in H
  | |- context [Pos.compare_cont Eq ?a ?b] =>
      change (Pos.compare_cont Eq a b) with (Pos.compare a b)
  end;
  repeat match goal with
  | H : context [Z.compare ?a ?b] |- _ => destruct (Z.compare_spec a b); simpl in H
  | H : context [Pos.compare ?a ?b] |- _ => destruct (Pos.compare_spec a b); simpl in H
  | |- context [Z.compare ?a ?b] => destruct (Z.compare_spec a b); simpl
  | |- context [Pos.compare ?a ?b] => destruct (Pos.compare_spec a b); simpl
  end;
  try done; try lia.

Lemma SFcompare_antisym (x y : float) :
  SFcompare y x = CompOpp <$> SFcompare x y.
Proof.
  destruct x as [[]|[]| |[] m e], y as [[]|[]| |[] m' e']; simpl; try done;
    compare_cases.
Qed.

Lemma leb_trans (x y z : float) :
  leb x y = true -> leb y z = true -> leb x z = true.
Proof.
  unfold leb, SFleb.
  destruct x as [[]|[]| |[] m1 e1], y as [[]|[]| |[] m2 e2], z as [[]|[]| |[] m3 e3];
    simpl; try done; intros H1 H2; compare_cases.
Qed.

Lemma leb_not_nan_l (x y : float) : leb x y = true -> is_nan x = false.
Proof. by destruct x as [| | |]. Qed.

Lemma leb_not_nan_r (x y : float) : leb x y = true -> is_nan y = false.
Proof. destruct x as [| | |], y as [| | |]; done. Qed.

(** For numbers, [c' <= c] is the failure of [c < c']. *)
Lemma leb_ltb_false (c c' : float) : leb c' c = true -> ltb c c' = false.
Proof.
  unfold leb, ltb, SFleb, SFltb. rewrite (SFcompare_antisym c' c).
  destruct (SFcompare c' c) as [[]|]; simpl; done.
Qed.

Lemma ltb_false_leb (c c' : float) :
  is_nan c = false -> is_nan c' = false -> ltb c c' = false -> leb c' c = true.
Proof.
  unfold leb, ltb, SFleb, SFltb. intros Hc Hc'. rewrite (SFcompare_antisym c' c).
  destruct (SFcompare c' c) as [[]|] eqn:E; simpl; try done.
  by destruct c as [| | |], c' as [| | |].
Qed.

(** Equality with a finite number is equality of representations. *)
Lemma eqb_finite (x : float) (s : bool) (m : positive) (e : Z) :
  eqb x (S754_finite s m e) = true -> x = S754_finite s m e.
Proof.
  unfold eqb, SFeqb.
  destruct x as [[]|[]| |[] m' e'], s; simpl; try done; intros H; compare_cases;
    by subst.
Qed.

End Float32Facts.

(** ** Predicate split: niceness *)

Section NicenessFacts.

Import Float32 PredicateSplitPassiveClauseContainer.

(** C4. With the fade-in option enabled, the niceness that
    [bestQueueHeuristics] dispatches on is 0.0 if [th_ancestors <= 2]; 0.5
    if [th_ancestors == 3] and [all_ancestors <= 6]; 0.8 if
    [th_ancestors == 4] and [all_ancestors <= 5]; and the raw ratio
    [th_ancestors / all_ancestors] in every other case. *)
Theorem fade_in_niceness (opt : Options.t) (inf : Inference.t) :
  Options.splitQueueFadeIn opt = true ->
  let th := Inference.th_ancestors inf in
  let all := Inference.all_ancestors inf in
  (leb th two = true -> niceness opt inf = zero) /\
  (eqb th three = true -> leb all six = true -> niceness opt inf = half) /\
  (eqb th four = true -> leb all five = true -> niceness opt inf = lit_0_8) /\
  (leb th two = false ->
   eqb th three && leb all six = false ->
   eqb th four && leb all five = false ->
   niceness opt inf = div th all).
Proof.
  intros Hfade th all. unfold niceness. rewrite Hfade. fold th all.
  repeat split.
  - by intros ->.
  - intros H3 H6. apply eqb_finite in H3 as H3'. rewrite H3', H6. reflexivity.
  - intros H4 H5. apply eqb_finite in H4 as H4'. rewrite H4', H5. reflexivity.
  - by intros -> -> ->.
Qed.

(** An instance: three theory ancestors out of six. *)
Lemma fade_in_niceness_witness :
  let opt := {| Options.splitQueueRatios := "4,1"; Options.splitQueueCutoffs := "0.5,1.0";
                Options.splitQueueFadeIn := true |} in
  let th := Inference.th_ancestors (Examples.inf 3 6) in
  let all := Inference.all_ancestors (Examples.inf 3 6) in
  (leb th two = true -> niceness opt (Examples.inf 3 6) = zero) /\
  (eqb th three = true -> leb all six = true -> niceness opt (Examples.inf 3 6) = half) /\
  (eqb th four = true -> leb all five = true -> niceness opt (Examples.inf 3 6) = lit_0_8) /\
  (leb th two = false ->
   eqb th three && leb all six = false ->
   eqb th four && leb all five = false ->
   niceness opt (Examples.inf 3 6) = div th all).
Proof.
  apply (fade_in_niceness
           {| Options.splitQueueRatios := "4,1"; Options.splitQueueCutoffs := "0.5,1.0";
              Options.splitQueueFadeIn := true |} (Examples.inf 3 6)).
  reflexivity.
Defined.

(** Without fade-in the niceness is the raw ratio. *)
Lemma niceness_no_fade_in (opt : Options.t) (inf : Inference.t) :
  Options.splitQueueFadeIn opt = false ->
  niceness opt inf = div (Inference.th_ancestors inf) (Inference.all_ancestors inf).
Proof. unfold niceness. by intros ->. Qed.

Example niceness_3_of_6 :
  niceness {| Options.splitQueueRatios := ""; Options.splitQueueCutoffs := "";
              Options.splitQueueFadeIn := true |} (Examples.inf 3 6) = half.
Proof. reflexivity. Qed.

Example niceness_5_of_10 :
  niceness {| Options.splitQueueRatios := ""; Options.splitQueueCutoffs := "";
              Options.splitQueueFadeIn := true |} (Examples.inf 5 10) = half.
Proof. vm_compute. reflexivity. Qed.

End NicenessFacts.

(** ** Predicate split: the constructor *)

Section ConstructorFacts.

Import Float32 MachInt PredicateSplitPassiveClauseContainer.

Context {Q : Type} `{InnerQueue Q}.

Lemma in_unit_interval_dec (c : float) :
  negb (leb zero c && leb c one) = false <-> in_unit_interval c.
Proof.
  unfold in_unit_interval. rewrite negb_false_iff, andb_true_iff. done.
Qed.

Lemma checkEntries_Some (rs : list Z) :
  forall (cs : list float) (prev : option float) (msg : string),
    checkEntries rs cs prev = Some msg -> entryViolation rs cs prev.
Proof.
  induction rs as [|v rs IH]; intros cs prev msg; simpl; [done|].
  destruct cs as [|cutoff cs]; [done|].
  destruct (Z.leb_spec v 0) as [Hv|Hv].
  { intros _. left. exists v. split; [left|done]. }
  destruct (negb (leb zero cutoff && leb cutoff one)) eqn:Hr.
  { intros _. right. left. exists cutoff. split; [left|].
    rewrite <- in_unit_interval_dec. by rewrite Hr. }
  destruct prev as [p|].
  - destruct (leb cutoff p) eqn:Hp.
    { intros _. right. right. exists O, p, cutoff. simpl.
      repeat split; try done. by apply leb_ltb_false. }
    intros Hrec. destruct (IH cs (Some cutoff) msg Hrec)
      as [(r & Hin & Hle)|[(c & Hin & Hout)|(i & c & c' & H1 & H2 & H3)]].
    + left. exists r. split; [by right|done].
    + right. left. exists c. split; [by right|done].
    + right. right. exists (S i), c, c'. done.
  - intros Hrec. destruct (IH cs (Some cutoff) msg Hrec)
      as [(r & Hin & Hle)|[(c & Hin & Hout)|(i & c & c' & H1 & H2 & H3)]].
    + left. exists r. split; [by right|done].
    + right. left. exists c. split; [by right|done].
    + right. right. exists i, c, c'. done.
Qed.

Lemma checkEntries_violation (rs : list Z) :
  forall (cs : list float) (prev : option float),
    length rs = length cs ->
    (forall p, prev = Some p -> in_unit_interval p) ->
    entryViolation rs cs prev ->
    exists msg, checkEntries rs cs prev = Some msg.
Proof.
  induction rs as [|v rs IH]; intros cs prev Hlen Hprev Hviol.
  { destruct cs; [|done].
    destruct Hviol as [(r & Hin & _)|[(c & Hin & _)|(i & c & c' & H1 & H2 & _)]].
    - by apply elem_of_nil in Hin.
    - by apply elem_of_nil in Hin.
    - destruct prev; simpl in *; [by destruct i|done]. }
  destruct cs as [|cutoff cs]; [done|]. simpl in *.
  destruct (Z.leb_spec v 0) as [Hv|Hv]; [eauto|].
  destruct (negb (leb zero cutoff && leb cutoff one)) eqn:Hr; [eauto|].
  apply in_unit_interval_dec in Hr.
  assert (forall p, Some cutoff = Some p -> in_unit_interval p) as Hprev'
    by (by intros p [= <-]).
  assert (length rs = length cs) as Hlen' by lia.
  destruct prev as [p|].
  - destruct (leb cutoff p) eqn:Hp; [eauto|].
    apply (IH cs (Some cutoff) Hlen' Hprev').
    destruct Hviol as [(r & Hin & Hle)|[(c & Hin & Hout)|(i & c & c' & H1 & H2 & H3)]].
    + left. exists r. apply elem_of_cons in Hin as [->|Hin]; [lia|done].
    + right. left. exists c. apply elem_of_cons in Hin as [->|Hin]; [done|done].
    + right. right. destruct i as [|i]; simpl in *.
      * injection H1 as <-. injection H2 as <-.
        destruct (Hprev p eq_refl) as [Hp0 _]. destruct Hr as [Hc0 _].
        rewrite (ltb_false_leb p cutoff) in Hp; try done.
        -- by apply leb_not_nan_r in Hp0.
        -- by apply leb_not_nan_r in Hc0.
      * exists i, c, c'. done.
  - apply (IH cs (Some cutoff) Hlen' Hprev').
    destruct Hviol as [(r & Hin & Hle)|[(c & Hin & Hout)|(i & c & c' & H1 & H2 & H3)]].
    + left. exists r. apply elem_of_cons in Hin as [->|Hin]; [lia|done].
    + right. left. exists c. apply elem_of_cons in Hin as [->|Hin]; [done|done].
    + right. right. exists i, c, c'. done.
Qed.

(** When the entries pass the loop, they obey the rules. *)
Lemma checkEntries_None (rs : list Z) (cs : list float) :
  length rs = length cs ->
  checkEntries rs cs None = None ->
  Forall (fun r => 0 < r) rs /\ Forall in_unit_interval cs.
Proof.
  intros Hlen Hcheck. split.
  - apply Forall_forall. intros r Hr.
    destruct (Z.lt_ge_cases 0 r) as [|Hle]; [done|].
    destruct (checkEntries_violation rs cs None Hlen) as [msg Hmsg]; [done| |congruence].
    left. exists r. split; [done|lia].
  - apply Forall_forall. intros c Hc.
    destruct (leb zero c) eqn:H0; destruct (leb c one) eqn:H1; try done;
      (destruct (checkEntries_violation rs cs None Hlen) as [msg Hmsg];
       [done| |congruence]);
      right; left; exists c; (split; [done|]); unfold in_unit_interval; intros [? ?]; congruence.
Qed.

Lemma construct_config_error (isOutermost : bool) (opt : Options.t)
    (rs : list Z) (cs : list float) :
  (exists msg, construct isOutermost opt rs cs = Some (inl (UserError msg)))
  <-> configViolation rs cs.
Proof.
  unfold construct, configViolation. split.
  - intros [msg Hc].
    destruct (Nat.ltb_spec (length rs) 2); [by left|].
    destruct (Nat.eqb_spec (length rs) (length cs)) as [Hlen|Hlen]; simpl in Hc;
      [|by right; left].
    destruct (checkEntries rs cs None) as [msg'|] eqn:Hcheck.
    { apply checkEntries_Some in Hcheck as [?|[?|?]]; eauto 10. }
    destruct (last cs) as [back|] eqn:Hlast; [|done].
    destruct (eqb back one) eqn:Hone; simpl in Hc.
    + by destruct (lcmLoop rs 1).
    + do 5 right. eauto.
  - intros Hviol.
    destruct (Nat.ltb_spec (length rs) 2) as [|Hge]; [eauto|].
    destruct (Nat.eqb_spec (length rs) (length cs)) as [Hlen|Hlen]; simpl; [|eauto].
    destruct (checkEntries rs cs None) as [msg'|] eqn:Hcheck; [eauto|].
    assert (~ entryViolation rs cs None) as Hno.
    { intros Hv. destruct (checkEntries_violation rs cs None Hlen) as [? ?];
        [done|done|congruence]. }
    destruct Hviol as [?|[?|[?|[?|[?|(c & Hlast & Hc)]]]]]; try lia; try done.
    + destruct Hno. by left.
    + destruct Hno. by (right; left).
    + destruct Hno. by (right; right).
    + rewrite Hlast, Hc. simpl. eauto.
Qed.

(** C5. Once both option strings are parsed, construction ends in a
    [USER_ERROR] -- with no container built, so before any clause can be
    added -- exactly when the parsed values break a configuration rule:
    fewer than two ratios, a ratio count different from the cutoff count, a
    ratio [<= 0], a cutoff outside [0,1], two consecutive cutoffs that do not
    strictly increase, or a last cutoff different from 1.0. *)
Theorem constructor_config_error
    (stoi : string -> option Z) (stof : string -> option float)
    (isOutermost : bool) (opt : Options.t) (rs : list Z) (cs : list float) :
  mapM stoi (getlines (Options.splitQueueRatios opt)) = Some rs ->
  mapM stof (getlines (Options.splitQueueCutoffs opt)) = Some cs ->
  (exists msg, constructor stoi stof isOutermost opt = Some (inl (UserError msg)))
  <-> configViolation rs cs.
Proof.
  intros Hrs Hcs. unfold constructor. rewrite Hrs, Hcs.
  apply construct_config_error.
Qed.

(** *** The internal ratios *)

Lemma computeGCD_zero (a b : Z) : computeGCD a b = 0 -> a = 0 /\ b = 0.
Proof.
  funelim (computeGCD a b).
  - intros ->. done.
  - intros Hz. apply H0 in Hz as [_ ?]. done.
Qed.

Lemma computeGCD_gcd (a b : Z) : 0 <= a -> 0 <= b -> computeGCD a b = Z.gcd a b.
Proof.
  funelim (computeGCD a b); intros Ha Hb.
  - subst a. rewrite Z.gcd_0_l. lia.
  - rewrite H0.
    + rewrite Z.rem_mod_nonneg by lia. apply Z.gcd_mod. done.
    + apply Z.rem_nonneg; lia.
    + done.
Qed.

Lemma computeLCM_lcm (a b : Z) :
  0 < a -> 0 < b -> a * b <= INT_MAX ->
  computeLCM a b = Some (Z.lcm a b) /\ 0 < Z.lcm a b <= a * b.
Proof.
  intros Ha Hb Hfit. unfold computeLCM.
  rewrite computeGCD_gcd by lia.
  assert (0 < Z.gcd a b) as Hg.
  { pose proof (Z.gcd_nonneg a b). destruct (Z.eq_dec (Z.gcd a b) 0) as [E|]; [|lia].
    apply Z.gcd_eq_0_l in E. lia. }
  destruct (Z.eqb_spec (Z.gcd a b) 0); [lia|].
  assert (Z.lcm a b = a * b / Z.gcd a b) as Hlcm.
  { unfold Z.lcm. rewrite Z.divide_div_mul_exact; [|lia|apply Z.gcd_divide_r].
    apply Z.abs_eq. apply Z.mul_nonneg_nonneg; [lia|]. apply Z.div_pos; lia. }
  assert (0 < Z.lcm a b <= a * b) as Hrange.
  { split.
    - pose proof (Z.lcm_nonneg a b). destruct (Z.eq_dec (Z.lcm a b) 0) as [E|]; [|lia].
      apply Z.lcm_eq_0 in E. lia.
    - rewrite Hlcm. apply Z.div_le_upper_bound; [lia|]. nia. }
  split; [|done].
  rewrite (wrap_int_id (a * b)) by (unfold in_int, INT_MIN, INT_MAX in *; lia).
  rewrite Z.quot_div_nonneg by lia. rewrite <- Hlcm.
  rewrite wrap_int_id by (unfold in_int, INT_MIN, INT_MAX in *; lia). done.
Qed.

Lemma product_pos (rs : list Z) : Forall (fun r => 0 < r) rs -> 0 < product rs.
Proof. induction 1; simpl; lia. Qed.

Lemma lcmLoop_spec (rs : list Z) :
  forall acc : Z,
    0 < acc -> Forall (fun r => 0 < r) rs -> acc * product rs <= INT_MAX ->
    lcmLoop rs acc = Some (foldl Z.lcm acc rs) /\
    0 < foldl Z.lcm acc rs <= acc * product rs.
Proof.
  induction rs as [|r rs IH]; intros acc Hacc Hrs Hfit; simpl in *.
  - split; [done|lia].
  - apply Forall_cons in Hrs as [Hr Hrs]. pose proof (product_pos rs Hrs) as Hp.
    destruct (computeLCM_lcm acc r Hacc Hr) as [-> Hl]; [nia|].
    destruct (IH (Z.lcm acc r)) as [-> Hl']; [lia|done|nia|].
    split; [done|nia].
Qed.

Lemma lcmLoop_defined (rs : list Z) :
  forall acc : Z, Forall (fun r => 0 < r) rs -> is_Some (lcmLoop rs acc).
Proof.
  induction rs as [|r rs IH]; intros acc Hrs; simpl; [done|].
  apply Forall_cons in Hrs as [Hr Hrs]. unfold computeLCM.
  destruct (Z.eqb_spec (computeGCD acc r) 0) as [E|_]; [|by apply IH].
  apply computeGCD_zero in E. lia.
Qed.

Lemma lcmAll_divide (rs : list Z) (r : Z) : r ∈ rs -> (r | lcmAll rs).
Proof.
  unfold lcmAll. generalize 1. induction rs as [|x rs IH]; intros acc Hin.
  - by apply elem_of_nil in Hin.
  - simpl. apply elem_of_cons in Hin as [->|Hin]; [|by apply IH].
    clear IH. transitivity (Z.lcm acc x); [apply Z.divide_lcm_r|].
    generalize (Z.lcm acc x). clear. induction rs as [|y rs IH]; intros acc; simpl.
    + done.
    + transitivity (Z.lcm acc y); [apply Z.divide_lcm_l|apply IH].
Qed.

(** What a container is made of when construction succeeds. *)
Lemma construct_inr (isOutermost : bool) (opt : Options.t)
    (rs : list Z) (cs : list float) (s0 : t) :
  construct isOutermost opt rs cs = Some (inr s0) ->
  (2 <= length rs)%nat /\ length rs = length cs /\
  Forall (fun r => 0 < r) rs /\ Forall in_unit_interval cs /\
  (exists lcm, lcmLoop rs 1 = Some lcm /\ _ratios s0 = initRatios lcm rs) /\
  _isOutermost s0 = isOutermost /\ _opt s0 = opt /\ _cutoffs s0 = cs /\
  _queues s0 = initQueues opt cs rs /\
  _balances s0 = (fun _ => 0) <$> rs /\ _simulationBalances s0 = [] /\ events s0 = [].
Proof.
  unfold construct.
  destruct (Nat.ltb_spec (length rs) 2); [done|].
  destruct (Nat.eqb_spec (length rs) (length cs)) as [Hlen|]; simpl; [|done].
  destruct (checkEntries rs cs None) eqn:Hcheck; [done|].
  destruct (last cs); [|done].
  destruct (negb _); [done|].
  destruct (lcmLoop rs 1) as [lcm|] eqn:Hlcm; [|done].
  intros [= <-]. simpl.
  destruct (checkEntries_None rs cs Hlen Hcheck) as [? ?].
  repeat split; try done. by exists lcm.
Qed.

(** Without overflow in [computeLCM] the internal ratios are the weights
    [lcm(r_1, ..., r_N) / r_i]. *)
Lemma construct_ratios (isOutermost : bool) (opt : Options.t)
    (rs : list Z) (cs : list float) (s0 : t) :
  construct isOutermost opt rs cs = Some (inr s0) ->
  product rs <= INT_MAX ->
  _ratios s0 = internalWeights rs.
Proof.
  intros Hc Hfit.
  destruct (construct_inr _ _ _ _ _ Hc) as (_ & _ & Hrs & _ & (lcm & Hlcm & ->) & _).
  destruct (lcmLoop_spec rs 1) as [Hl Hrange]; [lia|done|lia|].
  rewrite Hl in Hlcm. injection Hlcm as <-.
  unfold initRatios, internalWeights. fold (lcmAll rs) in *.
  apply list_fmap_ext. intros i r Hr.
  assert (0 < r) as Hpos by (eapply (proj1 (Forall_forall _ _) Hrs), list_elem_of_lookup_2, Hr).
  rewrite Z.quot_div_nonneg by lia.
  unfold wrap_unsigned. apply Z.mod_small. split.
  - apply Z.div_pos; lia.
  - assert (lcmAll rs / r <= lcmAll rs) by (apply Z.div_le_upper_bound; nia).
    unfold INT_MAX in *. lia.
Qed.

(** Construction never runs into undefined behaviour. *)
Lemma construct_defined (isOutermost : bool) (opt : Options.t)
    (rs : list Z) (cs : list float) :
  is_Some (construct isOutermost opt rs cs).
Proof.
  unfold construct.
  destruct (Nat.ltb_spec (length rs) 2); [done|].
  destruct (Nat.eqb_spec (length rs) (length cs)) as [Hlen|]; simpl; [|done].
  destruct (checkEntries rs cs None) eqn:Hcheck; [done|].
  destruct (last cs) eqn:Hlast.
  - destruct (negb _); [done|].
    destruct (lcmLoop_defined rs 1) as [lcm ->]; [|done].
    by destruct (checkEntries_None rs cs Hlen Hcheck).
  - apply last_None in Hlast. subst cs. simpl in *. lia.
Qed.

End ConstructorFacts.

(** ** Predicate split: the loops over the queues *)

Section QueueLoops.

Import MachInt PredicateSplitPassiveClauseContainer.

Context {Q : Type} `{InnerQueue Q}.

Lemma applyFrom_lookup (f : Q -> Q) (qs : list Q) :
  forall i j : nat,
    applyFrom f i qs !! j
    = (fun q => if decide (i <= j)%nat then f q else q) <$> qs !! j.
Proof.
  induction qs as [|q qs IH]; intros i j; simpl; [done|].
  destruct i as [|i], j as [|j]; simpl; try done;
    rewrite IH; destruct (qs !! j); simpl; try done;
    repeat case_decide; try done; lia.
Qed.

Lemma applyFrom_length (f : Q -> Q) (qs : list Q) :
  forall i : nat, length (applyFrom f i qs) = length qs.
Proof.
  induction qs as [|q qs IH]; intros [|i]; simpl; by rewrite ?IH.
Qed.

Lemma anyFrom_spec (p : Q -> bool) (qs : list Q) :
  forall i : nat,
    anyFrom p i qs = true
    <-> exists j q, (i <= j)%nat /\ qs !! j = Some q /\ p q = true.
Proof.
  induction qs as [|q qs IH]; intros i; simpl.
  - split; [done|]. by intros (j & q & _ & ? & _).
  - destruct i as [|i].
    + destruct (p q) eqn:Hp.
      * split; [|done]. intros _. exists O, q. done.
      * rewrite IH. split.
        -- intros (j & q' & _ & ? & ?). exists (S j), q'. split; [lia|done].
        -- intros ([|j] & q' & _ & Hj & Hq); simpl in Hj.
           ++ congruence.
           ++ exists j, q'. split; [lia|done].
    + rewrite IH. split.
      * intros (j & q' & ? & ? & ?). exists (S j), q'. split; [lia|done].
      * intros ([|j] & q' & ? & Hj & Hq); simpl in Hj; [lia|].
        exists j, q'. split; [lia|done].
Qed.

(** [min_element] returns the first position of the least element. *)
Lemma min_element_from_spec (l : list Z) :
  forall (before : list Z) (smallest : nat) (smallestVal : Z),
    before !! smallest = Some smallestVal ->
    (forall j bj, before !! j = Some bj ->
                  smallestVal <= bj /\ ((j < smallest)%nat -> smallestVal < bj)) ->
    let r := min_element_from l (length before) smallest smallestVal in
    exists b, (before ++ l) !! r = Some b /\
      forall j bj, (before ++ l) !! j = Some bj -> b <= bj /\ ((j < r)%nat -> b < bj).
Proof.
  induction l as [|x l IH]; intros before smallest smallestVal Hs Hmin; simpl.
  - rewrite app_nil_r. eauto.
  - pose proof (lookup_lt_Some _ _ _ Hs) as Hlt.
    replace (before ++ x :: l) with ((before ++ [x]) ++ l) by (by rewrite <- app_assoc).
    replace (S (length before)) with (length (before ++ [x])) by (rewrite length_app; simpl; lia).
    destruct (Z.ltb_spec x smallestVal) as [Hx|Hx].
    + apply IH.
      * by rewrite lookup_app_r, Nat.sub_diag by lia.
      * intros j bj Hj. destruct (decide (j < length before)%nat) as [Hjl|Hjl].
        -- rewrite lookup_app_l in Hj by done. destruct (Hmin j bj Hj). lia.
        -- rewrite lookup_app_r in Hj by lia.
           destruct (j - length before)%nat as [|k] eqn:E; simpl in Hj; [|done].
           injection Hj as <-. split; [lia|]. lia.
    + apply IH.
      * by rewrite lookup_app_l by done.
      * intros j bj Hj. destruct (decide (j < length before)%nat) as [Hjl|Hjl].
        -- rewrite lookup_app_l in Hj by done. by apply Hmin.
        -- rewrite lookup_app_r in Hj by lia.
           destruct (j - length before)%nat as [|k] eqn:E; simpl in Hj; [|done].
           injection Hj as <-. split; [lia|]. lia.
Qed.

Lemma min_element_spec (l : list Z) :
  l <> [] ->
  exists b, l !! min_element l = Some b /\
    forall j bj, l !! j = Some bj -> b <= bj /\ ((j < min_element l)%nat -> b < bj).
Proof.
  destruct l as [|x l]; [done|]. intros _. simpl.
  apply (min_element_from_spec l [x] O x); [done|].
  intros [|j] bj Hj; simpl in Hj; [|done]. injection Hj as <-. lia.
Qed.

(** The rightward scan stops at the first non-empty queue, or at the end. *)
Lemma scanRight_spec (qs : list Q) :
  forall i : nat,
    let k := scanRight qs i in
    (i <= k <= i + length qs)%nat /\
    (forall j q, (j < k - i)%nat -> qs !! j = Some q -> q_isEmpty q = true) /\
    ((k < i + length qs)%nat ->
     exists q, qs !! (k - i)%nat = Some q /\ q_isEmpty q = false).
Proof.
  induction qs as [|q qs IH]; intros i; simpl.
  - repeat split; try lia.
  - destruct (q_isEmpty q) eqn:Hq.
    + destruct (IH (S i)) as ((H1 & H2) & H3 & H4).
      repeat split; try lia.
      * intros [|j] q' Hj Hq'; simpl in Hq'; [congruence|].
        apply (H3 j q'); [lia|done].
      * intros Hk. destruct H4 as (q' & Hq' & He); [lia|].
        exists q'. split; [|done].
        replace (scanRight qs (S i) - i)%nat with (S (scanRight qs (S i) - S i)) by lia.
        done.
    + repeat split; try lia.
      intros _. exists q. by rewrite Nat.sub_diag.
Qed.

(** The leftward scan stops at the last non-empty queue at or below its
    start, when there is one. *)
Lemma scanLeft_Some (qs : list Q) :
  forall i k : nat,
    scanLeft qs i = Some k ->
    (k <= i)%nat /\
    (exists q, qs !! k = Some q /\ q_isEmpty q = false) /\
    (forall j q, (k < j <= i)%nat -> qs !! j = Some q -> q_isEmpty q = true).
Proof.
  induction i as [|i IH]; intros k; simpl.
  - destruct (qs !! O) as [q|] eqn:Hq; [|done].
    destruct (q_isEmpty q) eqn:He; [done|].
    intros [= <-]. repeat split; eauto; intros; lia.
  - destruct (qs !! S i) as [q|] eqn:Hq; [|done].
    destruct (q_isEmpty q) eqn:He.
    + intros Hk. destruct (IH k Hk) as (H1 & H2 & H3).
      repeat split; try lia; try done.
      intros j q' Hj Hq'. destruct (decide (j = S i)) as [->|]; [congruence|].
      apply (H3 j q'); [lia|done].
    + intros [= <-]. repeat split; eauto; intros; lia.
Qed.


Lemma forEachOr_length (f : Q -> bool * Q) (qs : list Q) :
  forall acc : bool, length (forEachOr f qs acc).2 = length qs.
Proof.
  induction qs as [|q qs IH]; intros acc; simpl; [done|].
  destruct (f q) as [curr q']. specialize (IH (acc || curr)).
  destruct (forEachOr f qs (acc || curr)). simpl in *. by rewrite IH.
Qed.

Lemma forEachOr_elements (f : Q -> bool * Q) (qs : list Q) :
  (forall q, q_elements (f q).2 = q_elements q) ->
  forall acc : bool, q_elements <$> (forEachOr f qs acc).2 = q_elements <$> qs.
Proof.
  intros Hf. induction qs as [|q qs IH]; intros acc; simpl; [done|].
  specialize (Hf q). destruct (f q) as [curr q']. specialize (IH (acc || curr)).
  destruct (forEachOr f qs (acc || curr)). simpl in *. by f_equal.
Qed.

Lemma simulationScanRight_length (qs : list Q) :
  forall i : nat, length (simulationScanRight qs i).2 = length qs.
Proof.
  induction qs as [|q qs IH]; intros i; simpl; [done|].
  destruct (q_simulationHasNext q) as [[] q']; simpl; [done|].
  specialize (IH (S i)). destruct (simulationScanRight qs (S i)). simpl in *.
  by rewrite IH.
Qed.

Lemma simulationScanRight_elements (qs : list Q) :
  (forall q, q_elements (q_simulationHasNext q).2 = q_elements q) ->
  forall i : nat, q_elements <$> (simulationScanRight qs i).2 = q_elements <$> qs.
Proof.
  intros Hf. induction qs as [|q qs IH]; intros i; simpl; [done|].
  specialize (Hf q). destruct (q_simulationHasNext q) as [[] q']; simpl in *.
  - by rewrite Hf.
  - specialize (IH (S i)). destruct (simulationScanRight qs (S i)). simpl in *.
    by f_equal.
Qed.

Lemma simulationScanLeft_length (i : nat) :
  forall (qs qs' : list Q) (k : nat),
    simulationScanLeft qs i = Some (k, qs') -> length qs' = length qs.
Proof.
  induction i as [|i IH]; intros qs qs' k; simpl.
  - destruct (qs !! O) as [q|]; [|done].
    destruct (q_simulationHasNext q) as [[] q']; [|done].
    intros [= <- <-]. by rewrite length_insert.
  - destruct (qs !! S i) as [q|]; [|done].
    destruct (q_simulationHasNext q) as [[] q'].
    + intros [= <- <-]. by rewrite length_insert.
    + intros Hk. apply IH in Hk. by rewrite length_insert in Hk.
Qed.

Lemma elements_insert (qs : list Q) (i : nat) (q q' : Q) :
  qs !! i = Some q -> q_elements q' = q_elements q ->
  q_elements <$> <[i := q']> qs = q_elements <$> qs.
Proof.
  intros Hq He. rewrite list_fmap_insert, He.
  apply list_insert_id. by rewrite list_lookup_fmap, Hq.
Qed.

Lemma simulationScanLeft_elements (i : nat) :
  (forall q, q_elements (q_simulationHasNext q).2 = q_elements q) ->
  forall (qs qs' : list Q) (k : nat),
    simulationScanLeft qs i = Some (k, qs') ->
    q_elements <$> qs' = q_elements <$> qs.
Proof.
  intros Hf. induction i as [|i IH]; intros qs qs' k; simpl.
  - destruct (qs !! O) as [q|] eqn:Hq; [|done].
    specialize (Hf q). destruct (q_simulationHasNext q) as [[] q']; [|done].
    intros [= <- <-]. by apply (elements_insert qs O q).
  - destruct (qs !! S i) as [q|] eqn:Hq; [|done].
    pose proof (Hf q) as Hfq. destruct (q_simulationHasNext q) as [[] q'].
    + intros [= <- <-]. by apply (elements_insert qs (S i) q).
    + intros Hk. apply IH in Hk. rewrite Hk. by apply (elements_insert qs (S i) q).
Qed.

(** What one simulated pop changes: a simulation balance, and the
    simulation state of the queues it asks. *)
Lemma simulationPopSelected_inv (s s' : t) :
  simulationPopSelected s = Some s' ->
  let queueIndex := min_element (_simulationBalances s) in
  exists (b w : Z) (qs' : list Q),
    _simulationBalances s !! queueIndex = Some b /\
    _ratios s !! queueIndex = Some w /\
    s' = set_queues qs'
           (set_simulationBalances
              (<[queueIndex := wrap_unsigned (b + w)]> (_simulationBalances s)) s) /\
    length qs' = length (_queues s) /\
    ((forall q, q_elements (q_simulationHasNext q).2 = q_elements q) ->
     (forall q, q_elements (q_simulationPopSelected q) = q_elements q) ->
     q_elements <$> qs' = q_elements <$> _queues s).
Proof.
  intros Hpop queueIndex. unfold simulationPopSelected in Hpop. fold queueIndex in Hpop.
  clearbody queueIndex.
  destruct (_simulationBalances s !! queueIndex) as [b|]; [|done].
  destruct (_ratios s !! queueIndex) as [w|]; [|done].
  simpl in Hpop.
  pose proof (simulationScanRight_length (drop queueIndex (_queues s)) queueIndex) as Hlen.
  pose proof (fun Hf => simulationScanRight_elements (drop queueIndex (_queues s)) Hf queueIndex) as Hel.
  destruct (simulationScanRight (drop queueIndex (_queues s)) queueIndex)
    as [rightIndex asked]. simpl in Hlen.
  set (qs1 := take queueIndex (_queues s) ++ asked) in *.
  assert (length qs1 = length (_queues s)) as Hlen1.
  { unfold qs1. rewrite <- (take_drop queueIndex (_queues s)) at 2.
    rewrite !length_app. by rewrite Hlen. }
  assert ((forall q, q_elements (q_simulationHasNext q).2 = q_elements q) ->
          q_elements <$> qs1 = q_elements <$> _queues s) as Hel1.
  { intros Hf. unfold qs1. rewrite <- (take_drop queueIndex (_queues s)) at 2.
    rewrite !fmap_app. f_equal. exact (Hel Hf). }
  destruct (rightIndex =? length (_queues s))%nat.
  - destruct queueIndex as [|i]; [done|].
    destruct (simulationScanLeft qs1 i) as [[k qs2]|] eqn:Hleft; [|done].
    destruct (qs2 !! k) as [q|] eqn:Hk; [|done].
    injection Hpop as <-. exists b, w, (<[k := q_simulationPopSelected q]> qs2).
    repeat split; try done.
    + rewrite length_insert. by rewrite (simulationScanLeft_length _ _ _ _ Hleft).
    + intros Hf Hp. rewrite (elements_insert qs2 k q) by done.
      rewrite (simulationScanLeft_elements _ Hf _ _ _ Hleft). by apply Hel1.
  - destruct (qs1 !! rightIndex) as [q|] eqn:Hk; [|done].
    injection Hpop as <-. exists b, w, (<[rightIndex := q_simulationPopSelected q]> qs1).
    repeat split; try done.
    + by rewrite length_insert.
    + intros Hf Hp. rewrite (elements_insert qs1 rightIndex q) by done. by apply Hel1.
Qed.

(** What one pop changes. *)
Lemma popSelected_inv (s s' : t) (cl : ClausePtr) :
  popSelected s = Some (cl, s') ->
  let queueIndex := min_element (_balances s) in
  exists (b w : Z) (currIndex : nat) (q q' : Q),
    _balances s !! queueIndex = Some b /\
    _ratios s !! queueIndex = Some w /\
    (let rightIndex := scanRight (drop queueIndex (_queues s)) queueIndex in
     if (rightIndex =? length (_queues s))%nat then
       match queueIndex with
       | O => False
       | S i => scanLeft (_queues s) i = Some currIndex
       end
     else currIndex = rightIndex) /\
    _queues s !! currIndex = Some q /\
    q_popSelected q = Some (cl, q') /\
    s' = fire (selectedEvent cl)
           (set_queues (q_remove cl <$> <[currIndex := q']> (_queues s))
              (set_balances (<[queueIndex := wrap_unsigned (b + w)]> (_balances s)) s)).
Proof.
  intros Hpop queueIndex. unfold popSelected in Hpop. fold queueIndex in Hpop.
  clearbody queueIndex.
  destruct (_balances s !! queueIndex) as [b|]; [|done].
  destruct (_ratios s !! queueIndex) as [w|]; [|done].
  simpl in Hpop.
  destruct (scanRight (drop queueIndex (_queues s)) queueIndex =? length (_queues s))%nat eqn:E.
  - destruct queueIndex as [|i]; [done|].
    destruct (scanLeft (_queues s) i) as [k|] eqn:Hleft; [|done].
    destruct (_queues s !! k) as [q|] eqn:Hk; [|done].
    destruct (q_popSelected q) as [[cl' q']|] eqn:Hq'; [|done].
    injection Hpop as <- <-. exists b, w, k, q, q'. cbv zeta. rewrite E.
    repeat split; done.
  - destruct (_queues s !! _) as [q|] eqn:Hk; [|done].
    destruct (q_popSelected q) as [[cl' q']|] eqn:Hq'; [|done].
    injection Hpop as <- <-.
    exists b, w, (scanRight (drop queueIndex (_queues s)) queueIndex), q, q'.
    cbv zeta. rewrite E.
    repeat split; done.
Qed.

Lemma static_refl (s : t (Q := Q)) : static s s.
Proof. by unfold static. Qed.

Lemma static_trans (s1 s2 s3 : t (Q := Q)) : static s1 s2 -> static s2 s3 -> static s1 s3.
Proof. unfold static. intros (?&?&?&?&?&?) (?&?&?&?&?&?). repeat split; congruence. Qed.

Lemma step_static (mem : Heap) (lrs : bool) (s s' : t) :
  step mem lrs s s' -> static s s'.
Proof.
  destruct 1 as [cl s s' Hop|cl s s' Hop|cl s s' Hop| | |s s' Hop| | | ]; unfold static.
  - unfold add in Hop. destruct (bestQueueHeuristics _ _); [|done].
    injection Hop as <-. destruct (_isOutermost s) eqn:E; simpl;
      by rewrite applyFrom_length.
  - unfold remove in Hop. destruct (bestQueueHeuristics _ _); [|done].
    injection Hop as <-. destruct (_isOutermost s) eqn:E; simpl;
      by rewrite applyFrom_length.
  - apply popSelected_inv in Hop as (b & w & k & q & q' & _ & _ & _ & _ & _ & ->).
    simpl. by rewrite length_fmap, !length_insert.
  - simpl. by rewrite length_fmap.
  - unfold simulationHasNext.
    pose proof (forEachOr_length q_simulationHasNext (_queues s) false) as Hl.
    destruct (forEachOr _ _ _). simpl in *. done.
  - apply simulationPopSelected_inv in Hop as (b & w & qs' & _ & _ & -> & Hl & _).
    simpl. done.
  - unfold setLimitsToMax.
    pose proof (forEachOr_length q_setLimitsToMax (_queues s) false) as Hl.
    destruct (forEachOr _ _ _). simpl in *. done.
  - unfold setLimitsFromSimulation.
    pose proof (forEachOr_length q_setLimitsFromSimulation (_queues s) false) as Hl.
    destruct (forEachOr _ _ _). simpl in *. done.
  - simpl. by rewrite length_fmap.
Qed.

Lemma reachable_static (mem : Heap) (lrs : bool) (s s' : t) :
  reachable mem lrs s s' -> static s s'.
Proof.
  induction 1 as [|s1 s2 s3 Hstep _ IH]; [apply static_refl|].
  eapply static_trans; [by eapply step_static|done].
Qed.

Lemma bestQueueHeuristics_static (s s' : t (Q := Q)) (inf : Inference.t) :
  static s s' -> bestQueueHeuristics s' inf = bestQueueHeuristics s inf.
Proof. intros (_ & Hc & Ho & _). unfold bestQueueHeuristics. by rewrite Hc, Ho. Qed.

End QueueLoops.

(** ** The reference queue obeys the laws *)

Section FifoQueueFacts.

Import FifoQueue.

Lemma elem_of_without (cl x : ClausePtr) (l : list ClausePtr) :
  x ∈ without cl l <-> x ∈ l /\ x <> cl.
Proof. unfold without. rewrite list_elem_of_filter. tauto. Qed.

#[global] Instance fifo_queue_laws : InnerQueueLaws FifoQueue.t.
Proof.
  split; simpl.
  - done.
  - intros cl q. rewrite list_to_set_app_L. simpl. set_solver.
  - intros cl q. apply set_eq. intros x.
    rewrite elem_of_difference, !elem_of_list_to_set, elem_of_without. set_solver.
  - intros q. destruct (items q) as [|x l]; simpl; [done|].
    split; [done|]. set_solver.
  - intros q. unfold popSelected. destruct (items q); [done|eauto].
  - intros q cl q'. unfold popSelected. destruct (items q) as [|x l]; [done|].
    intros [= <- <-]. simpl. split; [set_solver|].
    apply set_eq. intros y.
    rewrite elem_of_difference, elem_of_union, !elem_of_list_to_set, elem_of_without.
    set_solver.
  - done.
  - done.
  - done.
Qed.

End FifoQueueFacts.

(** ** Predicate split: dispatch and admission *)

Section DispatchFacts.

Import Float32 MachInt PredicateSplitPassiveClauseContainer.

Context {Q : Type} `{InnerQueue Q}.

Lemma construct_last (isOutermost : bool) (opt : Options.t)
    (rs : list Z) (cs : list float) (s0 : t) :
  construct isOutermost opt rs cs = Some (inr s0) -> last cs = Some one.
Proof.
  unfold construct.
  destruct (length rs <? 2)%nat; [done|].
  destruct (negb (length rs =? length cs)%nat); [done|].
  destruct (checkEntries rs cs None); [done|].
  destruct (last cs) as [back|]; [|done].
  destruct (eqb back one) eqn:Hone; simpl; [|done].
  intros _. f_equal. by apply eqb_finite in Hone.
Qed.

Lemma cutoffLoop_Some (n : float) (cs : list float) :
  forall i k : nat,
    cutoffLoop n cs i = Some k ->
    (i <= k)%nat /\
    (exists c, cs !! (k - i)%nat = Some c /\ leb n c = true) /\
    (forall j c, (j < k - i)%nat -> cs !! j = Some c -> leb n c = false).
Proof.
  induction cs as [|c cs IH]; intros i k; simpl; [done|].
  destruct (leb n c) eqn:Hc.
  - intros [= <-]. rewrite Nat.sub_diag. repeat split; eauto; intros; lia.
  - intros Hk. destruct (IH (S i) k Hk) as (H1 & (c' & H2 & H3) & H4).
    replace (k - i)%nat with (S (k - S i)) by lia.
    repeat split; try lia; eauto.
    intros [|j] c'' Hj Hc''; simpl in Hc''; [congruence|].
    apply (H4 j c''); [lia|done].
Qed.

Lemma cutoffLoop_defined (n : float) (cs : list float) :
  forall i : nat,
    (exists c, c ∈ cs /\ leb n c = true) -> is_Some (cutoffLoop n cs i).
Proof.
  induction cs as [|c cs IH]; intros i (c' & Hin & Hle); simpl.
  - by apply elem_of_nil in Hin.
  - destruct (leb n c) eqn:Hc; [done|].
    apply IH. exists c'. apply elem_of_cons in Hin as [->|Hin]; [congruence|done].
Qed.

Lemma cutoffLoop_None (n : float) (cs : list float) :
  forall i : nat,
    (forall c, c ∈ cs -> leb n c = false) -> cutoffLoop n cs i = None.
Proof.
  induction cs as [|c cs IH]; intros i Hall; simpl; [done|].
  rewrite (Hall c) by left. apply IH. intros c' Hc'. apply Hall. by right.
Qed.

(** C10. In a container made by the constructor, for an inference whose
    niceness (after fade-in) lies in [0,1], [bestQueueHeuristics] returns the
    smallest index [i] with [niceness <= cutoff_i]: the last cutoff being
    1.0, the loop returns before it ends, so the end of the function, which
    returns nothing, is not reached.  When [niceness <= 1] does not hold, no
    cutoff admits the niceness and no [return] is executed. *)
Theorem bestQueueHeuristics_smallest_index (mem : Heap) (lrs isOutermost : bool)
    (opt : Options.t) (rs : list Z) (cs : list float) (s0 s : t) (inf : Inference.t) :
  construct isOutermost opt rs cs = Some (inr s0) ->
  reachable mem lrs s0 s ->
  let n := niceness (_opt s) inf in
  (leb zero n = true -> leb n one = true ->
   exists (i : nat) (c : float),
     bestQueueHeuristics s inf = Some i /\
     _cutoffs s !! i = Some c /\ leb n c = true /\
     forall j c', (j < i)%nat -> _cutoffs s !! j = Some c' -> leb n c' = false) /\
  (leb n one = false -> bestQueueHeuristics s inf = None).
Proof.
  intros Hc Hreach n.
  apply reachable_static in Hreach as (_ & Hcut & Hopt & _).
  pose proof (construct_last _ _ _ _ _ Hc) as Hlast.
  destruct (construct_inr _ _ _ _ _ Hc) as (_ & _ & _ & Hunit & _ & _ & _ & Hcs & _).
  unfold bestQueueHeuristics. fold n. rewrite Hcut, Hcs. split.
  - intros _ Hn1.
    destruct (cutoffLoop_defined n cs 0) as [i Hi].
    { exists one. split; [|done]. apply last_Some_elem_of. done. }
    destruct (cutoffLoop_Some n cs 0 i Hi) as (_ & (c & Hc1 & Hc2) & Hmin).
    rewrite Nat.sub_0_r in *. exists i, c. repeat split; try done.
  - intros Hn1. apply cutoffLoop_None. intros c Hin.
    destruct (leb n c) eqn:Hle; [|done].
    destruct (proj1 (Forall_forall _ _) Hunit c Hin) as [_ Hc1].
    by rewrite (leb_trans n c one Hle Hc1) in Hn1.
Qed.

(** C9. [fulfilsAgeLimit] (respectively [fulfilsWeightLimit]) answers [true]
    for a clause exactly when some queue from the clause's best queue through
    the last one accepts the clause under its own age (respectively weight)
    limit. *)
Theorem fulfils_limits_some_destination (mem : Heap) (s : t) (cl : ClausePtr)
    (best : nat) :
  bestQueueHeuristics s (Clause.inference (mem cl)) = Some best ->
  (exists r, fulfilsAgeLimit mem s cl = Some r /\
     (r = true <->
      exists i q, (best <= i)%nat /\ _queues s !! i = Some q /\
                  q_fulfilsAgeLimit mem cl q = true)) /\
  (exists r, fulfilsWeightLimit mem s cl = Some r /\
     (r = true <->
      exists i q, (best <= i)%nat /\ _queues s !! i = Some q /\
                  q_fulfilsWeightLimit mem cl q = true)).
Proof.
  intros Hbest. unfold fulfilsAgeLimit, fulfilsWeightLimit. rewrite Hbest.
  split; eexists; (split; [done|]); apply anyFrom_spec.
Qed.

End DispatchFacts.

(** An instance: the example container, and an inference with 9 theory
    ancestors out of 10. *)
Lemma bestQueueHeuristics_smallest_index_witness :
  let n := PredicateSplitPassiveClauseContainer.niceness
             (PredicateSplitPassiveClauseContainer._opt Examples.split1)
             (Examples.inf 9 10) in
  (Float32.leb Float32.zero n = true -> Float32.leb n Float32.one = true ->
   exists (i : nat) (c : Float32.float),
     PredicateSplitPassiveClauseContainer.bestQueueHeuristics Examples.split1
       (Examples.inf 9 10) = Some i /\
     PredicateSplitPassiveClauseContainer._cutoffs Examples.split1 !! i = Some c /\
     Float32.leb n c = true /\
     forall j c', (j < i)%nat ->
       PredicateSplitPassiveClauseContainer._cutoffs Examples.split1 !! j = Some c' ->
       Float32.leb n c' = false) /\
  (Float32.leb n Float32.one = false ->
   PredicateSplitPassiveClauseContainer.bestQueueHeuristics Examples.split1
     (Examples.inf 9 10) = None).
Proof.
  apply (bestQueueHeuristics_smallest_index Examples.heap false true Examples.opt
           [4; 1] [Float32.half; Float32.one] Examples.split0 Examples.split1).
  - reflexivity.
  - eapply rtc_l; [|apply rtc_refl].
    apply (PredicateSplitPassiveClauseContainer.step_add Examples.heap false 3%positive).
    reflexivity.
Defined.

Lemma fulfils_limits_some_destination_witness :
  (exists r, PredicateSplitPassiveClauseContainer.fulfilsAgeLimit
               Examples.heap Examples.split1 3%positive = Some r /\
     (r = true <->
      exists i q, (1 <= i)%nat /\
        PredicateSplitPassiveClauseContainer._queues Examples.split1 !! i = Some q /\
        q_fulfilsAgeLimit Examples.heap 3%positive q = true)) /\
  (exists r, PredicateSplitPassiveClauseContainer.fulfilsWeightLimit
               Examples.heap Examples.split1 3%positive = Some r /\
     (r = true <->
      exists i q, (1 <= i)%nat /\
        PredicateSplitPassiveClauseContainer._queues Examples.split1 !! i = Some q /\
        q_fulfilsWeightLimit Examples.heap 3%positive q = true)).
Proof.
  apply (fulfils_limits_some_destination Examples.heap Examples.split1 3%positive 1).
  reflexivity.
Defined.

(** An instance: the option strings ["4,1"] and ["0.5,1.0"]. *)
Lemma constructor_config_error_witness :
  (exists msg,
     PredicateSplitPassiveClauseContainer.constructor (Q := FifoQueue.t)
       Examples.stoi Examples.stof true Examples.opt
     = Some (inl (PredicateSplitPassiveClauseContainer.UserError msg)))
  <-> PredicateSplitPassiveClauseContainer.configViolation
        [4; 1] [Float32.half; Float32.one].
Proof.
  apply (constructor_config_error Examples.stoi Examples.stof true Examples.opt
           [4; 1] [Float32.half; Float32.one]).
  - reflexivity.
  - reflexivity.
Defined.

Example constructor_example :
  PredicateSplitPassiveClauseContainer.constructor (Q := FifoQueue.t)
    Examples.stoi Examples.stof true Examples.opt
  = Some (inr Examples.split0).
Proof. vm_compute. reflexivity. Qed.

(** Ratios ["4,0"] are refused. *)
Example constructor_refuses_zero_ratio :
  PredicateSplitPassiveClauseContainer.construct (Q := FifoQueue.t) true Examples.opt
    [4; 0] [Float32.half; Float32.one]
  = Some (inl (PredicateSplitPassiveClauseContainer.UserError
       "Each ratio (supplied by option '-sqr') needs to be a positive integer")).
Proof. vm_compute. reflexivity. Qed.

(** ** Predicate split: the simulation *)

Section SimulationFacts.

Import MachInt PredicateSplitPassiveClauseContainer.

Context {Q : Type} `{InnerQueueLaws Q}.

Lemma simulationInit_real_state (s : t) : real_state_kept s (simulationInit s).
Proof.
  unfold real_state_kept. simpl. repeat split; try done.
  rewrite <- list_fmap_compose. apply list_fmap_ext. intros i q _. simpl.
  apply q_elements_simulationInit.
Qed.

Lemma simulationPopSelected_real_state (s s' : t) :
  simulationPopSelected s = Some s' -> real_state_kept s s'.
Proof.
  intros Hpop.
  apply simulationPopSelected_inv in Hpop as (b & w & qs' & _ & _ & -> & _ & Hel).
  unfold real_state_kept. simpl. repeat split; try done.
  apply Hel; [apply q_elements_simulationHasNext|apply q_elements_simulationPopSelected].
Qed.

Lemma simulationPops_real_state (n : nat) :
  forall s s' : t, simulationPops n s = Some s' -> real_state_kept s s'.
Proof.
  induction n as [|n IH]; intros s s'; simpl.
  - intros [= <-]. by unfold real_state_kept.
  - destruct (simulationPopSelected s) as [s1|] eqn:Hpop; [|done].
    intros Hrest. apply simulationPopSelected_real_state in Hpop.
    apply IH in Hrest. unfold real_state_kept in *.
    destruct Hpop as (?&?&?&?&?), Hrest as (?&?&?&?&?). repeat split; congruence.
Qed.

(** C6. [simulationInit] followed by any number of calls of
    [simulationPopSelected] leaves the real balances and the contents of
    every queue as they were and fires no event.  The simulation starts from a
    copy of the real balances, and each simulated pop picks its queue by the
    simulation balances and increments only those. *)
Theorem simulation_leaves_real_state (s : t) :
  _simulationBalances (simulationInit s) = _balances s /\
  (forall (n : nat) (s' : t),
     simulationPops n (simulationInit s) = Some s' ->
     _balances s' = _balances s /\
     q_elements <$> _queues s' = q_elements <$> _queues s /\
     events s' = events s) /\
  (forall s1 s2 : t,
     simulationPopSelected s1 = Some s2 ->
     let queueIndex := min_element (_simulationBalances s1) in
     exists b w,
       _simulationBalances s1 !! queueIndex = Some b /\
       _ratios s1 !! queueIndex = Some w /\
       _simulationBalances s2
       = <[queueIndex := wrap_unsigned (b + w)]> (_simulationBalances s1) /\
       _balances s2 = _balances s1 /\
       events s2 = events s1).
Proof.
  split; [done|]. split.
  - intros n s' Hrun. apply simulationPops_real_state in Hrun as (H1 & H2 & H3 & _).
    destruct (simulationInit_real_state s) as (H1' & H2' & H3' & _).
    repeat split; congruence.
  - intros s1 s2 Hpop queueIndex.
    apply simulationPopSelected_inv in Hpop as (b & w & qs' & Hb & Hw & -> & _).
    exists b, w. done.
Qed.

End SimulationFacts.

(** An instance: the example container holding clause 3. *)
Lemma simulation_leaves_real_state_witness :
  PredicateSplitPassiveClauseContainer._simulationBalances
    (PredicateSplitPassiveClauseContainer.simulationInit Examples.split1)
  = PredicateSplitPassiveClauseContainer._balances Examples.split1 /\
  (forall (n : nat) (s' : PredicateSplitPassiveClauseContainer.t),
     PredicateSplitPassiveClauseContainer.simulationPops n
       (PredicateSplitPassiveClauseContainer.simulationInit Examples.split1) = Some s' ->
     PredicateSplitPassiveClauseContainer._balances s'
     = PredicateSplitPassiveClauseContainer._balances Examples.split1 /\
     q_elements <$> PredicateSplitPassiveClauseContainer._queues s'
     = q_elements <$> PredicateSplitPassiveClauseContainer._queues Examples.split1 /\
     PredicateSplitPassiveClauseContainer.events s'
     = PredicateSplitPassiveClauseContainer.events Examples.split1) /\
  (forall s1 s2 : PredicateSplitPassiveClauseContainer.t (Q := FifoQueue.t),
     PredicateSplitPassiveClauseContainer.simulationPopSelected s1 = Some s2 ->
     let queueIndex := PredicateSplitPassiveClauseContainer.min_element
                         (PredicateSplitPassiveClauseContainer._simulationBalances s1) in
     exists b w,
       PredicateSplitPassiveClauseContainer._simulationBalances s1 !! queueIndex = Some b /\
       PredicateSplitPassiveClauseContainer._ratios s1 !! queueIndex = Some w /\
       PredicateSplitPassiveClauseContainer._simulationBalances s2
       = <[queueIndex := MachInt.wrap_unsigned (b + w)]>
           (PredicateSplitPassiveClauseContainer._simulationBalances s1) /\
       PredicateSplitPassiveClauseContainer._balances s2
       = PredicateSplitPassiveClauseContainer._balances s1 /\
       PredicateSplitPassiveClauseContainer.events s2
       = PredicateSplitPassiveClauseContainer.events s1).
Proof.
  exact (simulation_leaves_real_state (H0 := fifo_queue_laws) Examples.split1).
Defined.

(** On the example: one simulated pop on the container holding clause 3; a
    second one finds no queue with a next clause. *)
Example simulation_example :
  (fun s => (PredicateSplitPassiveClauseContainer._balances s,
             PredicateSplitPassiveClauseContainer._simulationBalances s,
             PredicateSplitPassiveClauseContainer.events s))
    <$> PredicateSplitPassiveClauseContainer.simulationPops 1
          (PredicateSplitPassiveClauseContainer.simulationInit Examples.split1)
  = Some ([0; 0], [1; 0], [addedEvent 3%positive]).
Proof. vm_compute. reflexivity. Qed.

Example simulation_exhausted :
  PredicateSplitPassiveClauseContainer.simulationPops 2
    (PredicateSplitPassiveClauseContainer.simulationInit Examples.split1) = None.
Proof. vm_compute. reflexivity. Qed.

(** ** Predicate split: coverage of the queues *)

Section CoverageFacts.

Import MachInt PredicateSplitPassiveClauseContainer.

Context {Q : Type} `{InnerQueueLaws Q}.

Lemma initQueues_lookup (opt : Options.t) (cs : list Float32.float) (rs : list Z)
    (j : nat) (q : Q) :
  initQueues opt cs rs !! j = Some q -> q_elements q = ∅.
Proof.
  unfold initQueues. rewrite list_lookup_fmap.
  destruct (seq 0 (length rs) !! j); simpl; [|done].
  intros [= <-]. apply q_elements_new.
Qed.

Lemma add_queues (mem : Heap) (cl : ClausePtr) (s s' : t) :
  add mem cl s = Some s' ->
  exists i, bestQueueHeuristics s (Clause.inference (mem cl)) = Some i /\
            _queues s' = applyFrom (q_add cl) i (_queues s).
Proof.
  unfold add. destruct (bestQueueHeuristics _ _) as [i|]; [|done].
  intros [= <-]. exists i. split; [done|]. by destruct (_isOutermost s).
Qed.

Lemma remove_queues (mem : Heap) (cl : ClausePtr) (s s' : t) :
  remove mem cl s = Some s' ->
  exists i, bestQueueHeuristics s (Clause.inference (mem cl)) = Some i /\
            _queues s' = applyFrom (q_remove cl) i (_queues s).
Proof.
  unfold remove. destruct (bestQueueHeuristics _ _) as [i|]; [|done].
  intros [= <-]. exists i. split; [done|]. by destruct (_isOutermost s).
Qed.

(** A call that leaves the contents of every queue alone keeps coverage. *)
Lemma covered_same_elements (mem : Heap) (s s' : t) :
  static s s' ->
  q_elements <$> _queues s' = q_elements <$> _queues s ->
  covered mem s -> covered mem s'.
Proof.
  intros Hst Hel Hcov cl j q Hq Hin.
  assert (forall j q', _queues s' !! j = Some q' ->
            exists q0, _queues s !! j = Some q0 /\ q_elements q0 = q_elements q') as Hback.
  { intros j0 q' Hq'.
    assert ((q_elements <$> _queues s) !! j0 = Some (q_elements q')) as Hl
      by (by rewrite <- Hel, list_lookup_fmap, Hq').
    rewrite list_lookup_fmap in Hl. destruct (_queues s !! j0) as [q0|]; [|done].
    injection Hl as Hl. eauto. }
  destruct (Hback j q Hq) as (q0 & Hq0 & He0).
  destruct (Hcov cl j q0 Hq0) as (b & Hb & Hle & Hall); [by rewrite He0|].
  exists b. rewrite (bestQueueHeuristics_static s s') by done.
  repeat split; try done. intros j' q' Hj' Hq'.
  destruct (Hback j' q' Hq') as (q1 & Hq1 & He1). rewrite <- He1. by eapply Hall.
Qed.

Lemma step_covered (mem : Heap) (s s' : t) :
  step mem false s s' -> covered mem s -> covered mem s'.
Proof.
  intros Hstep Hcov. pose proof (step_static mem false s s' Hstep) as Hst.
  destruct Hstep as [cl0 s s' Hop|cl0 s s' Hop|cl0 s s' Hop| | |s s' Hop|? ?|? ?|? ?];
    try done.
  - (* add *)
    apply add_queues in Hop as (i & Hi & Hqs).
    intros cl j q Hq Hin. rewrite (bestQueueHeuristics_static s s') by done.
    rewrite Hqs, applyFrom_lookup in Hq.
    destruct (_queues s !! j) as [q0|] eqn:Hq0; [|done]. injection Hq as <-.
    assert (forall b, bestQueueHeuristics s (Clause.inference (mem cl)) = Some b ->
              (cl = cl0 \/ forall j' q', (b <= j')%nat -> _queues s !! j' = Some q' ->
                                         cl ∈ q_elements q') ->
              forall j' q', (b <= j')%nat -> _queues s' !! j' = Some q' ->
                            cl ∈ q_elements q') as Hall.
    { intros b Hb Hold j' q' Hj' Hq'. rewrite Hqs, applyFrom_lookup in Hq'.
      destruct (_queues s !! j') as [q1|] eqn:Hq1; [|done]. injection Hq' as <-.
      destruct Hold as [->|Hold].
      - rewrite Hi in Hb. injection Hb as <-.
        rewrite decide_True by done. rewrite q_elements_add. set_solver.
      - specialize (Hold j' q1 Hj' Hq1).
        destruct (decide (i <= j')%nat); [rewrite q_elements_add; set_solver|done]. }
    destruct (decide (cl = cl0)) as [->|Hne].
    + destruct (decide (i <= j)%nat) as [Hij|Hij].
      * exists i. repeat split; try done. apply Hall; [done|by left].
      * destruct (Hcov cl0 j q0 Hq0 Hin) as (b & Hb & Hle & _).
        rewrite Hi in Hb. injection Hb as <-. lia.
    + assert (cl ∈ q_elements q0) as Hin0.
      { destruct (decide (i <= j)%nat); [|done]. rewrite q_elements_add in Hin. set_solver. }
      destruct (Hcov cl j q0 Hq0 Hin0) as (b & Hb & Hle & Hold).
      exists b. repeat split; try done. apply Hall; [done|by right].
  - (* remove *)
    apply remove_queues in Hop as (i & Hi & Hqs).
    intros cl j q Hq Hin. rewrite (bestQueueHeuristics_static s s') by done.
    rewrite Hqs, applyFrom_lookup in Hq.
    destruct (_queues s !! j) as [q0|] eqn:Hq0; [|done]. injection Hq as <-.
    assert (cl ∈ q_elements q0 /\ (cl = cl0 -> ~ (i <= j)%nat)) as [Hin0 Hcl0].
    { destruct (decide (i <= j)%nat); [|split; [done|tauto]].
      rewrite q_elements_remove in Hin. set_solver. }
    destruct (Hcov cl j q0 Hq0 Hin0) as (b & Hb & Hle & Hold).
    assert (cl <> cl0) as Hne.
    { intros ->. rewrite Hi in Hb. injection Hb as <-. by apply Hcl0. }
    exists b. repeat split; try done.
    intros j' q' Hj' Hq'. rewrite Hqs, applyFrom_lookup in Hq'.
    destruct (_queues s !! j') as [q1|] eqn:Hq1; [|done]. injection Hq' as <-.
    specialize (Hold j' q1 Hj' Hq1).
    destruct (decide (i <= j')%nat); [rewrite q_elements_remove; set_solver|done].
  - (* popSelected *)
    apply popSelected_inv in Hop as (b0 & w & k & qk & qk' & _ & _ & _ & Hk & Hpop & ->).
    apply q_elements_pop in Hpop as [_ Hk'].
    assert (forall j q, _queues (fire (selectedEvent cl0)
                         (set_queues (q_remove cl0 <$> <[k:=qk']> (_queues s))
                            (set_balances (<[min_element (_balances s):=wrap_unsigned (b0 + w)]>
                                             (_balances s)) s))) !! j = Some q ->
              exists q0, _queues s !! j = Some q0 /\
                         q_elements q = q_elements q0 ∖ {[cl0]}) as Hback.
    { intros j q. simpl. rewrite list_lookup_fmap.
      destruct (decide (j = k)) as [->|Hjk].
      - rewrite list_lookup_insert_eq by (by eapply lookup_lt_Some).
        simpl. intros [= <-]. exists qk. split; [done|].
        rewrite q_elements_remove, Hk'. set_solver.
      - rewrite list_lookup_insert_ne by done.
        destruct (_queues s !! j) as [q0|]; simpl; [|done].
        intros [= <-]. exists q0. split; [done|]. apply q_elements_remove. }
    intros cl j q Hq Hin. rewrite (bestQueueHeuristics_static s _) by done.
    destruct (Hback j q Hq) as (q0 & Hq0 & He0). rewrite He0 in Hin.
    destruct (Hcov cl j q0 Hq0) as (b & Hb & Hle & Hold); [set_solver|].
    exists b. repeat split; try done.
    intros j' q' Hj' Hq'. destruct (Hback j' q' Hq') as (q1 & Hq1 & He1).
    rewrite He1. specialize (Hold j' q1 Hj' Hq1). set_solver.
  - (* simulationInit *)
    apply (covered_same_elements mem s); [done| |done].
    apply simulationInit_real_state.
  - (* simulationHasNext *)
    apply (covered_same_elements mem s); [done| |done].
    unfold simulationHasNext.
    pose proof (forEachOr_elements q_simulationHasNext (_queues s)
                  q_elements_simulationHasNext false) as Hel.
    destruct (forEachOr _ _ _). done.
  - (* simulationPopSelected *)
    apply (covered_same_elements mem s); [done| |done].
    by apply simulationPopSelected_real_state in Hop as (_ & ? & _).
Qed.

Lemma reachable_covered (mem : Heap) (s s' : t) :
  reachable mem false s s' -> covered mem s -> covered mem s'.
Proof.
  induction 1 as [|s1 s2 s3 Hstep _ IH]; [done|].
  intros Hcov. apply IH. by eapply step_covered.
Qed.

(** C3. In a container made by the constructor and used without the calls
    through which LRS discards: [add] of a clause whose best queue is [i]
    inserts the clause into the queues [i, i+1, ..., N] and into no other;
    every clause held by some queue is held by every queue from its best
    queue on; and [remove] deletes a clause from the same range of queues. *)
Theorem split_queue_coverage (mem : Heap) (isOutermost : bool) (opt : Options.t)
    (rs : list Z) (cs : list Float32.float) (s0 s : t) :
  construct isOutermost opt rs cs = Some (inr s0) ->
  reachable mem false s0 s ->
  (forall cl i,
     bestQueueHeuristics s (Clause.inference (mem cl)) = Some i ->
     exists s',
       add mem cl s = Some s' /\
       length (_queues s') = length (_queues s) /\
       forall j q, _queues s !! j = Some q ->
         _queues s' !! j = Some (if decide (i <= j)%nat then q_add cl q else q)) /\
  (forall cl j q,
     _queues s !! j = Some q -> cl ∈ q_elements q ->
     exists b,
       bestQueueHeuristics s (Clause.inference (mem cl)) = Some b /\ (b <= j)%nat /\
       forall j' q', (b <= j')%nat -> _queues s !! j' = Some q' -> cl ∈ q_elements q') /\
  (forall cl i,
     bestQueueHeuristics s (Clause.inference (mem cl)) = Some i ->
     exists s',
       remove mem cl s = Some s' /\
       length (_queues s') = length (_queues s) /\
       forall j q, _queues s !! j = Some q ->
         _queues s' !! j = Some (if decide (i <= j)%nat then q_remove cl q else q)).
Proof.
  intros Hc Hreach. repeat split.
  - intros cl i Hi. unfold add. rewrite Hi. eexists. split; [done|].
    destruct (_isOutermost s); simpl; rewrite applyFrom_length;
      (split; [done|]); intros j q Hq; by rewrite applyFrom_lookup, Hq.
  - apply (reachable_covered mem s0 s Hreach).
    destruct (construct_inr _ _ _ _ _ Hc) as (_&_&_&_&_&_&_&_& Hqs &_).
    intros cl j q Hq Hin. rewrite Hqs in Hq.
    apply initQueues_lookup in Hq. set_solver.
  - intros cl i Hi. unfold remove. rewrite Hi. eexists. split; [done|].
    destruct (_isOutermost s); simpl; rewrite applyFrom_length;
      (split; [done|]); intros j q Hq; by rewrite applyFrom_lookup, Hq.
Qed.

End CoverageFacts.

(** An instance: the example container after clause 3 was added. *)
Lemma split_queue_coverage_witness :
  (forall cl i,
     PredicateSplitPassiveClauseContainer.bestQueueHeuristics Examples.split1
       (Clause.inference (Examples.heap cl)) = Some i ->
     exists s',
       PredicateSplitPassiveClauseContainer.add Examples.heap cl Examples.split1 = Some s' /\
       length (PredicateSplitPassiveClauseContainer._queues s')
       = length (PredicateSplitPassiveClauseContainer._queues Examples.split1) /\
       forall j q,
         PredicateSplitPassiveClauseContainer._queues Examples.split1 !! j = Some q ->
         PredicateSplitPassiveClauseContainer._queues s' !! j
         = Some (if decide (i <= j)%nat then q_add cl q else q)) /\
  (forall cl j q,
     PredicateSplitPassiveClauseContainer._queues Examples.split1 !! j = Some q ->
     cl ∈ q_elements q ->
     exists b,
       PredicateSplitPassiveClauseContainer.bestQueueHeuristics Examples.split1
         (Clause.inference (Examples.heap cl)) = Some b /\ (b <= j)%nat /\
       forall j' q', (b <= j')%nat ->
         PredicateSplitPassiveClauseContainer._queues Examples.split1 !! j' = Some q' ->
         cl ∈ q_elements q') /\
  (forall cl i,
     PredicateSplitPassiveClauseContainer.bestQueueHeuristics Examples.split1
       (Clause.inference (Examples.heap cl)) = Some i ->
     exists s',
       PredicateSplitPassiveClauseContainer.remove Examples.heap cl Examples.split1 = Some s' /\
       length (PredicateSplitPassiveClauseContainer._queues s')
       = length (PredicateSplitPassiveClauseContainer._queues Examples.split1) /\
       forall j q,
         PredicateSplitPassiveClauseContainer._queues Examples.split1 !! j = Some q ->
         PredicateSplitPassiveClauseContainer._queues s' !! j
         = Some (if decide (i <= j)%nat then q_remove cl q else q)).
Proof.
  apply (split_queue_coverage (H0 := fifo_queue_laws) Examples.heap true Examples.opt
           [4; 1] [Float32.half; Float32.one] Examples.split0 Examples.split1).
  - reflexivity.
  - eapply rtc_l; [|apply rtc_refl].
    apply (PredicateSplitPassiveClauseContainer.step_add Examples.heap false 3%positive).
    reflexivity.
Defined.

(** ** Predicate split: selection *)

Section SelectionFacts.

Import MachInt PredicateSplitPassiveClauseContainer.

Context {Q : Type} `{InnerQueueLaws Q}.

Lemma wrap_unsigned_range (z : Z) : unsigned_range (wrap_unsigned z).
Proof. unfold unsigned_range, wrap_unsigned. apply Z.mod_pos_bound. lia. Qed.







End SelectionFacts.



(** On the example the pop picks queue 0 by balance, finds it empty, and
    takes clause 3 from queue 1. *)
Example popSelected_example :
  (fun '(cl, s) => (cl, PredicateSplitPassiveClauseContainer._balances s,
                    PredicateSplitPassiveClauseContainer.events s))
    <$> PredicateSplitPassiveClauseContainer.popSelected Examples.split1
  = Some (3%positive, [1; 0], [addedEvent 3; selectedEvent 3]%positive).
Proof. vm_compute. reflexivity. Qed.

(** * Further properties *)

(** ** Unprocessed: batches and teardown *)

Section UnprocessedMoreFacts.

Import UnprocessedClauseContainer.

(** X1. A clause added to an Unprocessed container is what the next [pop]
    returns, and the pop leaves the deque as it was before the [add]; the
    two calls leave exactly an [addedEvent] and a [selectedEvent] behind. *)
Theorem unprocessed_add_then_pop (c : ClausePtr) (s : t) :
  pop (add c s)
  = Some (c, {| _data := _data s;
                events := events s ++ [addedEvent c; selectedEvent c] |}).
Proof.
  unfold pop, add, push_back. simpl. rewrite pop_back_snoc.
  by rewrite <- app_assoc.
Qed.

Lemma unprocessed_addClauses_spec (cit : list ClausePtr) :
  forall s : t,
    _data (addClauses cit s) = _data s ++ cit /\
    events (addClauses cit s) = events s ++ (addedEvent <$> cit).
Proof.
  induction cit as [|c cit IH]; intros s; simpl.
  - by rewrite !app_nil_r.
  - destruct (IH (add c s)) as [-> ->]. simpl. unfold push_back.
    by rewrite <- !app_assoc.
Qed.

Lemma unprocessed_pops_spec (l : list ClausePtr) :
  forall (d : list ClausePtr) (s : t),
    _data s = d ++ l ->
    run (pops (length l)) s
    = Some (reverse l, {| _data := d;
                          events := events s ++ (selectedEvent <$> reverse l) |}).
Proof.
  induction l as [|x l IH] using rev_ind; intros d s Hd.
  - simpl. rewrite app_nil_r in *. destruct s. simpl in *. by subst.
  - rewrite length_app, Nat.add_comm. simpl.
    unfold pop. rewrite Hd, app_assoc, pop_back_snoc.
    fold (pops (length l)). rewrite (IH d) by done. simpl.
    rewrite reverse_app. simpl. by rewrite <- app_assoc.
Qed.

(** X2. After a batch of clauses is added with [addClauses], popping as many
    times as the batch is long returns the batch in reverse order and leaves
    the deque as it was before the batch; the log gains the [addedEvent]s in
    batch order and then the [selectedEvent]s in reverse order. *)
Theorem unprocessed_addClauses_then_pops (cit : list ClausePtr) (s : t) :
  run (pops (length cit)) (addClauses cit s)
  = Some (reverse cit,
          {| _data := _data s;
             events := events s ++ (addedEvent <$> cit)
                       ++ (selectedEvent <$> reverse cit) |}).
Proof.
  destruct (unprocessed_addClauses_spec cit s) as [Hd He].
  rewrite (unprocessed_pops_spec cit (_data s)) by done.
  by rewrite He, <- app_assoc.
Qed.

Lemma destructorLoop_spec (n : nat) :
  forall (d : list ClausePtr) (st : Stores),
    (length d <= n)%nat ->
    (destructorLoop n d st).1 = [] /\
    forall c, (destructorLoop n d st).2 c = if decide (c ∈ d) then NONE else st c.
Proof.
  induction n as [|n IH]; intros d st Hlen; simpl.
  - destruct d; [|simpl in Hlen; lia]. split; [done|]. intros c.
    by rewrite decide_False by apply not_elem_of_nil.
  - destruct (pop_back d) as [[cl d']|] eqn:Hpop.
    + apply pop_back_Some in Hpop. subst d.
      rewrite length_app in Hlen. simpl in Hlen.
      destruct (IH d' (setStore cl NONE st)) as [H1 H2]; [lia|].
      split; [done|]. intros c. rewrite H2. unfold setStore.
      destruct (decide (c ∈ d')), (decide (c = cl)), (decide (c ∈ d' ++ [cl]));
        try done; set_solver.
    + destruct d as [|x d]; [|by destruct (pop_back_nonempty (x :: d)) as (? & ? & ?); [done|congruence]].
      split; [done|]. intros c. by rewrite decide_False by apply not_elem_of_nil.
Qed.

(** X3. The destructor empties the deque, sets the store of every clause
    that was in it to [NONE], leaves the store of every other clause alone,
    and fires no event. *)
Theorem unprocessed_destructor (s : t) (st : Stores) :
  _data (destructor s st).1 = [] /\
  events (destructor s st).1 = events s /\
  forall c, (destructor s st).2 c = if decide (c ∈ _data s) then NONE else st c.
Proof.
  unfold destructor.
  destruct (destructorLoop_spec (length (_data s)) (_data s) st) as [H1 H2]; [done|].
  destruct (destructorLoop _ _ _) as [d st']. simpl in *. done.
Qed.

End UnprocessedMoreFacts.

(** ** Active: the discard pass and the index *)

Section ActiveMoreFacts.

Import MachInt ActiveClauseContainer.

Lemma visit_frame (mem : Heap) (ageLimit weightLimit : Z) (cl : ClausePtr) (s s' : t) :
  visit mem ageLimit weightLimit cl s = Some s' ->
  _size s' = _size s /\ events s' = events s.
Proof.
  unfold visit. destruct (_ || _); [by intros [= <-]|].
  destruct (shouldRemove _ _ _) as [[]|]; [| |done]; by intros [= <-].
Qed.

Lemma walk_frame (mem : Heap) (ageLimit weightLimit : Z) (rit : list ClausePtr) :
  forall s s' : t,
    walk mem ageLimit weightLimit rit s = Some s' ->
    _size s' = _size s /\ events s' = events s.
Proof.
  induction rit as [|cl rit IH]; intros s s'; simpl.
  - by intros [= <-].
  - destruct (visit mem ageLimit weightLimit cl s) as [s1|] eqn:Hv; [|done].
    intros Hw. apply IH in Hw as [-> ->]. by apply visit_frame in Hv.
Qed.

(** An instance of [onLimitsUpdated_no_pass]: a weight limit that is not in
    force. *)
Lemma onLimitsUpdated_no_pass_witness :
  onLimitsUpdated Examples.heap (Some Examples.index)
    {| Limits.ageLimited := true; Limits.weightLimited := false;
       Limits.ageLimit := 10; Limits.weightLimit := 50 |}
    LIMITS_TIGHTENED Examples.active = Some Examples.active.
Proof.
  apply (onLimitsUpdated_no_pass Examples.heap (Some Examples.index)
           {| Limits.ageLimited := true; Limits.weightLimited := false;
              Limits.ageLimit := 10; Limits.weightLimit := 50 |}
           LIMITS_TIGHTENED Examples.active).
  right. right. right. reflexivity.
Defined.

Lemma collected_elem_of (mem : Heap) (ageLimit weightLimit : Z) (rit : list ClausePtr)
    (cl : ClausePtr) :
  cl ∈ collected mem ageLimit weightLimit rit
  <-> cl ∈ rit /\ discardb (mem cl) ageLimit weightLimit = true.
Proof.
  unfold collected. rewrite list_elem_of_filter, elem_of_first_occurrences. set_solver.
Qed.

Lemma collected_NoDup (mem : Heap) (ageLimit weightLimit : Z) (rit : list ClausePtr) :
  NoDup (collected mem ageLimit weightLimit rit).
Proof. apply NoDup_filter, NoDup_first_occurrences. Qed.

(** X5. What a TIGHTENED pass discards depends only on which clauses the
    index enumerates, not on the order of the enumeration nor on how often a
    clause is listed: two enumerations of the same clauses lead to the same
    [removedEvent]s up to their order, the same size and the same discard
    counter. *)
Theorem active_discard_order_independent (mem : Heap) (rit rit' : list ClausePtr)
    (limits : Limits.t) (s : t) :
  Limits.ageLimited limits = true ->
  Limits.weightLimited limits = true ->
  (forall cl, cl ∈ rit -> clause_ok (mem cl)) ->
  (forall cl, cl ∈ rit <-> cl ∈ rit') ->
  exists (s1 s2 : t) (l1 l2 : list ClausePtr),
    onLimitsUpdated mem (Some rit) limits LIMITS_TIGHTENED s = Some s1 /\
    onLimitsUpdated mem (Some rit') limits LIMITS_TIGHTENED s = Some s2 /\
    events s1 = events s ++ (removedEvent <$> l1) /\
    events s2 = events s ++ (removedEvent <$> l2) /\
    l1 ≡ₚ l2 /\
    _size s1 = _size s2 /\
    discardedNonRedundantClauses s1 = discardedNonRedundantClauses s2.
Proof.
  intros Ha Hw Hok Hsame.
  assert (forall cl, cl ∈ rit' -> clause_ok (mem cl)) as Hok'
    by (intros cl Hcl; by apply Hok, Hsame).
  set (al := Limits.ageLimit limits). set (wl := Limits.weightLimit limits).
  destruct (onLimitsUpdated_tightened mem rit limits s Ha Hw Hok) as (t1 & Hw1 & _ & Hr1).
  destruct (onLimitsUpdated_tightened mem rit' limits s Ha Hw Hok') as (t2 & Hw2 & _ & Hr2).
  apply walk_frame in Hw1 as Hf1. apply walk_frame in Hw2 as Hf2.
  destruct (walk_spec mem al wl rit Hok (reset s)) as (t1' & Hw1' & _ & _ & Hd1 & _).
  destruct (walk_spec mem al wl rit' Hok' (reset s)) as (t2' & Hw2' & _ & _ & Hd2 & _).
  unfold al, wl in *. rewrite Hw1 in Hw1'. rewrite Hw2 in Hw2'.
  injection Hw1' as <-. injection Hw2' as <-.
  destruct Hf1 as [Hs1 He1], Hf2 as [Hs2 He2]. simpl in *.
  destruct (removeLoop_spec (reverse (collected mem al wl rit)) t1) as (E1 & E2 & E3 & _).
  destruct (removeLoop_spec (reverse (collected mem al wl rit')) t2) as (F1 & F2 & F3 & _).
  assert (collected mem al wl rit ≡ₚ collected mem al wl rit') as Hperm.
  { apply NoDup_Permutation; try apply collected_NoDup.
    intros cl. rewrite !collected_elem_of, Hsame. done. }
  eexists _, _, (reverse (collected mem al wl rit)), (reverse (collected mem al wl rit')).
  split; [exact Hr1|]. split; [exact Hr2|].
  fold al wl. rewrite E1, F1, E2, F2, E3, F3, He1, He2, Hs1, Hs2, Hd1, Hd2.
  rewrite !length_reverse, (Permutation_length Hperm).
  repeat split; try done. by rewrite !reverse_Permutation.
Qed.

(** An instance: the example index and a reordering of it without the
    repetition. *)
Lemma active_discard_order_independent_witness :
  exists (s1 s2 : t) (l1 l2 : list ClausePtr),
    onLimitsUpdated Examples.heap (Some Examples.index) Examples.limits
      LIMITS_TIGHTENED Examples.active = Some s1 /\
    onLimitsUpdated Examples.heap (Some [4; 2; 1; 3]%positive) Examples.limits
      LIMITS_TIGHTENED Examples.active = Some s2 /\
    events s1 = events Examples.active ++ (removedEvent <$> l1) /\
    events s2 = events Examples.active ++ (removedEvent <$> l2) /\
    l1 ≡ₚ l2 /\
    _size s1 = _size s2 /\
    discardedNonRedundantClauses s1 = discardedNonRedundantClauses s2.
Proof.
  apply (active_discard_order_independent Examples.heap Examples.index
           [4; 2; 1; 3]%positive Examples.limits Examples.active).
  - reflexivity.
  - reflexivity.
  - intros cl _. apply examples_heap_ok.
  - intros cl. unfold Examples.index. rewrite !elem_of_cons, !elem_of_nil. tauto.
Defined.

End ActiveMoreFacts.

(** ** Predicate split: arithmetic and option strings *)

Section ArithmeticFacts.

Import MachInt PredicateSplitPassiveClauseContainer.

(** X6. On [int] arguments other than [(-1, INT_MIN)] and [(INT_MIN, -1)]
    -- the two on which a remainder [INT_MIN % -1], undefined in C++, comes
    up -- [computeGCD] returns the greatest common divisor up to sign,
    negative arguments included.  On such arguments the remainder taken is
    defined, and the recursive call [computeGCD(b % a, a)] is again on such
    arguments. *)
Theorem computeGCD_abs (a b : Z) :
  in_int a -> in_int b ->
  ~ (a = -1 /\ b = INT_MIN) -> ~ (a = INT_MIN /\ b = -1) ->
  Z.abs (computeGCD a b) = Z.gcd a b /\
  (a <> 0 ->
   in_int (Z.rem b a) /\
   ~ (Z.rem b a = -1 /\ a = INT_MIN) /\ ~ (Z.rem b a = INT_MIN /\ a = -1)).
Proof.
  intros Ha Hb Hn1 Hn2. split.
  - clear. funelim (computeGCD a b).
    + subst a. symmetry. apply Z.gcd_0_l.
    + rewrite H, (Z.gcd_comm (Z.rem b a) a).
      rewrite <- (Z.gcd_add_mult_diag_r a (Z.rem b a) (Z.quot b a)).
      f_equal. pose proof (Z.quot_rem' b a). lia.
  - intros Hnz. unfold in_int, INT_MIN, INT_MAX in *.
    pose proof (Z.rem_bound_abs b a Hnz) as Habs.
    pose proof (Z.rem_sign_mul b a Hnz) as Hsign.
    pose proof (Z.quot_rem' b a) as Hqr.
    split; [lia|]. split; [|lia].
    intros [Hr Hmin]. apply Hn2. split; [done|].
    rewrite Hr, Hmin in *. nia.
Qed.

(** An instance with a negative argument: [computeGCD(-4, 6)] is [2]. *)
Lemma computeGCD_abs_witness :
  Z.abs (computeGCD (-4) 6) = Z.gcd (-4) 6 /\
  in_int (Z.rem 6 (-4)) /\
  ~ (Z.rem 6 (-4) = -1 /\ -4 = INT_MIN) /\ ~ (Z.rem 6 (-4) = INT_MIN /\ -4 = -1).
Proof.
  refine ((fun H => conj (proj1 H) (proj2 H _))
            (computeGCD_abs (-4) 6 _ _ _ _)).
  - discriminate.
  - unfold in_int, INT_MIN, INT_MAX. lia.
  - unfold in_int, INT_MIN, INT_MAX. lia.
  - intros [H _]. discriminate H.
  - intros [_ H]. discriminate H.
Defined.

(** X7. On [int] arguments whose product, as an [int], is not [INT_MIN],
    nothing [computeLCM] evaluates is [INT_MIN / -1] or [INT_MIN % -1]: the
    arguments are not one of the two pairs [computeGCD] is undefined on.
    There [computeLCM] divides by zero exactly when both arguments are 0,
    and on positive arguments whose product fits in an [int] it returns
    their least common multiple. *)
Theorem computeLCM_cases (a b : Z) :
  in_int a -> in_int b -> wrap_int (a * b) <> INT_MIN ->
  (~ (a = -1 /\ b = INT_MIN) /\ ~ (a = INT_MIN /\ b = -1)) /\
  (computeLCM a b = None <-> a = 0 /\ b = 0) /\
  (0 < a -> 0 < b -> a * b <= INT_MAX -> computeLCM a b = Some (Z.lcm a b)).
Proof.
  intros Ha Hb Hprod. split; [|split].
  - split; intros [-> ->]; apply Hprod; reflexivity.
  - unfold computeLCM. destruct (Z.eqb_spec (computeGCD a b) 0) as [E|E].
    + split; [intros _; by apply computeGCD_zero|done].
    + split; [done|]. intros [-> ->]. by simp computeGCD in E.
  - intros Ha' Hb' Hfit. by destruct (computeLCM_lcm a b Ha' Hb' Hfit).
Qed.

(** An instance: [computeLCM(4, 6)] is [12]. *)
Lemma computeLCM_cases_witness :
  (~ (4 = -1 /\ 6 = INT_MIN) /\ ~ (4 = INT_MIN /\ 6 = -1)) /\
  (computeLCM 4 6 = None <-> 4 = 0 /\ 6 = 0) /\
  computeLCM 4 6 = Some (Z.lcm 4 6).
Proof.
  refine ((fun H => conj (proj1 H)
                      (conj (proj1 (proj2 H)) (proj2 (proj2 H) _ _ _)))
            (computeLCM_cases 4 6 _ _ _)).
  - lia.
  - lia.
  - unfold INT_MAX. lia.
  - unfold in_int, INT_MIN, INT_MAX. lia.
  - unfold in_int, INT_MIN, INT_MAX. lia.
  - vm_compute. discriminate.
Defined.

Lemma append_nil_l (s : string) : EmptyString +:+ s = s.
Proof. reflexivity. Qed.

Lemma append_cons (c : ascii) (s1 s2 : string) :
  String c s1 +:+ s2 = String c (s1 +:+ s2).
Proof. reflexivity. Qed.

Lemma string_app_assoc (s1 s2 s3 : string) :
  (s1 +:+ s2) +:+ s3 = s1 +:+ (s2 +:+ s3).
Proof.
  induction s1 as [|c s1 IH]; [done|]. by rewrite !append_cons, IH.
Qed.

Lemma string_app_empty_r (s : string) : s +:+ EmptyString = s.
Proof. induction s as [|c s IH]; [done|]. by rewrite append_cons, IH. Qed.

Lemma getlineLoop_token (t : string) :
  forall (current rest : string),
    has_comma t = false ->
    getlineLoop current (t +:+ String ","%char rest)
    = (current +:+ t) :: getlines rest.
Proof.
  induction t as [|c t IH]; intros current rest Hc.
  - rewrite append_nil_l, string_app_empty_r. simpl. by destruct rest.
  - simpl in Hc. apply orb_false_elim in Hc as [Hc1 Hc2].
    rewrite append_cons. simpl. rewrite Hc1.
    rewrite IH by done. by rewrite string_app_assoc.
Qed.

Lemma getlineLoop_last (t : string) :
  forall current : string,
    has_comma t = false -> getlineLoop current t = [current +:+ t].
Proof.
  induction t as [|c t IH]; intros current Hc; simpl in *.
  - by rewrite string_app_empty_r.
  - apply orb_false_elim in Hc as [Hc1 Hc2]. rewrite Hc1.
    rewrite IH by done. by rewrite string_app_assoc.
Qed.

Lemma getlines_token (t rest : string) :
  has_comma t = false ->
  getlines (t +:+ String ","%char rest) = t :: getlines rest.
Proof.
  intros Hc. unfold getlines at 1.
  destruct (t +:+ String ","%char rest) eqn:E.
  - by destruct t.
  - rewrite <- E. by rewrite getlineLoop_token.
Qed.

(** X8. The [std::getline] loop takes a comma-separated string apart into
    its tokens: the tokens of [t1,t2,...,tn] are [t1, ..., tn] when no token
    holds a comma and the last token is not empty.  One trailing comma
    is ignored: [t1,...,tn,] has the same tokens, even with an empty [tn]. *)
Theorem getlines_joinTokens (tokens : list string) :
  tokens <> [] ->
  Forall (fun t => has_comma t = false) tokens ->
  (last tokens <> Some EmptyString -> getlines (joinTokens tokens) = tokens) /\
  getlines (joinTokens tokens +:+ ",") = tokens.
Proof.
  intros Hne Hall. induction Hall as [|t rest Ht Hrest IH]; [done|].
  destruct rest as [|t2 rest].
  - simpl joinTokens. split.
    + intros Hlast. destruct t as [|c t]; [done|].
      unfold getlines. by rewrite getlineLoop_last.
    + change (t +:+ ",") with (t +:+ String ","%char EmptyString).
      by rewrite getlines_token.
  - destruct IH as [IH1 IH2]; [done|].
    change (joinTokens (t :: t2 :: rest))
      with (t +:+ String ","%char (joinTokens (t2 :: rest))).
    split.
    + intros Hlast. rewrite getlines_token by done. f_equal. by apply IH1.
    + rewrite string_app_assoc, append_cons.
      rewrite getlines_token by done. f_equal. exact IH2.
Qed.

Lemma getlines_joinTokens_witness :
  (last ["4"; "1"] <> Some EmptyString -> getlines (joinTokens ["4"; "1"]) = ["4"; "1"]) /\
  getlines (joinTokens ["4"; "1"] +:+ ",") = ["4"; "1"].
Proof.
  apply (getlines_joinTokens ["4"; "1"]).
  - discriminate.
  - repeat constructor.
Defined.

End ArithmeticFacts.

(** ** Predicate split: what the constructor establishes *)

Section ConstructedFacts.

Import Float32 MachInt PredicateSplitPassiveClauseContainer.

Context {Q : Type} `{InnerQueueLaws Q}.

Lemma initQueues_isEmpty (opt : Options.t) (cs : list float) (rs : list Z) :
  forallb q_isEmpty (initQueues (Q := Q) opt cs rs) = true.
Proof.
  apply forallb_forall. intros q Hq. apply list_elem_of_In in Hq.
  apply list_elem_of_lookup in Hq as [j Hj].
  apply q_isEmpty_elements. by eapply initQueues_lookup.
Qed.

(** X9. Construction from the parsed values yields a container exactly
    when no configuration rule is broken.  The container it yields has one
    queue per ratio, all of them empty, all balances 0, and no event
    fired. *)
Theorem construct_succeeds_iff_valid (isOutermost : bool) (opt : Options.t)
    (rs : list Z) (cs : list float) :
  ((exists s0 : t, construct isOutermost opt rs cs = Some (inr s0))
   <-> ~ configViolation rs cs) /\
  (forall s0 : t,
     construct isOutermost opt rs cs = Some (inr s0) ->
     length (_queues s0) = length rs /\
     isEmpty s0 = true /\
     Forall (fun b => b = 0) (_balances s0) /\
     events s0 = []).
Proof.
  split; [split|].
  - intros [s0 Hs0] Hviol.
    apply (construct_config_error (Q := Q) isOutermost opt) in Hviol as [msg Hmsg].
    congruence.
  - intros Hvalid.
    destruct (construct_defined (Q := Q) isOutermost opt rs cs) as [[[msg|]|s0] Hres].
    + destruct Hvalid. apply (construct_config_error (Q := Q) isOutermost opt). eauto.
    + exfalso. revert Hres. unfold construct.
      repeat (match goal with |- context [if ?b then _ else _] => destruct b end; try done).
      all: repeat (match goal with |- context [match ?x with _ => _ end] => destruct x end; try done).
    + eauto.
  - intros s0 Hs0.
    destruct (construct_inr _ _ _ _ _ Hs0) as (_ & _ & _ & _ & _ & _ & _ & _ & Hq & Hb & _ & He).
    repeat split; try done.
    + rewrite Hq. unfold initQueues. by rewrite length_fmap, length_seq.
    + unfold isEmpty. rewrite Hq. apply initQueues_isEmpty.
    + rewrite Hb. apply Forall_fmap, Forall_true. done.
Qed.

Lemma constructed_lengths (mem : Heap) (lrs isOutermost : bool)
    (opt : Options.t) (rs : list Z) (cs : list float) (s0 s : t) :
  construct isOutermost opt rs cs = Some (inr s0) ->
  reachable mem lrs s0 s ->
  (2 <= length rs)%nat /\
  length (_queues s) = length rs /\
  length (_ratios s) = length rs /\
  length (_cutoffs s) = length rs /\
  length (_balances s) = length rs.
Proof.
  intros Hc Hreach.
  destruct (construct_inr _ _ _ _ _ Hc)
    as (H2 & Hlen & _ & _ & (lcm & _ & Hr) & _ & _ & Hcs & Hq & Hb & _).
  apply reachable_static in Hreach as (-> & -> & _ & _ & -> & ->).
  rewrite Hr, Hcs, Hq, Hb. unfold initRatios, initQueues.
  by rewrite !length_fmap, length_seq.
Qed.

(** X10. In every state a constructed container can reach, by any calls,
    the vectors of queues, internal ratios, cutoffs and balances have the
    length of the ratio list, which is at least 2. *)
Theorem reachable_vector_lengths (mem : Heap) (lrs isOutermost : bool)
    (opt : Options.t) (rs : list Z) (cs : list float) (s0 s : t) :
  construct isOutermost opt rs cs = Some (inr s0) ->
  reachable mem lrs s0 s ->
  (2 <= length rs)%nat /\
  length (_queues s) = length rs /\
  length (_ratios s) = length rs /\
  length (_cutoffs s) = length rs /\
  length (_balances s) = length rs.
Proof. apply constructed_lengths. Qed.

(** X11. When the ratios are small enough for [computeLCM] not to overflow,
    the internal weights are exact and positive: in every reachable state
    [w_i * r_i] is the least common multiple of all the ratios, for every
    queue [i], and [w_i >= 1]. *)
Theorem internal_weights_exact (mem : Heap) (lrs isOutermost : bool)
    (opt : Options.t) (rs : list Z) (cs : list float) (s0 s : t) :
  construct isOutermost opt rs cs = Some (inr s0) ->
  product rs <= INT_MAX ->
  reachable mem lrs s0 s ->
  forall i r w,
    rs !! i = Some r -> _ratios s !! i = Some w ->
    w * r = lcmAll rs /\ 1 <= w.
Proof.
  intros Hc Hfit Hreach i r w Hr Hw.
  apply reachable_static in Hreach as (Hrat & _).
  rewrite Hrat, (construct_ratios _ _ _ _ _ Hc Hfit) in Hw.
  unfold internalWeights in Hw. rewrite list_lookup_fmap, Hr in Hw.
  injection Hw as <-.
  destruct (construct_inr _ _ _ _ _ Hc) as (_ & _ & Hpos & _).
  assert (0 < r) as Hrpos
    by (eapply (proj1 (Forall_forall _ _) Hpos), list_elem_of_lookup_2, Hr).
  destruct (lcmAll_divide rs r) as [k Hk]; [by eapply list_elem_of_lookup_2|].
  destruct (lcmLoop_spec rs 1) as [_ [Hlpos _]]; [lia|done|lia|].
  fold (lcmAll rs) in Hlpos.
  rewrite Hk, Z.div_mul by lia. split; [done|]. nia.
Qed.

Lemma bestQueue_lt_length (mem : Heap) (lrs isOutermost : bool)
    (opt : Options.t) (rs : list Z) (cs : list float) (s0 s : t)
    (inf : Inference.t) (i : nat) :
  construct isOutermost opt rs cs = Some (inr s0) ->
  reachable mem lrs s0 s ->
  bestQueueHeuristics s inf = Some i ->
  (i < length (_queues s))%nat.
Proof.
  intros Hc Hreach Hi.
  destruct (constructed_lengths _ _ _ _ _ _ _ _ Hc Hreach) as (_ & -> & _ & Hlc & _).
  unfold bestQueueHeuristics in Hi.
  apply cutoffLoop_Some in Hi as (_ & (c & Hc' & _) & _).
  apply lookup_lt_Some in Hc'. lia.
Qed.

(** X12. The index [bestQueueHeuristics] returns on a constructed container
    is the index of an existing queue. *)
Theorem bestQueueHeuristics_in_range (mem : Heap) (lrs isOutermost : bool)
    (opt : Options.t) (rs : list Z) (cs : list float) (s0 s : t)
    (inf : Inference.t) (i : nat) :
  construct isOutermost opt rs cs = Some (inr s0) ->
  reachable mem lrs s0 s ->
  bestQueueHeuristics s inf = Some i ->
  (i < length (_queues s))%nat.
Proof. apply bestQueue_lt_length. Qed.

(** X13. With fade-in enabled, an inference with at most two theory
    ancestors is dispatched to queue 0 of a constructed container, whatever
    its total number of ancestors. *)
Theorem fade_in_young_to_first_queue (mem : Heap) (lrs isOutermost : bool)
    (opt : Options.t) (rs : list Z) (cs : list float) (s0 s : t)
    (inf : Inference.t) :
  construct isOutermost opt rs cs = Some (inr s0) ->
  reachable mem lrs s0 s ->
  Options.splitQueueFadeIn (_opt s) = true ->
  leb (Inference.th_ancestors inf) two = true ->
  bestQueueHeuristics s inf = Some O.
Proof.
  intros Hc Hreach Hfade Hth.
  destruct (constructed_lengths _ _ _ _ _ _ _ _ Hc Hreach) as (H2 & _ & _ & Hlc & _).
  destruct (construct_inr _ _ _ _ _ Hc) as (_ & _ & _ & Hunit & _ & _ & _ & Hcs & _).
  apply reachable_static in Hreach as (_ & Hcut & _).
  unfold bestQueueHeuristics, niceness. rewrite Hfade, Hth, Hcut, Hcs.
  rewrite Hcut, Hcs in Hlc.
  destruct cs as [|c cs]; [simpl in Hlc; lia|].
  apply Forall_cons in Hunit as [[Hc0 _] _]. simpl. by rewrite Hc0.
Qed.

End ConstructedFacts.

Section NanFacts.

Import Float32 PredicateSplitPassiveClauseContainer.

Context {Q : Type}.

Lemma cutoffLoop_nan (n : float) (cs : list float) :
  is_nan n = true -> forall i : nat, cutoffLoop n cs i = None.
Proof.
  intros Hn i. apply cutoffLoop_None. intros c _.
  destruct (leb n c) eqn:E; [|done]. apply leb_not_nan_l in E. congruence.
Qed.

(** X14. When the niceness of an inference is not a number -- as for an
    inference with no ancestors counted at all, 0/0, with fade-in disabled --
    no cutoff admits it and [bestQueueHeuristics] runs off its end without
    returning, in every container. *)
Theorem bestQueueHeuristics_nan (s : t (Q := Q)) (inf : Inference.t) :
  is_nan (niceness (_opt s) inf) = true ->
  bestQueueHeuristics s inf = None.
Proof. intros Hn. unfold bestQueueHeuristics. by apply cutoffLoop_nan. Qed.

End NanFacts.

Lemma reachable_vector_lengths_witness :
  (2 <= length [4; 1])%nat /\
  length (PredicateSplitPassiveClauseContainer._queues Examples.split1) = length [4; 1] /\
  length (PredicateSplitPassiveClauseContainer._ratios Examples.split1) = length [4; 1] /\
  length (PredicateSplitPassiveClauseContainer._cutoffs Examples.split1) = length [4; 1] /\
  length (PredicateSplitPassiveClauseContainer._balances Examples.split1) = length [4; 1].
Proof.
  apply (reachable_vector_lengths Examples.heap false true
           Examples.opt [4; 1] [Float32.half; Float32.one] Examples.split0 Examples.split1).
  - reflexivity.
  - eapply rtc_l; [|apply rtc_refl].
    apply (PredicateSplitPassiveClauseContainer.step_add Examples.heap false 3%positive).
    reflexivity.
Defined.

Lemma internal_weights_exact_witness :
  1 * 4 = PredicateSplitPassiveClauseContainer.lcmAll [4; 1] /\ 1 <= 1.
Proof.
  refine (internal_weights_exact Examples.heap false true
            Examples.opt [4; 1] [Float32.half; Float32.one] Examples.split0 Examples.split1
            _ _ _ O 4 1 _ _).
  - reflexivity.
  - vm_compute. discriminate.
  - eapply rtc_l; [|apply rtc_refl].
    apply (PredicateSplitPassiveClauseContainer.step_add Examples.heap false 3%positive).
    reflexivity.
  - reflexivity.
  - reflexivity.
Defined.

Lemma bestQueueHeuristics_in_range_witness :
  (1 < length (PredicateSplitPassiveClauseContainer._queues Examples.split1))%nat.
Proof.
  apply (bestQueueHeuristics_in_range Examples.heap false true
           Examples.opt [4; 1] [Float32.half; Float32.one] Examples.split0 Examples.split1
           (Examples.inf 9 10) 1).
  - reflexivity.
  - eapply rtc_l; [|apply rtc_refl].
    apply (PredicateSplitPassiveClauseContainer.step_add Examples.heap false 3%positive).
    reflexivity.
  - reflexivity.
Defined.

Lemma construct_succeeds_iff_valid_witness :
  ((exists s0 : PredicateSplitPassiveClauseContainer.t (Q := FifoQueue.t),
      PredicateSplitPassiveClauseContainer.construct true Examples.opt
        [4; 1] [Float32.half; Float32.one] = Some (inr s0))
   <-> ~ PredicateSplitPassiveClauseContainer.configViolation
           [4; 1] [Float32.half; Float32.one]) /\
  (forall s0 : PredicateSplitPassiveClauseContainer.t (Q := FifoQueue.t),
     PredicateSplitPassiveClauseContainer.construct true Examples.opt
       [4; 1] [Float32.half; Float32.one] = Some (inr s0) ->
     length (PredicateSplitPassiveClauseContainer._queues s0) = length [4; 1] /\
     PredicateSplitPassiveClauseContainer.isEmpty s0 = true /\
     Forall (fun b => b = 0) (PredicateSplitPassiveClauseContainer._balances s0) /\
     PredicateSplitPassiveClauseContainer.events s0 = []).
Proof.
  exact (construct_succeeds_iff_valid (H0 := fifo_queue_laws) true Examples.opt
           [4; 1] [Float32.half; Float32.one]).
Defined.

Lemma fade_in_young_to_first_queue_witness :
  PredicateSplitPassiveClauseContainer.bestQueueHeuristics Examples.splitFadeIn
    (Examples.inf 2 2) = Some O.
Proof.
  apply (fade_in_young_to_first_queue Examples.heap false false
           Examples.optFadeIn [4; 1] [Float32.half; Float32.one]
           Examples.splitFadeIn Examples.splitFadeIn).
  - reflexivity.
  - apply rtc_refl.
  - reflexivity.
  - reflexivity.
Defined.

(** An instance: no ancestors counted, fade-in disabled. *)
Lemma bestQueueHeuristics_nan_witness :
  PredicateSplitPassiveClauseContainer.bestQueueHeuristics Examples.split1
    (Examples.inf 0 0) = None.
Proof.
  apply (bestQueueHeuristics_nan Examples.split1 (Examples.inf 0 0)).
  reflexivity.
Defined.

(** ** Predicate split: contents and events *)

Section ContentsFacts.

Import MachInt PredicateSplitPassiveClauseContainer.

Context {Q : Type} `{InnerQueueLaws Q}.

Lemma popSelected_from_nonempty (s s' : t) (cl : ClausePtr) :
  popSelected s = Some (cl, s') ->
  exists k q q',
    _queues s !! k = Some q /\ q_isEmpty q = false /\
    q_popSelected q = Some (cl, q') /\
    _queues s' = q_remove cl <$> <[k := q']> (_queues s) /\
    events s' = events s ++ [selectedEvent cl].
Proof.
  intros Hpop.
  apply popSelected_inv in Hpop as (b & w & k & q & q' & _ & _ & Hscan & Hq & Hpop & ->).
  exists k, q, q'. repeat split; try done.
  cbv zeta in Hscan.
  destruct (Nat.eqb_spec (scanRight (drop (min_element (_balances s)) (_queues s))
                            (min_element (_balances s))) (length (_queues s))) as [E|E].
  - destruct (min_element (_balances s)) as [|i]; [done|].
    apply scanLeft_Some in Hscan as (_ & (q0 & Hq0 & He) & _). congruence.
  - subst k. pose proof (lookup_lt_Some _ _ _ Hq) as Hlt.
    destruct (scanRight_spec (drop (min_element (_balances s)) (_queues s))
                (min_element (_balances s))) as ((H1 & H2) & _ & Hfound).
    rewrite length_drop in *.
    destruct Hfound as (q0 & Hq0 & He); [lia|].
    rewrite lookup_drop in Hq0.
    replace (min_element (_balances s) +
             (scanRight (drop (min_element (_balances s)) (_queues s))
                (min_element (_balances s)) - min_element (_balances s)))%nat
      with (scanRight (drop (min_element (_balances s)) (_queues s))
              (min_element (_balances s))) in Hq0 by lia.
    congruence.
Qed.

(** X15. [popSelected] on a container all of whose queues are empty does not
    return: it reads a queue that does not exist (its leftward scan passes
    index 0) -- the case the caller has to rule out. *)
Theorem popSelected_empty (s : t) :
  isEmpty s = true -> popSelected s = None.
Proof.
  intros Hemp. destruct (popSelected s) as [[cl s']|] eqn:Hpop; [|done].
  apply popSelected_from_nonempty in Hpop as (k & q & q' & Hq & He & _).
  unfold isEmpty in Hemp. rewrite forallb_forall in Hemp.
  rewrite (Hemp q) in He; [done|]. apply list_elem_of_In. by eapply list_elem_of_lookup_2.
Qed.

(** X16. The clause [popSelected] returns was held by one of the queues, and
    the pop takes exactly this clause out of every queue: each queue holds
    afterwards what it held before, less the popped clause. *)
Theorem popSelected_takes_held_clause (s s' : t) (cl : ClausePtr) :
  popSelected s = Some (cl, s') ->
  (exists k q, _queues s !! k = Some q /\ cl ∈ q_elements q) /\
  q_elements <$> _queues s' = (fun E => E ∖ {[cl]}) <$> (q_elements <$> _queues s).
Proof.
  intros Hpop.
  apply popSelected_from_nonempty in Hpop as (k & q & q' & Hq & _ & Hpop & -> & _).
  apply q_elements_pop in Hpop as [Hin Hq'].
  split; [by exists k, q|].
  apply list_eq. intros j. rewrite !list_lookup_fmap.
  destruct (decide (j = k)) as [->|Hne].
  - rewrite list_lookup_insert_eq by (by eapply lookup_lt_Some).
    rewrite Hq. simpl. f_equal. rewrite q_elements_remove, Hq'. set_solver.
  - rewrite list_lookup_insert_ne by done.
    destruct (_queues s !! j); simpl; [|done]. by rewrite q_elements_remove.
Qed.

Lemma applyFrom_twice (f g : Q -> Q) (i : nat) (qs : list Q) :
  applyFrom g i (applyFrom f i qs) = applyFrom (g ∘ f) i qs.
Proof.
  revert i. induction qs as [|q qs IH]; intros [|i]; simpl; by rewrite ?IH.
Qed.

(** X17. [add] followed by [remove] of the same clause: [remove] finds the
    same best queue [i]; afterwards every queue from [i] on holds what it
    held before the [add], less the clause, and the queues below [i] are
    untouched, so a clause that no queue held leaves the contents as they
    were.  The balances are untouched; an outermost container has fired an
    [addedEvent] and a [removedEvent], any other container nothing. *)
Theorem add_then_remove (mem : Heap) (cl : ClausePtr) (s s1 : t) :
  add mem cl s = Some s1 ->
  exists (i : nat) (s2 : t),
    bestQueueHeuristics s (Clause.inference (mem cl)) = Some i /\
    remove mem cl s1 = Some s2 /\
    (forall j,
       q_elements <$> _queues s2 !! j
       = (fun q => if decide (i <= j)%nat then q_elements q ∖ {[cl]} else q_elements q)
           <$> _queues s !! j) /\
    ((forall j q, _queues s !! j = Some q -> cl ∉ q_elements q) ->
     q_elements <$> _queues s2 = q_elements <$> _queues s) /\
    _balances s2 = _balances s /\
    events s2
    = events s ++ (if _isOutermost s then [addedEvent cl; removedEvent cl] else []).
Proof.
  intros Hadd. pose proof (step_static mem false s s1 (step_add mem false cl s s1 Hadd)) as Hst.
  unfold add in Hadd. destruct (bestQueueHeuristics s _) as [i|] eqn:Hi; [|done].
  injection Hadd as <-.
  set (s2 := let s' := set_queues (applyFrom (q_remove cl ∘ q_add cl) i (_queues s)) s in
             if _isOutermost s
             then fire (removedEvent cl) (fire (addedEvent cl) s') else s').
  assert (forall j,
            q_elements <$> _queues s2 !! j
            = (fun q => if decide (i <= j)%nat then q_elements q ∖ {[cl]} else q_elements q)
                <$> _queues s !! j) as Hper.
  { intros j. unfold s2. destruct (_isOutermost s); simpl;
      rewrite applyFrom_lookup; destruct (_queues s !! j); simpl; try done;
      f_equal; destruct (decide (i <= j)%nat); simpl; try done;
      rewrite q_elements_remove, q_elements_add; set_solver. }
  exists i, s2. split; [done|]. split; [|split; [exact Hper|split; [|split]]].
  - unfold remove. rewrite (bestQueueHeuristics_static s _ _ Hst), Hi. f_equal.
    unfold s2. destruct (_isOutermost s) eqn:Hout; simpl; rewrite ?Hout; simpl;
      by rewrite applyFrom_twice.
  - intros Hnot. apply list_eq. intros j. rewrite !list_lookup_fmap, Hper.
    destruct (_queues s !! j) as [q|] eqn:Hq; simpl; [|done]. f_equal.
    destruct (decide (i <= j)%nat); [|done]. specialize (Hnot j q Hq). set_solver.
  - unfold s2. by destruct (_isOutermost s).
  - unfold s2. destruct (_isOutermost s); simpl; [by rewrite <- app_assoc|by rewrite app_nil_r].
Qed.

(** X18. A call never takes an event back, and a container that is not the
    outermost one fires nothing but [selectedEvent]s: over any sequence of
    calls the log only grows, and for a non-outermost container every new
    entry is a [selectedEvent] (from [popSelected], which fires it regardless
    of [_isOutermost]). *)
Theorem events_discipline (mem : Heap) (lrs : bool) (s s' : t) :
  reachable mem lrs s s' ->
  exists new : list ClauseEvent,
    events s' = events s ++ new /\
    (_isOutermost s = false -> Forall is_selectedEvent new).
Proof.
  induction 1 as [s|s1 s2 s3 Hstep _ IH].
  - exists []. by rewrite app_nil_r.
  - destruct IH as (new & Hnew & Hsel).
    pose proof (step_static _ _ _ _ Hstep) as (_ & _ & _ & Hout & _).
    assert (exists l, events s2 = events s1 ++ l /\
                      (_isOutermost s1 = false -> Forall is_selectedEvent l))
      as (l & Hl & Hlsel).
    { destruct Hstep as [cl s s' Hop|cl s s' Hop|cl s s' Hop| | |s s' Hop| | | ].
      - unfold add in Hop. destruct (bestQueueHeuristics _ _); [|done].
        injection Hop as <-. destruct (_isOutermost s) eqn:E; simpl.
        + exists [addedEvent cl]. done.
        + exists []. by rewrite app_nil_r.
      - unfold remove in Hop. destruct (bestQueueHeuristics _ _); [|done].
        injection Hop as <-. destruct (_isOutermost s) eqn:E; simpl.
        + exists [removedEvent cl]. done.
        + exists []. by rewrite app_nil_r.
      - apply popSelected_from_nonempty in Hop as (k & q & q' & _ & _ & _ & _ & ->).
        exists [selectedEvent cl]. split; [done|]. intros _. by repeat constructor.
      - exists []. by rewrite app_nil_r.
      - exists []. unfold simulationHasNext. destruct (forEachOr _ _ _).
        by rewrite app_nil_r.
      - apply simulationPopSelected_real_state in Hop as (_ & _ & -> & _).
        exists []. by rewrite app_nil_r.
      - exists []. unfold setLimitsToMax. destruct (forEachOr _ _ _).
        by rewrite app_nil_r.
      - exists []. unfold setLimitsFromSimulation. destruct (forEachOr _ _ _).
        by rewrite app_nil_r.
      - exists []. by rewrite app_nil_r. }
    exists (l ++ new). rewrite Hnew, Hl, <- app_assoc. split; [done|].
    intros E. apply Forall_app. split; [by apply Hlsel|]. apply Hsel. congruence.
Qed.

Lemma construct_covered (mem : Heap) (isOutermost : bool) (opt : Options.t)
    (rs : list Z) (cs : list Float32.float) (s0 : t) :
  construct isOutermost opt rs cs = Some (inr s0) -> covered mem s0.
Proof.
  intros Hc. destruct (construct_inr _ _ _ _ _ Hc) as (_&_&_&_&_&_&_&_& Hqs &_).
  intros cl j q Hq Hin. rewrite Hqs in Hq.
  apply initQueues_lookup in Hq. set_solver.
Qed.

(** X19. After [add] the container is not empty and its last queue holds the
    added clause. *)
Theorem add_makes_nonempty (mem : Heap) (lrs isOutermost : bool)
    (opt : Options.t) (rs : list Z) (cs : list Float32.float) (s0 s s' : t)
    (cl : ClausePtr) :
  construct isOutermost opt rs cs = Some (inr s0) ->
  reachable mem lrs s0 s ->
  add mem cl s = Some s' ->
  isEmpty s' = false /\
  exists back, last (_queues s') = Some back /\ cl ∈ q_elements back.
Proof.
  intros Hc Hreach Hadd.
  apply add_queues in Hadd as (i & Hi & Hqs).
  pose proof (bestQueue_lt_length _ _ _ _ _ _ _ _ _ _ Hc Hreach Hi) as Hlt.
  destruct (lookup_lt_is_Some_2 (_queues s) (pred (length (_queues s)))) as [q Hq]; [lia|].
  assert (last (_queues s') = Some (q_add cl q)) as Hlast.
  { rewrite last_lookup, Hqs, applyFrom_length, applyFrom_lookup, Hq. simpl.
    by rewrite decide_True by lia. }
  assert (cl ∈ q_elements (q_add cl q)) as Hin by (rewrite q_elements_add; set_solver).
  split; [|eauto].
  destruct (isEmpty s') eqn:Hemp; [|done].
  unfold isEmpty in Hemp. rewrite forallb_forall in Hemp.
  assert (q_isEmpty (q_add cl q) = true) as He.
  { apply Hemp, list_elem_of_In. rewrite last_lookup in Hlast.
    by eapply list_elem_of_lookup_2. }
  apply q_isEmpty_elements in He. set_solver.
Qed.

End ContentsFacts.

Section SizeFacts.

Import PredicateSplitPassiveClauseContainer.

Context {Q : Type} `{InnerQueueLaws Q} `{InnerQueueQueries Q}.

(** X20. Without the calls through which LRS discards, the last queue of a
    constructed container holds every clause that any queue holds, and
    [sizeEstimate] reports the size estimate of that queue. *)
Theorem last_queue_holds_all (mem : Heap) (isOutermost : bool)
    (opt : Options.t) (rs : list Z) (cs : list Float32.float) (s0 s : t) :
  construct isOutermost opt rs cs = Some (inr s0) ->
  reachable mem false s0 s ->
  exists back,
    last (_queues s) = Some back /\
    sizeEstimate s = Some (q_sizeEstimate back) /\
    forall j q cl, _queues s !! j = Some q -> cl ∈ q_elements q -> cl ∈ q_elements back.
Proof.
  intros Hc Hreach.
  pose proof (reachable_covered mem s0 s Hreach (construct_covered mem _ _ _ _ _ Hc)) as Hcov.
  destruct (constructed_lengths _ _ _ _ _ _ _ _ Hc Hreach) as (H2 & Hlq & _).
  destruct (lookup_lt_is_Some_2 (_queues s) (pred (length (_queues s)))) as [back Hb]; [lia|].
  assert (last (_queues s) = Some back) as Hlast by (by rewrite last_lookup).
  exists back. split; [done|]. split; [unfold sizeEstimate; by rewrite Hlast|].
  intros j q cl Hq Hin.
  destruct (Hcov cl j q Hq Hin) as (b & _ & Hle & Hall).
  apply (Hall (pred (length (_queues s)))); [|done].
  apply lookup_lt_Some in Hq. lia.
Qed.

End SizeFacts.

(** ** Predicate split: balances *)

Section BalanceFacts.

Import MachInt PredicateSplitPassiveClauseContainer.

Context {Q : Type} `{InnerQueue Q}.

Lemma simulation_mirrors_step (n : nat) :
  forall (s s' t t' : PredicateSplitPassiveClauseContainer.t (Q := Q))
         (out : list ClausePtr),
    _simulationBalances t = _balances s ->
    _ratios t = _ratios s ->
    popSelecteds n s = Some (out, s') ->
    simulationPops n t = Some t' ->
    _simulationBalances t' = _balances s'.
Proof.
  induction n as [|n IH]; intros s s' t t' out Hb Hr; simpl.
  - by intros [= <- <-] [= <-].
  - destruct (popSelected s) as [[cl s1]|] eqn:Hpop; [|done].
    destruct (popSelecteds n s1) as [[out' s2]|] eqn:Hrest; [|done].
    intros [= <- <-].
    destruct (simulationPopSelected t) as [t1|] eqn:Hsim; [|done].
    intros Hsims.
    apply popSelected_inv in Hpop as (b & w & k & q & q' & Hb1 & Hw1 & _ & _ & _ & ->).
    apply simulationPopSelected_inv in Hsim as (b' & w' & qs' & Hb2 & Hw2 & -> & _).
    rewrite Hb, Hb1 in Hb2. rewrite Hb, Hr, Hw1 in Hw2.
    injection Hb2 as <-. injection Hw2 as <-.
    eapply (IH _ _ _ _ _ _ _ Hrest Hsims).
    Unshelve. all: simpl; by rewrite ?Hb, ?Hr.
Qed.

(** X21. The simulation rehearses the real selection: after
    [simulationInit], [n] simulated pops leave the simulation balances equal
    to the real balances after [n] real pops -- each picks the same queue by
    balance at every step, whatever the queues hold. *)
Theorem simulation_mirrors_balances (n : nat)
    (s s' sim : PredicateSplitPassiveClauseContainer.t (Q := Q)) (out : list ClausePtr) :
  popSelecteds n s = Some (out, s') ->
  simulationPops n (simulationInit s) = Some sim ->
  _simulationBalances sim = _balances s'.
Proof. intros Hp Hs. by eapply (simulation_mirrors_step n s s' (simulationInit s) sim out). Qed.

Lemma step_balances_cases (mem : Heap) (lrs : bool)
    (s s' : PredicateSplitPassiveClauseContainer.t (Q := Q)) :
  step mem lrs s s' ->
  _balances s' = _balances s \/
  exists b w,
    _balances s !! min_element (_balances s) = Some b /\
    _ratios s !! min_element (_balances s) = Some w /\
    _balances s' = <[min_element (_balances s) := wrap_unsigned (b + w)]> (_balances s).
Proof.
  destruct 1 as [cl s s' Hop|cl s s' Hop|cl s s' Hop| | |s s' Hop| | | ].
  - left. unfold add in Hop.
    destruct (bestQueueHeuristics _ _); [|done]. injection Hop as <-.
    by destruct (_isOutermost s).
  - left. unfold remove in Hop.
    destruct (bestQueueHeuristics _ _); [|done]. injection Hop as <-.
    by destruct (_isOutermost s).
  - right. apply popSelected_inv in Hop as (b & w & k & q & q' & Hb & Hw & _ & _ & _ & ->).
    exists b, w. done.
  - by left.
  - left. unfold simulationHasNext. by destruct (forEachOr _ _ _).
  - left. by apply simulationPopSelected_inv in Hop as (b & w & qs' & _ & _ & -> & _).
  - left. unfold setLimitsToMax. by destruct (forEachOr _ _ _).
  - left. unfold setLimitsFromSimulation. by destruct (forEachOr _ _ _).
  - by left.
Qed.

Lemma reachable_balances_unsigned (mem : Heap) (lrs : bool)
    (s s' : PredicateSplitPassiveClauseContainer.t (Q := Q)) :
  reachable mem lrs s s' ->
  Forall unsigned_range (_balances s) -> Forall unsigned_range (_balances s').
Proof.
  induction 1 as [|s1 s2 s3 Hstep _ IH]; [done|].
  intros Hr. apply IH.
  destruct (step_balances_cases _ _ _ _ Hstep) as [->|(b & w & _ & _ & ->)]; [done|].
  apply Forall_insert; [done|apply wrap_unsigned_range].
Qed.

(** X22. The round-robin keeps the balances close together.  In a freshly
    constructed container no queue is ahead of another by more than its own
    weight ([b_i <= b_j + w_i] for all queues [i], [j]), and every call
    made in a state reached from it keeps this so, as long as the
    increment does not wrap around. *)
Theorem balances_spread_bounded (mem : Heap) (lrs isOutermost : bool)
    (opt : Options.t) (rs : list Z) (cs : list Float32.float)
    (s0 s s' : PredicateSplitPassiveClauseContainer.t (Q := Q)) :
  construct isOutermost opt rs cs = Some (inr s0) ->
  spread_bounded (_balances s0) (_ratios s0) /\
  (reachable mem lrs s0 s ->
   step mem lrs s s' ->
   no_wrap (_balances s) (_ratios s) ->
   spread_bounded (_balances s) (_ratios s) ->
   spread_bounded (_balances s') (_ratios s')).
Proof.
  intros Hc.
  destruct (construct_inr _ _ _ _ _ Hc)
    as (_ & _ & _ & _ & (lcm & _ & Hr0) & _ & _ & _ & _ & Hb0 & _).
  assert (Forall unsigned_range (_ratios s0)) as Hw0.
  { rewrite Hr0. unfold initRatios. apply Forall_fmap, Forall_true.
    intros x. apply wrap_unsigned_range. }
  assert (Forall unsigned_range (_balances s0)) as Hbr0.
  { rewrite Hb0. apply Forall_fmap, Forall_true. intros x.
    unfold unsigned_range. simpl. lia. }
  split.
  - intros i j bi bj wi Hi Hj Hwi. rewrite Hb0, list_lookup_fmap in Hi, Hj.
    destruct (rs !! i); [|done]. destruct (rs !! j); [|done].
    injection Hi as <-. injection Hj as <-.
    destruct (proj1 (Forall_forall _ _) Hw0 wi (list_elem_of_lookup_2 _ _ _ Hwi)). lia.
  - intros Hreach Hstep Hnw Hsp.
    pose proof (reachable_static _ _ _ _ Hreach) as (Hrat & _).
    pose proof (step_static _ _ _ _ Hstep) as (Hrat' & _).
    pose proof (reachable_balances_unsigned _ _ _ _ Hreach Hbr0) as Hrange.
    rewrite Hrat'.
    destruct (step_balances_cases _ _ _ _ Hstep) as [->|(b & w & Hb & Hw & ->)]; [done|].
    set (qi := min_element (_balances s)) in *.
    destruct (min_element_spec (_balances s)) as (b' & Hb' & Hmin).
    { intros E. rewrite E in Hb. done. }
    fold qi in Hb', Hmin. rewrite Hb in Hb'. injection Hb' as <-.
    assert (0 <= w) as Hwpos.
    { rewrite Hrat in Hw.
      by destruct (proj1 (Forall_forall _ _) Hw0 w (list_elem_of_lookup_2 _ _ _ Hw)). }
    assert (0 <= b) as Hbpos
      by (by destruct (proj1 (Forall_forall _ _) Hrange b (list_elem_of_lookup_2 _ _ _ Hb))).
    assert (wrap_unsigned (b + w) = b + w) as ->.
    { unfold wrap_unsigned. apply Z.mod_small. specialize (Hnw qi b w Hb Hw). lia. }
    pose proof (lookup_lt_Some _ _ _ Hb) as Hqi.
    intros i j bi bj wi Hi Hj Hwi.
    destruct (decide (i = qi)) as [->|Hi'], (decide (j = qi)) as [->|Hj'].
    + rewrite list_lookup_insert_eq in Hi, Hj by done.
      injection Hi as <-. injection Hj as <-. rewrite Hw in Hwi. injection Hwi as <-. lia.
    + rewrite list_lookup_insert_eq in Hi by done.
      rewrite list_lookup_insert_ne in Hj by done.
      injection Hi as <-. rewrite Hw in Hwi. injection Hwi as <-.
      destruct (Hmin j bj Hj). lia.
    + rewrite list_lookup_insert_ne in Hi by done.
      rewrite list_lookup_insert_eq in Hj by done. injection Hj as <-.
      specialize (Hsp i qi bi b wi Hi Hb Hwi). lia.
    + rewrite list_lookup_insert_ne in Hi, Hj by done.
      by apply (Hsp i j bi bj wi).
Qed.

Lemma forEachOr_closed_form (f : Q -> bool * Q) (qs : list Q) :
  forall acc : bool,
    forEachOr f qs acc
    = (acc || existsb (fun q => (f q).1) qs, (fun q => (f q).2) <$> qs).
Proof.
  induction qs as [|q qs IH]; intros acc; simpl.
  - by rewrite orb_false_r.
  - destruct (f q) as [curr q'] eqn:E. rewrite IH. simpl. by rewrite orb_assoc.
Qed.

(** X23. [simulationHasNext], [setLimitsToMax] and [setLimitsFromSimulation]
    call the method of every queue, also after one of them has answered
    [true]: the answer is the disjunction of the answers of all queues, and
    every queue is left in the state its own call puts it in. *)
Theorem every_queue_is_called (s : PredicateSplitPassiveClauseContainer.t (Q := Q)) :
  simulationHasNext s
  = (existsb (fun q => (q_simulationHasNext q).1) (_queues s),
     set_queues ((fun q => (q_simulationHasNext q).2) <$> _queues s) s) /\
  setLimitsToMax s
  = (existsb (fun q => (q_setLimitsToMax q).1) (_queues s),
     set_queues ((fun q => (q_setLimitsToMax q).2) <$> _queues s) s) /\
  setLimitsFromSimulation s
  = (existsb (fun q => (q_setLimitsFromSimulation q).1) (_queues s),
     set_queues ((fun q => (q_setLimitsFromSimulation q).2) <$> _queues s) s).
Proof.
  unfold simulationHasNext, setLimitsToMax, setLimitsFromSimulation.
  by rewrite !forEachOr_closed_form.
Qed.

End BalanceFacts.

Section QueryFacts.

Import PredicateSplitPassiveClauseContainer.

Context {Q : Type} `{InnerQueue Q} `{InnerQueueQueries Q}.

Lemma anyQueue_spec (p : Q -> bool) (qs : list Q) :
  anyQueue p qs = true <-> exists j q, qs !! j = Some q /\ p q = true.
Proof.
  induction qs as [|q qs IH]; simpl.
  - split; [done|]. by intros (j & q & ? & _).
  - destruct (p q) eqn:Hp.
    + split; [|done]. intros _. by exists O, q.
    + rewrite IH. split.
      * intros (j & q' & ? & ?). by exists (S j), q'.
      * intros ([|j] & q' & Hj & Hq); simpl in Hj; [congruence|]. by exists j, q'.
Qed.

(** X24. The overloads of the admission tests that take the properties of a
    clause instead of the clause answer [true] exactly when some queue from
    the best queue of the given inference through the last one accepts those
    properties. *)
Theorem fulfils_limits_of_properties
    (s : PredicateSplitPassiveClauseContainer.t (Q := Q))
    (age w numeralWeight : Z) (derivedFromGoal : bool) (inf : Inference.t) (best : nat) :
  bestQueueHeuristics s inf = Some best ->
  (exists r, fulfilsAgeLimitOf s age w numeralWeight derivedFromGoal inf = Some r /\
     (r = true <->
      exists i q, (best <= i)%nat /\ _queues s !! i = Some q /\
                  q_fulfilsAgeLimitOf age w numeralWeight derivedFromGoal inf q = true)) /\
  (exists r, fulfilsWeightLimitOf s w numeralWeight derivedFromGoal age inf = Some r /\
     (r = true <->
      exists i q, (best <= i)%nat /\ _queues s !! i = Some q /\
                  q_fulfilsWeightLimitOf w numeralWeight derivedFromGoal age inf q = true)).
Proof.
  intros Hbest. unfold fulfilsAgeLimitOf, fulfilsWeightLimitOf. rewrite Hbest.
  split; eexists; (split; [done|]); apply anyFrom_spec.
Qed.

(** X25. The container counts as age limited (weight limited) exactly when
    one of its queues does, and the children of a clause can fulfil the
    limits exactly when they can for one of the queues -- any of them, not
    only those from the best queue of the clause on. *)
Theorem limit_queries_any_queue (mem : Heap)
    (s : PredicateSplitPassiveClauseContainer.t (Q := Q))
    (cl : ClausePtr) (upperBoundNumSelLits : Z) :
  (ageLimited s = true <-> exists j q, _queues s !! j = Some q /\ q_ageLimited q = true) /\
  (weightLimited s = true
   <-> exists j q, _queues s !! j = Some q /\ q_weightLimited q = true) /\
  (childrenPotentiallyFulfilLimits mem s cl upperBoundNumSelLits = true
   <-> exists j q, _queues s !! j = Some q /\
         q_childrenPotentiallyFulfilLimits mem cl upperBoundNumSelLits q = true).
Proof. repeat split; try apply anyQueue_spec; by intros ?%anyQueue_spec. Qed.

End QueryFacts.

(** ** Instances on the example container *)

Lemma popSelected_empty_witness :
  PredicateSplitPassiveClauseContainer.popSelected Examples.split0 = None.
Proof.
  apply (popSelected_empty Examples.split0). reflexivity.
Defined.

Lemma popSelected_takes_held_clause_witness :
  exists s' : PredicateSplitPassiveClauseContainer.t (Q := FifoQueue.t),
    PredicateSplitPassiveClauseContainer.popSelected Examples.split1
    = Some (3%positive, s') /\
    (exists k q,
       PredicateSplitPassiveClauseContainer._queues Examples.split1 !! k = Some q /\
       3%positive ∈ q_elements q) /\
    q_elements <$> PredicateSplitPassiveClauseContainer._queues s'
    = (fun E => E ∖ {[3%positive]})
        <$> (q_elements <$> PredicateSplitPassiveClauseContainer._queues Examples.split1).
Proof.
  eexists. split; [reflexivity|].
  apply (popSelected_takes_held_clause (H0 := fifo_queue_laws) Examples.split1 _ 3%positive).
  reflexivity.
Defined.

Lemma add_then_remove_witness :
  exists (i : nat) (s2 : PredicateSplitPassiveClauseContainer.t (Q := FifoQueue.t)),
    PredicateSplitPassiveClauseContainer.bestQueueHeuristics Examples.split0
      (Clause.inference (Examples.heap 3%positive)) = Some i /\
    PredicateSplitPassiveClauseContainer.remove Examples.heap 3%positive Examples.split1
    = Some s2 /\
    (forall j,
       q_elements <$> PredicateSplitPassiveClauseContainer._queues s2 !! j
       = (fun q => if decide (i <= j)%nat then q_elements q ∖ {[3%positive]}
                   else q_elements q)
           <$> PredicateSplitPassiveClauseContainer._queues Examples.split0 !! j) /\
    ((forall j q,
        PredicateSplitPassiveClauseContainer._queues Examples.split0 !! j = Some q ->
        3%positive ∉ q_elements q) ->
     q_elements <$> PredicateSplitPassiveClauseContainer._queues s2
     = q_elements <$> PredicateSplitPassiveClauseContainer._queues Examples.split0) /\
    PredicateSplitPassiveClauseContainer._balances s2
    = PredicateSplitPassiveClauseContainer._balances Examples.split0 /\
    PredicateSplitPassiveClauseContainer.events s2
    = PredicateSplitPassiveClauseContainer.events Examples.split0
      ++ (if PredicateSplitPassiveClauseContainer._isOutermost Examples.split0
          then [addedEvent 3%positive; removedEvent 3%positive] else []).
Proof.
  apply (add_then_remove (H0 := fifo_queue_laws) Examples.heap 3%positive
           Examples.split0 Examples.split1).
  reflexivity.
Defined.

(** An instance: a container that is not the outermost one is given clause 3
    and pops it again; the one event it fires is the [selectedEvent]. *)
Lemma events_discipline_witness :
  exists new : list ClauseEvent,
    PredicateSplitPassiveClauseContainer.events Examples.splitFadeIn2
    = PredicateSplitPassiveClauseContainer.events Examples.splitFadeIn ++ new /\
    Forall is_selectedEvent new /\
    new = [selectedEvent 3%positive].
Proof.
  destruct (events_discipline (H0 := fifo_queue_laws) Examples.heap false
              Examples.splitFadeIn Examples.splitFadeIn2) as (new & Hnew & Hsel).
  - eapply rtc_l; [|eapply rtc_l; [|apply rtc_refl]].
    + apply (PredicateSplitPassiveClauseContainer.step_add Examples.heap false 3%positive
               Examples.splitFadeIn Examples.splitFadeIn1).
      reflexivity.
    + apply (PredicateSplitPassiveClauseContainer.step_popSelected Examples.heap false
               3%positive Examples.splitFadeIn1 Examples.splitFadeIn2).
      reflexivity.
  - exists new. split; [exact Hnew|]. split; [apply Hsel; reflexivity|].
    symmetry. exact Hnew.
Defined.

Lemma add_makes_nonempty_witness :
  PredicateSplitPassiveClauseContainer.isEmpty Examples.split1 = false /\
  exists back,
    last (PredicateSplitPassiveClauseContainer._queues Examples.split1) = Some back /\
    3%positive ∈ q_elements back.
Proof.
  apply (add_makes_nonempty (H0 := fifo_queue_laws) Examples.heap false true Examples.opt
           [4; 1] [Float32.half; Float32.one] Examples.split0 Examples.split0
           Examples.split1 3%positive).
  - reflexivity.
  - apply rtc_refl.
  - reflexivity.
Defined.

Lemma last_queue_holds_all_witness :
  exists back,
    last (PredicateSplitPassiveClauseContainer._queues Examples.split1) = Some back /\
    PredicateSplitPassiveClauseContainer.sizeEstimate Examples.split1
    = Some (q_sizeEstimate back) /\
    forall j q cl,
      PredicateSplitPassiveClauseContainer._queues Examples.split1 !! j = Some q ->
      cl ∈ q_elements q -> cl ∈ q_elements back.
Proof.
  apply (last_queue_holds_all (H0 := fifo_queue_laws) Examples.heap true Examples.opt
           [4; 1] [Float32.half; Float32.one] Examples.split0 Examples.split1).
  - reflexivity.
  - eapply rtc_l; [|apply rtc_refl].
    apply (PredicateSplitPassiveClauseContainer.step_add Examples.heap false 3%positive).
    reflexivity.
Defined.

Lemma simulation_mirrors_balances_witness :
  exists (s' sim : PredicateSplitPassiveClauseContainer.t (Q := FifoQueue.t))
         (out : list ClausePtr),
    PredicateSplitPassiveClauseContainer.popSelecteds 1 Examples.split1 = Some (out, s') /\
    PredicateSplitPassiveClauseContainer.simulationPops 1
      (PredicateSplitPassiveClauseContainer.simulationInit Examples.split1) = Some sim /\
    PredicateSplitPassiveClauseContainer._simulationBalances sim
    = PredicateSplitPassiveClauseContainer._balances s'.
Proof.
  eexists _, _, _. split; [reflexivity|]. split; [reflexivity|].
  apply (simulation_mirrors_balances 1 Examples.split1 _ _ [3%positive]).
  - reflexivity.
  - reflexivity.
Defined.

(** An instance: the pop that takes clause 3 charges queue 0 its weight, and
    the balances [1; 0] it leaves are within the bound. *)
Lemma balances_spread_bounded_witness :
  PredicateSplitPassiveClauseContainer.spread_bounded
    (PredicateSplitPassiveClauseContainer._balances Examples.split0)
    (PredicateSplitPassiveClauseContainer._ratios Examples.split0) /\
  PredicateSplitPassiveClauseContainer.spread_bounded
    (PredicateSplitPassiveClauseContainer._balances Examples.split2)
    (PredicateSplitPassiveClauseContainer._ratios Examples.split2).
Proof.
  destruct (balances_spread_bounded Examples.heap false true Examples.opt
              [4; 1] [Float32.half; Float32.one]
              Examples.split0 Examples.split1 Examples.split2) as [Hfresh Hkept].
  - reflexivity.
  - split; [exact Hfresh|]. apply Hkept.
    + eapply rtc_l; [|apply rtc_refl].
      apply (PredicateSplitPassiveClauseContainer.step_add Examples.heap false 3%positive).
      reflexivity.
    + apply (PredicateSplitPassiveClauseContainer.step_popSelected Examples.heap false
               3%positive).
      reflexivity.
    + intros [|[|i]] b w Hb Hw; simpl in Hb, Hw; try discriminate;
        injection Hb as <-; injection Hw as <-; lia.
    + exact Hfresh.
Defined.

Lemma fulfils_limits_of_properties_witness :
  (exists r,
     PredicateSplitPassiveClauseContainer.fulfilsAgeLimitOf Examples.split1
       10 52 0 false (Examples.inf 9 10) = Some r /\
     (r = true <->
      exists i q, (1 <= i)%nat /\
        PredicateSplitPassiveClauseContainer._queues Examples.split1 !! i = Some q /\
        q_fulfilsAgeLimitOf 10 52 0 false (Examples.inf 9 10) q = true)) /\
  (exists r,
     PredicateSplitPassiveClauseContainer.fulfilsWeightLimitOf Examples.split1
       52 0 false 10 (Examples.inf 9 10) = Some r /\
     (r = true <->
      exists i q, (1 <= i)%nat /\
        PredicateSplitPassiveClauseContainer._queues Examples.split1 !! i = Some q /\
        q_fulfilsWeightLimitOf 52 0 false 10 (Examples.inf 9 10) q = true)).
Proof.
  apply (fulfils_limits_of_properties Examples.split1 10 52 0 false (Examples.inf 9 10) 1).
  reflexivity.
Defined.

(** ** Predicate split: selection without LRS, and dispatch order *)

Section NoFallbackFacts.

Import Float32 MachInt PredicateSplitPassiveClauseContainer.

Context {Q : Type} `{InnerQueueLaws Q}.

(** X26. Without the calls through which LRS discards, the rightward scan of
    [popSelected] always succeeds on a constructed container: the clause is
    popped from the first non-empty queue at or to the right of the queue
    picked by balance, and the leftward fallback is never taken. *)
Theorem popSelected_no_fallback_without_lrs (mem : Heap) (isOutermost : bool)
    (opt : Options.t) (rs : list Z) (cs : list float) (s0 s s' : t) (cl : ClausePtr) :
  construct isOutermost opt rs cs = Some (inr s0) ->
  reachable mem false s0 s ->
  popSelected s = Some (cl, s') ->
  exists k q q',
    (min_element (_balances s) <= k)%nat /\
    k = scanRight (drop (min_element (_balances s)) (_queues s)) (min_element (_balances s)) /\
    _queues s !! k = Some q /\
    q_popSelected q = Some (cl, q') /\
    (forall j qj, (min_element (_balances s) <= j < k)%nat ->
                  _queues s !! j = Some qj -> q_isEmpty qj = true).
Proof.
  intros Hc Hreach Hpop.
  pose proof (reachable_covered mem s0 s Hreach (construct_covered mem _ _ _ _ _ Hc)) as Hcov.
  destruct (constructed_lengths _ _ _ _ _ _ _ _ Hc Hreach) as (H2 & Hlq & _ & _ & Hlb).
  apply popSelected_from_nonempty in Hpop as Hne.
  destruct Hne as (k0 & q0 & q0' & Hq0 & Hq0e & Hq0pop & _).
  apply q_elements_pop in Hq0pop as [Hin0 _].
  apply popSelected_inv in Hpop as (b & w & k & q & q' & Hb & _ & Hscan & Hq & Hqpop & _).
  cbv zeta in Hscan. set (qi := min_element (_balances s)) in *.
  pose proof (lookup_lt_Some _ _ _ Hb) as Hqi.
  destruct (scanRight_spec (drop qi (_queues s)) qi) as ((Hr1 & Hr2) & Hempty & _).
  rewrite length_drop in Hr2.
  assert (forall j qj, (qi <= j < scanRight (drop qi (_queues s)) qi)%nat ->
                       _queues s !! j = Some qj -> q_isEmpty qj = true) as Hempty'.
  { intros j qj Hj Hqj. apply (Hempty (j - qi)%nat qj); [lia|].
    rewrite lookup_drop. by replace (qi + (j - qi))%nat with j by lia. }
  destruct (Nat.eqb_spec (scanRight (drop qi (_queues s)) qi) (length (_queues s)))
    as [E|E].
  - (* the last queue holds the clause of the non-empty queue: a contradiction *)
    exfalso.
    destruct (lookup_lt_is_Some_2 (_queues s) (pred (length (_queues s)))) as [back Hback];
      [lia|].
    destruct (Hcov cl k0 q0 Hq0 Hin0) as (bq & _ & Hle & Hall).
    pose proof (lookup_lt_Some _ _ _ Hq0) as Hk0.
    assert (cl ∈ q_elements back) as Hinb
      by (apply (Hall (pred (length (_queues s))) back); [lia|done]).
    assert (q_isEmpty back = true) as Heb
      by (apply (Hempty' (pred (length (_queues s))) back); [lia|done]).
    apply q_isEmpty_elements in Heb. set_solver.
  - subst k. exists (scanRight (drop qi (_queues s)) qi), q, q'.
    repeat split; try done.
Qed.

End NoFallbackFacts.

Section MonotoneFacts.

Import Float32 PredicateSplitPassiveClauseContainer.

Context {Q : Type}.

(** X27. Dispatch is monotone in the niceness: an inference that is at most
    as nice as another one that has a best queue has a best queue too, at
    the same index or to the left. *)
Theorem bestQueueHeuristics_monotone (s : t (Q := Q)) (inf1 inf2 : Inference.t)
    (i2 : nat) :
  leb (niceness (_opt s) inf1) (niceness (_opt s) inf2) = true ->
  bestQueueHeuristics s inf2 = Some i2 ->
  exists i1, bestQueueHeuristics s inf1 = Some i1 /\ (i1 <= i2)%nat.
Proof.
  unfold bestQueueHeuristics. intros Hle H2.
  apply cutoffLoop_Some in H2 as (_ & (c & Hc & Hc2) & _).
  rewrite Nat.sub_0_r in Hc.
  pose proof (leb_trans _ _ _ Hle Hc2) as Hc1.
  destruct (cutoffLoop_defined (niceness (_opt s) inf1) (_cutoffs s) 0) as [i1 Hi1].
  { exists c. split; [by eapply list_elem_of_lookup_2|done]. }
  exists i1. split; [done|].
  apply cutoffLoop_Some in Hi1 as (_ & _ & Hmin). rewrite Nat.sub_0_r in Hmin.
  destruct (decide (i1 <= i2)%nat); [done|].
  rewrite (Hmin i2 c) in Hc1; [done|lia|done].
Qed.

End MonotoneFacts.

Lemma popSelected_no_fallback_without_lrs_witness :
  exists k q q',
    (PredicateSplitPassiveClauseContainer.min_element
       (PredicateSplitPassiveClauseContainer._balances Examples.split1) <= k)%nat /\
    k = PredicateSplitPassiveClauseContainer.scanRight
          (drop (PredicateSplitPassiveClauseContainer.min_element
                   (PredicateSplitPassiveClauseContainer._balances Examples.split1))
             (PredicateSplitPassiveClauseContainer._queues Examples.split1))
          (PredicateSplitPassiveClauseContainer.min_element
             (PredicateSplitPassiveClauseContainer._balances Examples.split1)) /\
    PredicateSplitPassiveClauseContainer._queues Examples.split1 !! k = Some q /\
    q_popSelected q = Some (3%positive, q') /\
    (forall j qj,
       (PredicateSplitPassiveClauseContainer.min_element
          (PredicateSplitPassiveClauseContainer._balances Examples.split1) <= j < k)%nat ->
       PredicateSplitPassiveClauseContainer._queues Examples.split1 !! j = Some qj ->
       q_isEmpty qj = true).
Proof.
  eapply (popSelected_no_fallback_without_lrs (H0 := fifo_queue_laws) Examples.heap true
            Examples.opt [4; 1] [Float32.half; Float32.one] Examples.split0 Examples.split1
            _ 3%positive).
  - reflexivity.
  - eapply rtc_l; [|apply rtc_refl].
    apply (PredicateSplitPassiveClauseContainer.step_add Examples.heap false 3%positive).
    reflexivity.
  - reflexivity.
Defined.

Lemma bestQueueHeuristics_monotone_witness :
  exists i1,
    PredicateSplitPassiveClauseContainer.bestQueueHeuristics Examples.split1
      (Examples.inf 1 10) = Some i1 /\ (i1 <= 1)%nat.
Proof.
  apply (bestQueueHeuristics_monotone Examples.split1 (Examples.inf 1 10)
           (Examples.inf 9 10) 1).
  - vm_compute. reflexivity.
  - reflexivity.
Defined.
